(** * crypto-chat-app: intent parser, data client and portfolio ledger

    A shallow embedding of the conversational core of the application:
    - [src/services/apiManager.js]: the orchestration layer ([ApiManager]:
      response cache, timestamp-keyed rate limiter, [makeRequest],
      [searchCoins]) and the direct client ([RateLimiter], [cryptoAPI],
      [normalizeCoinName]);
    - [src/utils/messageParser.js]: [PATTERNS], [extractCoinName],
      [extractHoldingInfo], [parseMessage], [generateResponse];
    - the [usePortfolio] hook: [addHolding], [calculatePortfolioValue],
      [getPortfolioSummary], and its other operations ([removeHolding],
      [updateHolding], [clearPortfolio], [getHolding]);
    - the cache administration of [ApiManager] ([getCacheStats],
      [cleanupCache]), its [getPortfolioValue], and [searchCoins] and
      [getCoinDetails] of the direct client;
    - helpers of [src/utils/helpers.js] ([calculatePortfolioValue],
      [getTimeAgo], [generateChartColors], [slugify]) and [handleSubmit]
      of the input area.

    Conventions.  JavaScript strings are [string]s of 8-bit characters (the
    ASCII range is what the patterns speak about); [Date.now()] readings are
    explicit [Z] arguments in milliseconds; JavaScript numbers are exact
    rationals [Q] extended with [NaN]; what the code itself throws is an
    [Error] object, represented by its [message], and what the response
    generator catches from its collaborators is any value. *)

From Stdlib Require Import ZArith QArith Qabs Ascii String List Lia Bool.
From stdpp Require Import base decidable option list gmap fin_maps strings pretty.

Set Warnings "-register-all".
Local Open Scope string_scope.
Local Open Scope list_scope.
Local Open Scope Z_scope.

(** ** JavaScript values *)

Module Js.

(** A JavaScript number: a rational, or [NaN]. *)
Inductive num := NaN | Fin (q : Q).

(** JSON-like data, as the responses of the market-data source carry it. *)
Inductive value :=
| VUndefined
| VNull
| VBool (b : bool)
| VNum (n : num)
| VStr (s : string)
| VArr (items : list value)
| VObj (props : list (string * value)).

(** [ToBoolean]: [undefined], [null], [false], [0], [NaN] and the empty
    string are falsy. *)
Definition truthy (v : value) : bool :=
  match v with
  | VUndefined | VNull => false
  | VBool b => b
  | VNum NaN => false
  | VNum (Fin q) => negb (Qeq_bool q 0)
  | VStr s => negb (String.eqb s "")
  | VArr _ | VObj _ => true
  end.

(** The own property [k] of an object. *)
Fixpoint own (props : list (string * value)) (k : string) : option value :=
  match props with
  | [] => None
  | (k', v) :: rest => if String.eqb k k' then Some v else own rest k
  end.

(** An [Error] object, by its [message]. *)
Record Error := mkError { message : string }.

(** The outcome of a call: a returned value or a thrown error. *)
Inductive result (A : Type) :=
| Ok (a : A)
| Throw (e : Error).
Arguments Ok {A} a.
Arguments Throw {A} e.

End Js.
Import Js.

(** ** The orchestration layer: [class ApiManager] *)

Module ApiManager.

(** A value of a request-parameter object ([localization: false],
    [per_page: 100], [ids: 'bitcoin'], ...): [undefined], [null], a boolean,
    an integer or a string. *)
Inductive param :=
| PUndefined
| PNull
| PBool (b : bool)
| PInt (z : Z)
| PStr (s : string).

(** A parameter object: its own properties in enumeration order.  For an
    object whose keys are no array indices that is the order in which the
    keys were inserted; keys that are decimal numerals are enumerated first
    and in ascending order, whenever they were inserted, and no key is
    listed twice.  The parameter objects of the client have keys as [ids],
    [vs_currencies] or [per_page]. *)
Definition params := list (string * param).

(** Reading a property of a parameter object. *)
Fixpoint get_param (p : params) (k : string) : param :=
  match p with
  | [] => PUndefined
  | (k', v) :: rest => if String.eqb k k' then v else get_param rest k
  end.

Record CacheEntry := mkEntry { data : value; timestamp : Z }.

(** [this.cache] is a [Map] from key to entry; [this.rateLimiter] is a [Map]
    from the timestamp of a request to [true]. *)
Record t := mk {
  cache : gmap string CacheEntry;
  rateLimiter : gmap Z bool;
}.

Definition cacheTimeout : Z := 5 * 60 * 1000.
Definition maxRequestsPerMinute : nat := 50.

(** [constructor()] *)
Definition new : t := {| cache := ∅; rateLimiter := ∅ |}.

(** *** Rate limiting *)

(** The loop of [handleRateLimit] that deletes every timestamp below
    [windowStart]. *)
Definition clean (windowStart : Z) (rl : gmap Z bool) : gmap Z bool :=
  filter (λ kv : Z * bool, ¬ kv.1 < windowStart) rl.

Definition rate_limit_message : string :=
  "Rate limit exceeded. Please wait before making more requests.".

(** [handleRateLimit(config)] at [Date.now() = now]: the cleaned limiter is
    kept also when the request is refused; [None] is the normal return of
    [config], [Some e] the thrown error. *)
Definition handleRateLimit (now : Z) (am : t) : option Error * t :=
  let windowStart := now - 60000 in
  let cleaned := clean windowStart (rateLimiter am) in
  if (maxRequestsPerMinute <=? size cleaned)%nat
  then (Some (mkError rate_limit_message),
        {| cache := cache am; rateLimiter := cleaned |})
  else (None,
        {| cache := cache am; rateLimiter := <[now := true]> cleaned |}).

(** *** Cache *)

(** [QuoteJSONString], one character: the two-character escapes, [\u00XX]
    for the other control characters, the character itself otherwise. *)
Definition hex_digit (n : N) : ascii :=
  match n with
  | 0 => "0" | 1 => "1" | 2 => "2" | 3 => "3" | 4 => "4" | 5 => "5"
  | 6 => "6" | 7 => "7" | 8 => "8" | 9 => "9" | 10 => "a" | 11 => "b"
  | 12 => "c" | 13 => "d" | 14 => "e" | _ => "f"
  end%N%char.

(** The double quote, character 34. *)
Definition dq : ascii := ascii_of_N 34.

Definition quote_char (c : ascii) : string :=
  let n := N_of_ascii c in
  if (n =? 8)%N then "\b"
  else if (n =? 9)%N then "\t"
  else if (n =? 10)%N then "\n"
  else if (n =? 12)%N then "\f"
  else if (n =? 13)%N then "\r"
  else if (n =? 34)%N then String "\" (String dq "")
  else if (n =? 92)%N then "\\"
  else if (n <? 32)%N
       then "\u00" +:+ String (hex_digit (n / 16)) (String (hex_digit (n mod 16)) "")
  else String c "".

Fixpoint quote_chars (s : string) : string :=
  match s with
  | EmptyString => ""
  | String c rest => quote_char c +:+ quote_chars rest
  end.

Definition dquote : string := String dq "".

Definition quoteJSONString (s : string) : string :=
  dquote +:+ quote_chars s +:+ dquote.

(** [JSON.stringify] of a parameter value; [None] is [undefined]. *)
Definition stringify_param (v : param) : option string :=
  match v with
  | PUndefined => None
  | PNull => Some "null"
  | PBool true => Some "true"
  | PBool false => Some "false"
  | PInt z => Some (pretty z)
  | PStr s => Some (quoteJSONString s)
  end.

(** The members of the object, in enumeration order; a property whose value
    is [undefined] is left out. *)
Fixpoint stringify_members (p : params) : list string :=
  match p with
  | [] => []
  | (k, v) :: rest =>
      match stringify_param v with
      | Some sv => (quoteJSONString k +:+ ":" +:+ sv) :: stringify_members rest
      | None => stringify_members rest
      end
  end.

Fixpoint join (sep : string) (l : list string) : string :=
  match l with
  | [] => ""
  | [x] => x
  | x :: rest => x +:+ sep +:+ join sep rest
  end.

(** [JSON.stringify(params)] *)
Definition JSON_stringify (p : params) : string :=
  "{" +:+ join "," (stringify_members p) +:+ "}".

(** [getCacheKey(url, params)] *)
Definition getCacheKey (url : string) (p : params) : string :=
  url +:+ "_" +:+ JSON_stringify p.

(** [getFromCache(key)] at [Date.now() = now]: returns [cached.data], or
    deletes the key and returns [null]. *)
Definition getFromCache (key : string) (now : Z) (am : t) : value * t :=
  match cache am !! key with
  | Some cached =>
      if now - timestamp cached <? cacheTimeout
      then (data cached, am)
      else (VNull, {| cache := delete key (cache am); rateLimiter := rateLimiter am |})
  | None =>
      (VNull, {| cache := delete key (cache am); rateLimiter := rateLimiter am |})
  end.

(** [setCache(key, data)] at [Date.now() = now] *)
Definition setCache (key : string) (d : value) (now : Z) (am : t) : t :=
  {| cache := <[key := {| data := d; timestamp := now |}]> (cache am);
     rateLimiter := rateLimiter am |}.

(** *** Requests *)

(** How a dispatched request ends, as axios reports it: a response with
    its [data], or an error with [error.response] (status and the
    [message] of its data, when there is one), with [error.request] only,
    or with neither. *)
Inductive transport :=
| Response (d : value)
| StatusError (status : Z) (msg : option string)
| NoResponse
| SetupError (msg : string).

(** [handleApiError(error)] of [utils/helpers.js] *)
Definition handleApiError (err : transport) : string :=
  match err with
  | Response _ => ""
  | StatusError status msg =>
      "API Error: " +:+ pretty status +:+ " - " +:+
      match msg with
      | Some m => if String.eqb m "" then "Unknown error" else m
      | None => "Unknown error"
      end
  | NoResponse => "Network Error: Unable to reach the server"
  | SetupError m => "Error: " +:+ m
  end.

(** [handleResponseError(error)]: the rejection of the response
    interceptor. *)
Definition handleResponseError (err : transport) : Error :=
  mkError (handleApiError err).

(** The manager together with what has left for the network: the urls of
    the dispatched requests, latest first. *)
Record World := mkWorld {
  manager : t;
  sent : list string;
}.

(** The three [Date.now()] readings of one [makeRequest]: in
    [getFromCache], in [handleRateLimit] and in [setCache]. *)
Record Clock := mkClock {
  at_lookup : Z;
  at_admit : Z;
  at_store : Z;
}.

Definition baseUrl : string := "https://api.coingecko.com/api/v3".

Section Requests.

(** [createApiUrl(baseUrl, endpoint, params)] of [utils/helpers.js],
    built on the platform's [URL]. *)
Variable createApiUrl : string → string → params → string.

(** The market-data source: what the network answers to a url, given the
    requests dispatched before. *)
Variable net : list string → string → transport.

(** [axiosInstance.get(fullUrl)]: the request interceptor, the dispatch,
    the response interceptor.  axios hands a rejection of the request
    interceptor to the rejection handler of the response interceptor, so
    a refused request is rejected with [handleResponseError] of the
    rate-limit error; nothing is dispatched then. *)
Definition axios_get (fullUrl : string) (now : Z) (w : World)
  : result value * World :=
  match handleRateLimit now (manager w) with
  | (Some e, am) =>
      (Throw (handleResponseError (SetupError (message e))),
       {| manager := am; sent := sent w |})
  | (None, am) =>
      match net (sent w) fullUrl with
      | Response d =>
          (Ok d, {| manager := am; sent := fullUrl :: sent w |})
      | err =>
          (Throw (handleResponseError err),
           {| manager := am; sent := fullUrl :: sent w |})
      end
  end.

(** [makeRequest(url, params = {}, useCache = true)] *)
Definition makeRequest (url : string) (p : params) (useCache : bool)
    (ck : Clock) (w : World) : result value * World :=
  let cacheKey := getCacheKey url p in
  let '(cachedData, am1) :=
    if useCache then getFromCache cacheKey (at_lookup ck) (manager w)
    else (VUndefined, manager w) in
  if useCache && truthy cachedData
  then (Ok cachedData, {| manager := am1; sent := sent w |})
  else
    let fullUrl := createApiUrl baseUrl url p in
    match axios_get fullUrl (at_admit ck) {| manager := am1; sent := sent w |} with
    | (Ok d, w2) =>
        if useCache && truthy d
        then (Ok d, {| manager := setCache cacheKey d (at_store ck) (manager w2);
                       sent := sent w2 |})
        else (Ok d, w2)
    | (Throw e, w2) => (Throw e, w2)
    end.

(** [searchCoins(query)]; an absent [query] is [None]. *)
Definition searchCoins (query : option string) (ck : Clock) (w : World)
  : result value * World :=
  match query with
  | None => (Ok (VObj [("coins", VArr [])]), w)
  | Some q =>
      if String.eqb q "" || (String.length q <? 2)%nat
      then (Ok (VObj [("coins", VArr [])]), w)
      else makeRequest "/search" [("query", PStr q)] false ck w
  end.

(** [getTrendingCoins()] *)
Definition getTrendingCoins (ck : Clock) (w : World) : result value * World :=
  makeRequest "/search/trending" [] true ck w.

End Requests.

End ApiManager.

(** ** The direct client: [class RateLimiter], [cryptoAPI], [normalizeCoinName] *)

Module RateLimiter.

Record t := mk {
  maxRequests : nat;
  windowMs : Z;
  requests : list Z;
}.

(** [constructor(maxRequests = 10, windowMs = 60000)] *)
Definition create (maxRequests : nat) (windowMs : Z) : t :=
  {| maxRequests := maxRequests; windowMs := windowMs; requests := [] |}.

(** [new RateLimiter()] *)
Definition new : t := create 10 60000.

(** [canMakeRequest()] at [Date.now() = now] *)
Definition canMakeRequest (now : Z) (rl : t) : bool * t :=
  let kept := filter (λ time, now - time < windowMs rl) (requests rl) in
  ((length kept <? maxRequests rl)%nat,
   {| maxRequests := maxRequests rl; windowMs := windowMs rl; requests := kept |}).

(** [recordRequest()] at [Date.now() = now] *)
Definition recordRequest (now : Z) (rl : t) : t :=
  {| maxRequests := maxRequests rl; windowMs := windowMs rl;
     requests := requests rl ++ [now] |}.

Definition rate_limit_message : string :=
  "Rate limit exceeded. Please wait a moment.".

(** The request interceptor of the direct client; [now] and [now'] are the
    readings of [Date.now()] in [canMakeRequest] and in [recordRequest].
    [None]: the request goes on; [Some e]: it is rejected. *)
Definition intercept (now now' : Z) (rl : t) : option Error * t :=
  match canMakeRequest now rl with
  | (false, rl1) => (Some (mkError rate_limit_message), rl1)
  | (true, rl1) => (None, recordRequest now' rl1)
  end.

End RateLimiter.

Module CryptoAPI.

(** The properties that every plain object inherits from
    [Object.prototype]. *)
Definition object_prototype : list string :=
  [ "constructor"; "__defineGetter__"; "__defineSetter__"; "hasOwnProperty";
    "__lookupGetter__"; "__lookupSetter__"; "isPrototypeOf";
    "propertyIsEnumerable"; "toString"; "valueOf"; "__proto__";
    "toLocaleString" ].

(** What [object[key]] finds in a plain object with the own properties
    [props]: an own property, else a member of [Object.prototype] (a
    function, or the prototype itself for [__proto__]), else nothing, which
    reads as [undefined]. *)
Inductive member :=
| Own (v : value)
| Inherited (key : string)
| Absent.

Definition find_member (props : gmap string value) (key : string) : member :=
  match props !! key with
  | Some v => Own v
  | None => if bool_decide (key ∈ object_prototype) then Inherited key else Absent
  end.

(** [data.k] for [k] among [usd], [usd_24h_change] and [usd_market_cap],
    names that nothing inherits, on a truthy [data]: the own property of an
    object, [undefined] otherwise. *)
Definition field (data : value) (k : string) : value :=
  match data with
  | VObj props => default VUndefined (own props k)
  | _ => VUndefined
  end.

(** What [getCurrentPrice] returns. *)
Record PriceInfo := mkInfo {
  price : value;
  change24h : value;
  marketCap : value;
}.

(** The error of a failed request as axios builds it: the status of
    [error.response] when there is a response, [error.code], and the
    error's own message. *)
Record AxiosError := mkAxiosError {
  response_status : option Z;
  code : option string;
  axios_message : string;
}.

Inductive transport (A : Type) :=
| Response (d : A)
| Failure (e : AxiosError).
Arguments Response {A} d.
Arguments Failure {A} e.

(** The rejection handler of the response interceptor. *)
Definition response_error (e : AxiosError) : Error :=
  if decide (response_status e = Some 429)
  then mkError "API rate limit exceeded. Please try again in a minute."
  else if decide (code e = Some "ECONNABORTED")
  then mkError "Request timeout. Please check your connection."
  else if decide (response_status e = None)
  then mkError "Network error. Please check your internet connection."
  else mkError (axios_message e).

(** The client: its limiter and the paths of the requests that were
    dispatched to the network, latest first. *)
Record Client := mkClient {
  limiter : RateLimiter.t;
  dispatched : list string;
}.

Definition new : Client := {| limiter := RateLimiter.new; dispatched := [] |}.

(** [api.get(path, ...)]: request interceptor, dispatch, response
    interceptor.  A rejection of the request interceptor is a plain [Error]
    (no [response], no [code]) and passes through the rejection handler of
    the response interceptor.  [answer] is what the network would answer. *)
Definition api_get {A} (path : string) (now now' : Z)
    (answer : transport A) (c : Client) : result A * Client :=
  match RateLimiter.intercept now now' (limiter c) with
  | (Some e, rl) =>
      (Throw (response_error
                {| response_status := None; code := None;
                   axios_message := message e |}),
       {| limiter := rl; dispatched := dispatched c |})
  | (None, rl) =>
      match answer with
      | Response d =>
          (Ok d, {| limiter := rl; dispatched := path :: dispatched c |})
      | Failure e =>
          (Throw (response_error e),
           {| limiter := rl; dispatched := path :: dispatched c |})
      end
  end.

Definition not_found (coinId : string) : Error :=
  mkError ("Cryptocurrency " +:+ ApiManager.dquote +:+ coinId +:+
           ApiManager.dquote +:+ " not found").

(** [cryptoAPI.getCurrentPrice(coinId)], when the source answers with a
    JSON object whose own properties are [response_data]; the [catch] logs
    and rethrows. *)
Definition getCurrentPrice (coinId : string) (now now' : Z)
    (answer : transport (gmap string value)) (c : Client)
  : result PriceInfo * Client :=
  match api_get "/simple/price" now now' answer c with
  | (Ok response_data, c') =>
      match find_member response_data coinId with
      | Own data =>
          if truthy data
          then (Ok {| price := field data "usd";
                      change24h := field data "usd_24h_change";
                      marketCap := field data "usd_market_cap" |}, c')
          else (Throw (not_found coinId), c')
      | Inherited _ =>
          (Ok {| price := VUndefined; change24h := VUndefined;
                 marketCap := VUndefined |}, c')
      | Absent => (Throw (not_found coinId), c')
      end
  | (Throw e, c') => (Throw e, c')
  end.

End CryptoAPI.

(** ** Strings *)

Module Str.

(** Characters are the code units 0 to 255.  The upper-case letters are
    A to Z and the Latin-1 letters 192 to 222 (215, the multiplication
    sign, apart); lower case is 32 above. *)
Definition is_upper (c : ascii) : bool :=
  let n := N_of_ascii c in
  (((65 <=? n) && (n <=? 90)) ||
   ((192 <=? n) && (n <=? 222) && negb (n =? 215)))%N.

Definition is_lower (c : ascii) : bool :=
  let n := N_of_ascii c in
  (((97 <=? n) && (n <=? 122)) ||
   ((224 <=? n) && (n <=? 254) && negb (n =? 247)))%N.

Definition lower (c : ascii) : ascii :=
  if is_upper c then ascii_of_N (N_of_ascii c + 32) else c.

Definition upper (c : ascii) : ascii :=
  if is_lower c then ascii_of_N (N_of_ascii c - 32) else c.

(** [String.prototype.toLowerCase] *)
Fixpoint toLowerCase (s : string) : string :=
  match s with
  | EmptyString => EmptyString
  | String c rest => String (lower c) (toLowerCase rest)
  end.

(** [String.prototype.toUpperCase]; the three characters whose upper case
    lies outside the code units of the model (181, 223, 255) are kept. *)
Fixpoint toUpperCase (s : string) : string :=
  match s with
  | EmptyString => EmptyString
  | String c rest => String (upper c) (toUpperCase rest)
  end.

(** White space and line terminators ([\s], [trim]): tab, line feed,
    vertical tab, form feed, carriage return, space, no-break space. *)
Definition is_space (c : ascii) : bool :=
  let n := N_of_ascii c in
  (((9 <=? n) && (n <=? 13)) || (n =? 32) || (n =? 160))%N.

(** [\d] *)
Definition is_digit (c : ascii) : bool :=
  let n := N_of_ascii c in ((48 <=? n) && (n <=? 57))%N.

(** [\w]: the ASCII letters, the digits and the underscore. *)
Definition is_word (c : ascii) : bool :=
  let n := N_of_ascii c in
  (((65 <=? n) && (n <=? 90)) || ((97 <=? n) && (n <=? 122)) ||
   ((48 <=? n) && (n <=? 57)) || (n =? 95))%N.

(** [.]: any character but a line terminator. *)
Definition is_dot (c : ascii) : bool :=
  let n := N_of_ascii c in negb ((n =? 10) || (n =? 13))%N.

(** A literal under the [i] flag: an ASCII letter stands for both of its
    cases, any other character for itself. *)
Definition ci (l c : ascii) : bool :=
  let n := N_of_ascii l in
  if (((65 <=? n) && (n <=? 90)) || ((97 <=? n) && (n <=? 122)))%N
  then Ascii.eqb (lower c) (lower l)
  else Ascii.eqb c l.

Fixpoint drop_spaces (l : list ascii) : list ascii :=
  match l with
  | c :: rest => if is_space c then drop_spaces rest else l
  | [] => []
  end.

(** [String.prototype.trim] *)
Definition trim (l : list ascii) : list ascii :=
  rev (drop_spaces (rev (drop_spaces l))).

End Str.

(** [normalizeCoinName(name)]: the alias table [coinMap], else the
    lower-cased name. *)
Definition coinMap : list (string * string) :=
  [ ("btc", "bitcoin"); ("bitcoin", "bitcoin");
    ("eth", "ethereum"); ("ethereum", "ethereum");
    ("ada", "cardano"); ("cardano", "cardano");
    ("dot", "polkadot"); ("polkadot", "polkadot");
    ("link", "chainlink"); ("chainlink", "chainlink");
    ("bnb", "binancecoin"); ("binance", "binancecoin");
    ("sol", "solana"); ("solana", "solana");
    ("matic", "matic-network"); ("polygon", "matic-network");
    ("avax", "avalanche-2"); ("avalanche", "avalanche-2");
    ("luna", "terra-luna");
    ("doge", "dogecoin"); ("dogecoin", "dogecoin");
    ("shib", "shiba-inu"); ("shiba", "shiba-inu") ].

Fixpoint assoc (k : string) (l : list (string * string)) : option string :=
  match l with
  | [] => None
  | (k', v) :: rest => if String.eqb k k' then Some v else assoc k rest
  end.

Definition normalizeCoinName (name : string) : string :=
  match assoc (Str.toLowerCase name) coinMap with
  | Some id => id
  | None => Str.toLowerCase name
  end.

(** The alias table of [normalizeCoinName] is a plain object: besides its
    own keys it answers to the keys that it inherits.  These are the two that
    are in small letters; for them the lookup finds no string, and the model
    of [normalizeCoinName] does not speak. *)
Definition inherited : list string := ["constructor"; "__proto__"].

(** ** Numbers *)

Module Num.

(** JavaScript arithmetic on the numbers of the model.  [NaN] absorbs; a
    division by zero, which JavaScript answers with an infinity or [NaN],
    is [NaN] here, the one non-finite number of the model. *)
Definition add (a b : num) : num :=
  match a, b with
  | Fin x, Fin y => Fin (x + y)
  | _, _ => NaN
  end.

Definition mul (a b : num) : num :=
  match a, b with
  | Fin x, Fin y => Fin (x * y)
  | _, _ => NaN
  end.

Definition div (a b : num) : num :=
  match a, b with
  | Fin x, Fin y => if Qeq_bool y 0 then NaN else Fin (x / y)
  | _, _ => NaN
  end.

(** [a > b]: false as soon as one side is [NaN]. *)
Definition gt (a b : num) : bool :=
  match a, b with
  | Fin x, Fin y => negb (Qle_bool x y)
  | _, _ => false
  end.

(** [ToNumber] of a numeric property that may be [undefined]. *)
Definition of_option (o : option num) : num :=
  match o with
  | Some n => n
  | None => NaN
  end.

(** [ToBoolean] of a numeric property that may be [undefined]. *)
Definition truthy (o : option num) : bool :=
  match o with
  | Some (Fin q) => negb (Qeq_bool q 0)
  | Some NaN | None => false
  end.

(** Numerical equality of two numbers of the model. *)
Definition eqb (a b : num) : bool :=
  match a, b with
  | Fin x, Fin y => Qeq_bool x y
  | _, _ => false
  end.

Definition of_Z (z : Z) : num := Fin (inject_Z z).

End Num.

(** ** The portfolio ledger: [usePortfolio] *)

Module Portfolio.

(** A holding.  The valuation fields are [undefined] ([None]) until a
    valuation pass has found a price; an ISO time stamp is represented by
    its instant. *)
Record Holding := mkHolding {
  id : string;
  coinId : string;
  coinName : string;
  coinSymbol : string;
  amount : num;
  currentPrice : option num;
  currentValue : option num;
  change24h : option num;
  addedAt : Z;
  lastUpdated : Z;
}.

(** The state of the hook. *)
Record State := mkState {
  holdings : list Holding;
  portfolioValue : num;
  loading : bool;
  error : option string;
}.

Definition init : State :=
  {| holdings := []; portfolioValue := Num.of_Z 0; loading := false; error := None |}.

(** The updater that [addHolding(coinId, coinName, coinSymbol, amount)]
    hands to [setHoldings], run at time [now]. *)
Definition addHolding_update (cid name symbol : string) (amt : num) (now : Z)
    (prevHoldings : list Holding) : list Holding :=
  match list_find (λ h, coinId h = cid) prevHoldings with
  | Some (existingIndex, existing) =>
      <[existingIndex :=
          {| id := id existing; coinId := coinId existing;
             coinName := coinName existing; coinSymbol := coinSymbol existing;
             amount := Num.add (amount existing) amt;
             currentPrice := currentPrice existing;
             currentValue := currentValue existing;
             change24h := change24h existing;
             addedAt := addedAt existing;
             lastUpdated := now |}]> prevHoldings
  | None =>
      prevHoldings ++
      [ {| id := pretty now; coinId := cid; coinName := name;
           coinSymbol := Str.toUpperCase symbol; amount := amt;
           currentPrice := None; currentValue := None; change24h := None;
           addedAt := now; lastUpdated := now |} ]
  end.

(** [addHolding(coinId, coinName, coinSymbol, amount)] *)
Definition addHolding (cid name symbol : string) (amt : num) (now : Z)
    (st : State) : State :=
  {| holdings := addHolding_update cid name symbol amt now (holdings st);
     portfolioValue := portfolioValue st;
     loading := loading st; error := error st |}.

(** [removeHolding(holdingId)] *)
Definition removeHolding (holdingId : string) (st : State) : State :=
  {| holdings := filter (λ h, id h ≠ holdingId) (holdings st);
     portfolioValue := portfolioValue st;
     loading := loading st; error := error st |}.

(** One entry of the [getMultiplePrices] response. *)
Record PriceData := mkPriceData {
  usd : option num;
  usd_24h_change : option num;
}.

(** The [holdings.map] of [calculatePortfolioValue]: a holding with price
    data is revalued, another one is kept as it is. *)
Definition revalue (prices : gmap string PriceData) (now : Z) (h : Holding)
  : Holding :=
  match prices !! coinId h with
  | Some priceData =>
      {| id := id h; coinId := coinId h; coinName := coinName h;
         coinSymbol := coinSymbol h; amount := amount h;
         currentPrice := usd priceData;
         currentValue := Some (Num.mul (amount h) (Num.of_option (usd priceData)));
         change24h := usd_24h_change priceData;
         addedAt := addedAt h;
         lastUpdated := now |}
  | None => h
  end.

(** The running sum [totalValue += currentValue], in the order of the
    [map]. *)
Fixpoint pass_total_from (acc : num) (prices : gmap string PriceData)
    (hs : list Holding) : num :=
  match hs with
  | [] => acc
  | h :: rest =>
      match prices !! coinId h with
      | Some priceData =>
          pass_total_from
            (Num.add acc (Num.mul (amount h) (Num.of_option (usd priceData))))
            prices rest
      | None => pass_total_from acc prices rest
      end
  end.

(** [calculatePortfolioValue()] at time [now], when [getMultiplePrices]
    ends with [answer]. *)
Definition calculatePortfolioValue (now : Z)
    (answer : result (gmap string PriceData)) (st : State) : State :=
  match holdings st with
  | [] =>
      {| holdings := holdings st; portfolioValue := Num.of_Z 0;
         loading := loading st; error := error st |}
  | _ =>
      match answer with
      | Ok prices =>
          {| holdings := map (revalue prices now) (holdings st);
             portfolioValue := pass_total_from (Num.of_Z 0) prices (holdings st);
             loading := false; error := None |}
      | Throw _ =>
          {| holdings := holdings st; portfolioValue := portfolioValue st;
             loading := false;
             error := Some "Failed to update portfolio values" |}
      end
  end.

(** A holding as [getPortfolioSummary] returns it. *)
Record SummaryHolding := mkSummaryHolding {
  holding : Holding;
  percentage : num;
}.

Record Summary := mkSummary {
  totalCoins : nat;
  totalValue : num;
  summary_change24h : num;
  summary_holdings : list SummaryHolding;
}.

(** The [forEach] of [getPortfolioSummary]: the pair
    ([totalChange24h], [validChanges]) after the holdings [hs]. *)
Fixpoint changes_from (acc : num * nat) (hs : list Holding) : num * nat :=
  match hs with
  | [] => acc
  | h :: rest =>
      match change24h h with
      | Some change =>
          if Num.truthy (currentValue h)
          then
            let holdingChange :=
              Num.mul (Num.div change (Num.of_Z 100))
                      (Num.of_option (currentValue h)) in
            changes_from (Num.add (fst acc) holdingChange, S (snd acc)) rest
          else changes_from acc rest
      | None => changes_from acc rest
      end
  end.

(** [getPortfolioSummary()] *)
Definition getPortfolioSummary (st : State) : Summary :=
  let totalValue := portfolioValue st in
  let '(totalChange24h, validChanges) :=
    changes_from (Num.of_Z 0, 0%nat) (holdings st) in
  let avgChange24h :=
    if (0 <? validChanges)%nat
    then Num.mul (Num.div totalChange24h totalValue) (Num.of_Z 100)
    else Num.of_Z 0 in
  {| totalCoins := length (holdings st);
     totalValue := totalValue;
     summary_change24h := avgChange24h;
     summary_holdings :=
       map (λ h,
              {| holding := h;
                 percentage :=
                   if Num.gt totalValue (Num.of_Z 0)
                   then Num.mul (Num.div (Num.of_option (currentValue h)) totalValue)
                                (Num.of_Z 100)
                   else Num.of_Z 0 |})
           (holdings st) |}.

End Portfolio.

(** ** Regular expressions

    The backtracking matcher of JavaScript for the constructs the patterns
    of the application use.  [run r s caps] lists, in the order in which the
    backtracking search tries them, the ways in which [r] can match at the
    position [s]; the match JavaScript reports is the first one. *)

Module Regex.

Inductive re :=
| Cls (p : ascii → bool)      (* one character of a class *)
| Eps                          (* the empty pattern *)
| Seq (a b : re)               (* ab *)
| Alt (a b : re)               (* a|b *)
| Opt (a : re)                 (* (?:a)? *)
| Rep (greedy : bool) (min : nat) (p : ascii → bool)
                               (* p+, p*, p+? of a class p *)
| Group (n : nat) (a : re)     (* the capturing group n *)
| Bol                          (* ^ *)
| Eol                          (* $ *)
| WordB                        (* \b *)
| NotAhead (a : re).           (* (?!a) *)

(** A position in the input: the character before it, if any, and the
    characters from it on. *)
Record pos := mkPos {
  prev : option ascii;
  rest : list ascii;
}.

(** The captures so far, latest first. *)
Definition caps := list (nat * list ascii).

Fixpoint get_cap (n : nat) (c : caps) : option (list ascii) :=
  match c with
  | [] => None
  | (m, txt) :: c' => if (n =? m)%nat then Some txt else get_cap n c'
  end.

(** The position [k] characters further. *)
Fixpoint skip (k : nat) (s : pos) : pos :=
  match k, rest s with
  | S k', c :: t => skip k' {| prev := Some c; rest := t |}
  | _, _ => s
  end.

(** The length of the longest prefix made of characters of [p]. *)
Fixpoint span (p : ascii → bool) (l : list ascii) : nat :=
  match l with
  | c :: t => if p c then S (span p t) else 0
  | [] => 0
  end.

(** What was read between the position [s] and the later position [s']. *)
Definition consumed (s s' : pos) : list ascii :=
  take (length (rest s) - length (rest s')) (rest s).

Definition is_word_at (o : option ascii) : bool :=
  match o with
  | Some c => Str.is_word c
  | None => false
  end.

(** The numbers of repetitions a quantifier tries, in order: from the
    longest down when greedy, from the shortest up when lazy. *)
Definition counts (greedy : bool) (min max : nat) : list nat :=
  if (max <? min)%nat then []
  else if greedy then rev (seq min (S max - min)) else seq min (S max - min).

Fixpoint run (r : re) (s : pos) (c : caps) : list (pos * caps) :=
  match r with
  | Cls p =>
      match rest s with
      | ch :: t => if p ch then [({| prev := Some ch; rest := t |}, c)] else []
      | [] => []
      end
  | Eps => [(s, c)]
  | Seq a b => flat_map (λ sc, run b (fst sc) (snd sc)) (run a s c)
  | Alt a b => run a s c ++ run b s c
  | Opt a => run a s c ++ [(s, c)]
  | Rep greedy min p =>
      map (λ k, (skip k s, c)) (counts greedy min (span p (rest s)))
  | Group n a =>
      map (λ sc, (fst sc, (n, consumed s (fst sc)) :: snd sc)) (run a s c)
  | Bol => match prev s with None => [(s, c)] | Some _ => [] end
  | Eol => match rest s with [] => [(s, c)] | _ :: _ => [] end
  | WordB =>
      if xorb (is_word_at (prev s)) (is_word_at (head (rest s)))
      then [(s, c)] else []
  | NotAhead a => match run a s c with [] => [(s, c)] | _ :: _ => [] end
  end.

(** The first match of [r] that starts at the position [s]. *)
Definition match_at (r : re) (s : pos) : option (pos * caps) :=
  head (run r s []).

(** The search from the position [s] on: the leftmost position at which
    [r] matches, with the match found there. *)
Fixpoint search_from (r : re) (p : option ascii) (l : list ascii)
  : option (pos * caps) :=
  match match_at r {| prev := p; rest := l |} with
  | Some m => Some m
  | None =>
      match l with
      | [] => None
      | ch :: t => search_from r (Some ch) t
      end
  end.

(** [text.match(r)] for a pattern without the [g] flag: the captures of
    the leftmost match, or [None] for [null]. *)
Definition exec (r : re) (text : list ascii) : option caps :=
  match search_from r None text with
  | Some (_, c) => Some c
  | None => None
  end.

(** [r.test(text)] *)
Definition test (r : re) (text : list ascii) : bool :=
  match exec r text with
  | Some _ => true
  | None => false
  end.

(** [text.replace(r, by)] for a pattern with the [g] flag that matches no
    empty string: [pending] counts the characters of the current match that
    are still to be dropped. *)
Fixpoint replace_from (r : re) (by_ : list ascii) (pending : nat)
    (p : option ascii) (l : list ascii) : list ascii :=
  match l with
  | [] => []
  | ch :: t =>
      match pending with
      | S n => replace_from r by_ n (Some ch) t
      | O =>
          match match_at r {| prev := p; rest := l |} with
          | Some (s', _) =>
              match (length l - length (rest s'))%nat with
              | S n => by_ ++ replace_from r by_ n (Some ch) t
              | O => ch :: replace_from r by_ O (Some ch) t
              end
          | None => ch :: replace_from r by_ O (Some ch) t
          end
      end
  end.

Definition replace_all (r : re) (by_ : list ascii) (text : list ascii)
  : list ascii :=
  replace_from r by_ O None text.

(** *** Writing patterns *)

Definition chars (s : string) : list ascii := list_ascii_of_string s.

(** A literal string, under the [i] flag or not. *)
Fixpoint lit_of (eqc : ascii → ascii → bool) (l : list ascii) : re :=
  match l with
  | [] => Eps
  | [ch] => Cls (eqc ch)
  | ch :: t => Seq (Cls (eqc ch)) (lit_of eqc t)
  end.

Definition lit_i (s : string) : re := lit_of Str.ci (chars s).
Definition lit (s : string) : re := lit_of Ascii.eqb (chars s).

Fixpoint seqs (l : list re) : re :=
  match l with
  | [] => Eps
  | [a] => a
  | a :: t => Seq a (seqs t)
  end.

Fixpoint alts (l : list re) : re :=
  match l with
  | [] => NotAhead Eps
  | [a] => a
  | a :: t => Alt a (alts t)
  end.

Definition spaces1 : re := Rep true 1 Str.is_space.   (** [\s+] *)
Definition spaces0 : re := Rep true 0 Str.is_space.   (** [\s*] *)
Definition digits1 : re := Rep true 1 Str.is_digit.   (** [\d+] *)
Definition any1 : re := Rep true 1 Str.is_dot.        (** [.+] *)
Definition any1_lazy : re := Rep false 1 Str.is_dot.  (** [.+?] *)

End Regex.

(** ** The intent parser: [utils/messageParser.js] *)

Module Parser.
Import Regex.

Definition chr_i (c : ascii) : re := Cls (Str.ci c).

(** [what'?s] *)
Definition whats : re := seqs [lit_i "what"; Opt (chr_i "'"); lit_i "s"].

(** [coins?] and [tokens?] *)
Definition coins : re := seqs [lit_i "coin"; Opt (lit_i "s")].
Definition tokens : re := seqs [lit_i "token"; Opt (lit_i "s")].

(** [\d+(?:\.\d+)?] *)
Definition number : re := seqs [digits1; Opt (seqs [chr_i "."; digits1])].

(** [const PATTERNS], all with the [i] flag. *)
Definition PRICE_QUERY : re :=
  seqs [ alts [whats; lit_i "what is"; lit_i "price of";
               lit_i "current price"; lit_i "how much is"];
         spaces1;
         Group 1 any1_lazy;
         Opt (seqs [spaces1; lit_i "trading"; spaces1; lit_i "at"]);
         Opt (chr_i "?");
         Eol ].

Definition PRICE_SIMPLE : re :=
  seqs [Bol; Group 1 any1_lazy; spaces1; lit_i "price"; Eol].

Definition PRICE_TRADING : re :=
  seqs [ alts [whats; lit_i "what is"];
         spaces1;
         Group 1 any1_lazy;
         spaces1; lit_i "trading"; spaces1; lit_i "at" ].

Definition ADD_HOLDING : re :=
  seqs [ alts [lit_i "i have"; lit_i "i own"; lit_i "add"; lit_i "buy";
               lit_i "bought"];
         spaces1;
         Group 1 number;
         spaces1;
         Group 2 any1_lazy;
         Opt (seqs [spaces1; alts [coins; tokens]]);
         Eol ].

Definition PORTFOLIO_VALUE : re :=
  alts [ lit_i "portfolio"; lit_i "my holdings"; lit_i "total value";
         lit_i "how much";
         seqs [whats; lit_i " my portfolio worth"] ].

Definition TRENDING : re :=
  seqs [ alts [lit_i "trending"; lit_i "hot"; lit_i "popular"; lit_i "top"];
         spaces0;
         Opt (alts [ coins; lit_i "crypto";
                     seqs [lit_i "cryptocurrencie"; Opt (lit_i "s")] ]) ].

Definition CHART_REQUEST : re :=
  seqs [ alts [lit_i "chart"; lit_i "graph"; lit_i "price chart";
               lit_i "show chart"];
         spaces1;
         Opt (seqs [lit_i "for"; spaces1]);
         Group 1 any1_lazy;
         Opt (seqs [ spaces1;
                     alts [ seqs [lit_i "7"; spaces0; lit_i "day"; Opt (lit_i "s")];
                            lit_i "week"; lit_i "weekly" ] ]);
         Eol ].

Definition INFO_REQUEST : re :=
  seqs [ alts [lit_i "tell me about"; lit_i "info about";
               lit_i "information about"; lit_i "what is"];
         spaces1;
         Group 1 any1 ].

Definition HELP : re :=
  seqs [Bol; alts [lit_i "help"; lit_i "what can you do"; lit_i "commands"]; Eol].

(** The patterns of [extractCoinName], all with the [g] flag. *)
Definition FILLER : re :=
  seqs [ WordB;
         alts [lit "price"; lit "current"; lit "trading"; lit "at"; lit "now";
               lit "today"; lit "currently"];
         WordB ].

Definition CRYPTO : re :=
  seqs [WordB; alts [lit "crypto"; lit "cryptocurrency"]; WordB].

Definition TOKEN : re :=
  seqs [WordB; lit "token"; WordB; NotAhead (Cls Str.is_word)].

Definition COIN : re :=
  seqs [WordB; lit "coin"; WordB; NotAhead (Cls Str.is_word)].

(** [[^\w\s]] *)
Definition PUNCT : re :=
  Cls (λ c, negb (Str.is_word c || Str.is_space c)).

(** [match[n]] of a match in which the group [n] took part. *)
Definition group (n : nat) (c : caps) : list ascii :=
  default [] (get_cap n c).

(** [extractCoinName(text)] *)
Definition extractCoinName (text : list ascii) : list ascii :=
  let lowered := map Str.lower text in
  let s1 := replace_all FILLER [] lowered in
  let s2 := replace_all CRYPTO [] s1 in
  let s3 := replace_all TOKEN [] s2 in
  let s4 := replace_all COIN [] s3 in
  let s5 := replace_all PUNCT [] s4 in
  let s6 := replace_all spaces1 [" "%char] s5 in
  Str.trim s6.

(** The value of a run of decimal digits. *)
Definition digit_value (c : ascii) : Z := Z.of_N (N_of_ascii c) - 48.

Definition digits_value (l : list ascii) : Z :=
  fold_left (λ acc c, 10 * acc + digit_value c) l 0.

(** [parseFloat] on an unsigned decimal literal, digits with an optional
    fraction, which is what the pattern of [extractHoldingInfo] captures:
    the rational it denotes (JavaScript rounds it to the nearest double). *)
Definition parseFloat (l : list ascii) : num :=
  let n := span Str.is_digit l in
  let int_part := take n l in
  match int_part, drop n l with
  | [], _ => NaN
  | _, dot :: l' =>
      if Ascii.eqb dot "." then
        let frac := take (span Str.is_digit l') l' in
        Fin (Qred (Qmake (digits_value (int_part ++ frac))
                         (Z.to_pos (10 ^ Z.of_nat (length frac)))))
      else Fin (inject_Z (digits_value int_part))
  | _, [] => Fin (inject_Z (digits_value int_part))
  end.

(** [/(\d+(?:\.\d+)?)\s+(.+)/i] *)
Definition HOLDING_INFO : re :=
  seqs [Group 1 number; spaces1; Group 2 any1].

(** [extractHoldingInfo(text)]; [None] is [null]. *)
Definition extractHoldingInfo (text : list ascii) : option (num * list ascii) :=
  match exec HOLDING_INFO text with
  | Some m => Some (parseFloat (group 1 m), extractCoinName (group 2 m))
  | None => None
  end.

(** The intents. *)
Inductive Intent :=
| PRICE_QUERY_ (coinName originalCoinName : string)
| ADD_HOLDING_ (amount : num) (coinName originalCoinName : string)
| PORTFOLIO_VALUE_
| TRENDING_
| CHART_REQUEST_ (coinName originalCoinName : string)
| INFO_REQUEST_ (coinName originalCoinName : string)
| HELP_
| GENERAL_ (message : string).

Definition str (l : list ascii) : string := string_of_list_ascii l.

(** The rules of [parseMessage] from [ADD_HOLDING] on. *)
Definition parse_tail (trimmed : list ascii) : Intent :=
  match
    match exec ADD_HOLDING trimmed with
    | Some _ =>
        match extractHoldingInfo trimmed with
        | Some (amount, coinName) =>
            Some (ADD_HOLDING_ amount (normalizeCoinName (str coinName))
                               (str coinName))
        | None => None
        end
    | None => None
    end
  with
  | Some intent => intent
  | None =>
      if test PORTFOLIO_VALUE trimmed then PORTFOLIO_VALUE_
      else if test TRENDING trimmed then TRENDING_
      else
        match exec CHART_REQUEST trimmed with
        | Some m =>
            let coinName := extractCoinName (group 1 m) in
            CHART_REQUEST_ (normalizeCoinName (str coinName)) (str coinName)
        | None =>
            match exec INFO_REQUEST trimmed with
            | Some m =>
                let coinName := extractCoinName (group 1 m) in
                INFO_REQUEST_ (normalizeCoinName (str coinName)) (str coinName)
            | None =>
                if test HELP trimmed then HELP_
                else GENERAL_ (str trimmed)
            end
        end
  end.

(** [parseMessage(message)] *)
Definition parseMessage (message : string) : Intent :=
  let trimmed := Str.trim (chars message) in
  match exec PRICE_TRADING trimmed with
  | Some m =>
      let coinName := extractCoinName (group 1 m) in
      PRICE_QUERY_ (normalizeCoinName (str coinName)) (str coinName)
  | None =>
      match exec PRICE_QUERY trimmed with
      | Some m =>
          let coinName := extractCoinName (group 1 m) in
          PRICE_QUERY_ (normalizeCoinName (str coinName)) (str coinName)
      | None =>
          match exec PRICE_SIMPLE trimmed with
          | Some m =>
              let coinName := extractCoinName (group 1 m) in
              PRICE_QUERY_ (normalizeCoinName (str coinName)) (str coinName)
          | None => parse_tail trimmed
          end
      end
  end.

End Parser.

(** ** The response generator: [generateResponse] *)

Module Generator.
Import Parser.

(** The reply of [generateResponse]; an absent [data] is [VUndefined]. *)
Record Reply := mkReply {
  text : string;
  data : value;
  showChart : bool;
  error : bool;
}.

Definition nl : string := String (ascii_of_N 10) "".
Definition quoted (s : string) : string :=
  ApiManager.dquote +:+ s +:+ ApiManager.dquote.

Definition nullish_name (v : value) : option string :=
  match v with
  | VUndefined => Some "undefined"
  | VNull => Some "null"
  | _ => None
  end.

(** The [TypeError] of a property read on [undefined] or [null]. *)
Definition cannot_read (what k : string) : Error :=
  mkError ("Cannot read properties of " +:+ what +:+ " (reading '" +:+ k +:+ "')").

Definition not_a_function (k : string) : Error :=
  mkError (k +:+ " is not a function").

(** [v.k] for JSON-like data: a [TypeError] on [undefined] and [null]; the
    [length] and the elements of an array; the own property of an object;
    [undefined] otherwise. *)
Definition get (v : value) (k : string) : result value :=
  match v with
  | VUndefined => Throw (cannot_read "undefined" k)
  | VNull => Throw (cannot_read "null" k)
  | VArr items =>
      if String.eqb k "length"
      then Ok (VNum (Fin (inject_Z (Z.of_nat (length items)))))
      else Ok VUndefined
  | VStr s =>
      if String.eqb k "length"
      then Ok (VNum (Fin (inject_Z (Z.of_nat (String.length s)))))
      else Ok VUndefined
  | VObj props => Ok (default VUndefined (own props k))
  | VBool _ | VNum _ => Ok VUndefined
  end.

(** [v[0]] *)
Definition first_element (v : value) : result value :=
  match v with
  | VUndefined => Throw (cannot_read "undefined" "0")
  | VNull => Throw (cannot_read "null" "0")
  | VArr items => Ok (default VUndefined (head items))
  | VStr s =>
      match s with
      | EmptyString => Ok VUndefined
      | String c _ => Ok (VStr (String c ""))
      end
  | VObj props => Ok (default VUndefined (own props "0"))
  | VBool _ | VNum _ => Ok VUndefined
  end.

(** What a [catch] receives: the operations of the client and of the hook
    are code of others, and a [throw] or a rejected promise carries any
    value, an [Error] object or another one. *)
Inductive thrown :=
| AnError (e : Error)
| AValue (v : value).

(** The outcome of a computation of the generator. *)
Inductive outcome (A : Type) :=
| Returns (a : A)
| Throws (t : thrown).
Arguments Returns {A} a.
Arguments Throws {A} t.

Section Generate.

(** The state of everything outside the generator: the network, the
    limiter and the cache of the client, the portfolio. *)
Variable W : Type.

(** Conversions and formats of the platform. *)
Variable stringToNumber : string → num.    (* ToNumber of a string *)
Variable objectToNumber : value → num.     (* ToNumber of an array or object *)
Variable toString : value → string.        (* ToString, in a template *)
Variable localeString : value → string.    (* x.toLocaleString() *)
Variable toFixed2 : num → string.          (* x.toFixed(2) *)
Variable showNumber : num → string.        (* a number in a template *)

(** [ToNumber] *)
Definition toNumber (v : value) : num :=
  match v with
  | VUndefined => NaN
  | VNull => Num.of_Z 0
  | VBool b => if b then Num.of_Z 1 else Num.of_Z 0
  | VNum n => n
  | VStr s => stringToNumber s
  | VArr _ | VObj _ => objectToNumber v
  end.

(** A computation: it reads and changes the outer state, and returns or
    throws. *)
Definition M (A : Type) : Type := W → outcome A * W.

#[local] Instance M_ret : MRet M := λ A a w, (Returns a, w).

#[local] Instance M_bind : MBind M := λ A B f m w,
  match m w with
  | (Returns a, w') => f a w'
  | (Throws t, w') => (Throws t, w')
  end.

(** [throw e] for an [Error] object [e]. *)
Definition throw {A} (e : Error) : M A := λ w, (Throws (AnError e), w).

(** A step that does not touch the outer state; what it throws is a
    [TypeError]. *)
Definition pure {A} (r : result A) : M A := λ w,
  (match r with
   | Ok a => Returns a
   | Throw e => Throws (AnError e)
   end, w).

(** [try { m } catch (error) { h error }] *)
Definition try_catch {A} (m : M A) (h : thrown → M A) : M A := λ w,
  match m w with
  | (Returns a, w') => (Returns a, w')
  | (Throws t, w') => h t w'
  end.

(** The data client handed to the generator. *)
Record Client := mkClient {
  getCurrentPrice : string → M value;
  getCoinDetails : string → M value;
  getHistoricalData : value → Z → M value;
  getTrendingCoins : M value;
  searchCoins : string → M value;
}.

(** The portfolio hook handed to the generator. *)
Record Hook := mkHook {
  addHolding : string → value → value → num → M unit;
  getPortfolioSummary : M value;
}.

Variable cryptoAPI : Client.
Variable portfolioHook : Hook.

(** [x.toLocaleString()]: a [TypeError] on [undefined] and [null], and on
    an object whose own [toLocaleString] is data. *)
Definition toLocaleString (v : value) : result string :=
  match v with
  | VUndefined => Throw (cannot_read "undefined" "toLocaleString")
  | VNull => Throw (cannot_read "null" "toLocaleString")
  | VObj props =>
      match own props "toLocaleString" with
      | Some _ => Throw (not_a_function "toLocaleString")
      | None => Ok (localeString v)
      end
  | _ => Ok (localeString v)
  end.

(** [Math.abs(x).toFixed(2)] *)
Definition abs_fixed (v : value) : string :=
  toFixed2 (match toNumber v with
            | Fin q => Fin (Qabs q)
            | NaN => NaN
            end).

(** [x > 0 ? 'up' : 'down'] *)
Definition direction (v : value) : string :=
  if Num.gt (toNumber v) (Num.of_Z 0) then "up" else "down".

(** [x === 0] *)
Definition is_zero (v : value) : bool :=
  match v with
  | VNum (Fin q) => Qeq_bool q 0
  | _ => false
  end.

(** [trending.slice(0, 5)], to be mapped: only an array has both [slice]
    and [map]. *)
Definition slice5 (v : value) : result (list value) :=
  match v with
  | VArr items => Ok (take 5 items)
  | VUndefined => Throw (cannot_read "undefined" "slice")
  | VNull => Throw (cannot_read "null" "slice")
  | VStr _ => Throw (not_a_function "trending.slice(...).map")
  | _ => Throw (not_a_function "trending.slice")
  end.

(** The callback of the [map] over the trending coins, from [index] on. *)
Fixpoint trending_lines (index : Z) (coins : list value) : result (list string) :=
  match coins with
  | [] => Ok []
  | coin :: rest =>
      match get coin "name" with
      | Throw e => Throw e
      | Ok name =>
          match get coin "symbol" with
          | Throw e => Throw e
          | Ok symbol =>
              match trending_lines (index + 1) rest with
              | Throw e => Throw e
              | Ok lines =>
                  Ok ((showNumber (Num.of_Z (index + 1)) +:+ ". " +:+
                       toString name +:+ " (" +:+ toString symbol +:+ ")")
                      :: lines)
              end
          end
      end
  end.

Definition chart_reply (chartData name : value) : Reply :=
  {| text := "Here's the 7-day price chart for " +:+ toString name +:+ ":";
     data := VObj [("chartData", chartData); ("coinName", name)];
     showChart := true; error := false |}.

Definition chart_not_found (originalCoinName : string) : Error :=
  mkError ("Could not find chart data for " +:+ quoted originalCoinName +:+
           ". Try using the full name or symbol.").

(** The inner [try] of the chart request: the search for the name as typed.
    [None] stands for leaving the block without a [return]. *)
Definition chart_by_search (originalCoinName : string) : M (option Reply) :=
  searchResults ← searchCoins cryptoAPI originalCoinName;
  len ← pure (get searchResults "length");
  if Num.gt (toNumber len) (Num.of_Z 0) then
    firstResult ← pure (first_element searchResults);
    id ← pure (get firstResult "id");
    chartData ← getHistoricalData cryptoAPI id 7;
    name ← pure (get firstResult "name");
    mret (Some (chart_reply chartData name))
  else mret None.

Definition help_text : string :=
  "I can help you with cryptocurrency information! Try asking me:" +:+ nl +:+
  "          " +:+ nl +:+
  "• " +:+ quoted "What's Bitcoin trading at?" +:+ " - Get current prices" +:+ nl +:+
  "• " +:+ quoted "I have 2 ETH" +:+ " - Add to your portfolio  " +:+ nl +:+
  "• " +:+ quoted "What's my portfolio worth?" +:+ " - Check portfolio value" +:+ nl +:+
  "• " +:+ quoted "Show me trending coins" +:+ " - See what's hot" +:+ nl +:+
  "• " +:+ quoted "Show chart for Bitcoin" +:+ " - View price charts" +:+ nl +:+
  "• " +:+ quoted "Tell me about Ethereum" +:+ " - Get coin information" +:+ nl +:+
  nl +:+
  "Just speak naturally - I'll understand!".

Definition plain (t : string) : Reply :=
  {| text := t; data := VUndefined; showChart := false; error := false |}.

(** The [switch] inside the outer [try]. *)
Definition respond (intent : Intent) : M Reply :=
  match intent with
  | PRICE_QUERY_ coinName originalCoinName =>
      priceData ← getCurrentPrice cryptoAPI coinName;
      change ← pure (get priceData "change24h");
      let changeText := direction change in
      let changeColor :=
        if Num.gt (toNumber change) (Num.of_Z 0) then "positive" else "negative" in
      price ← pure (get priceData "price");
      priceText ← pure (toLocaleString price);
      mret {| text :=
                Str.toUpperCase originalCoinName +:+
                " is currently trading at $" +:+ priceText +:+
                " (" +:+ changeText +:+ " " +:+ abs_fixed change +:+ "% in 24h)";
              data := VObj [("priceData", priceData);
                            ("changeColor", VStr changeColor)];
              showChart := false; error := false |}
  | ADD_HOLDING_ amount coinName _ =>
      coinDetails ← getCoinDetails cryptoAPI coinName;
      name ← pure (get coinDetails "name");
      symbol ← pure (get coinDetails "symbol");
      _ ← addHolding portfolioHook coinName name symbol amount;
      currentPrice ← pure (get coinDetails "currentPrice");
      mret {| text :=
                "Added " +:+ showNumber amount +:+ " " +:+ toString symbol +:+
                " to your portfolio! Current value: $" +:+
                localeString (VNum (Num.mul amount (toNumber currentPrice)));
              data := VObj [("coinDetails", coinDetails);
                            ("amount", VNum amount)];
              showChart := false; error := false |}
  | PORTFOLIO_VALUE_ =>
      summary ← getPortfolioSummary portfolioHook;
      totalCoins ← pure (get summary "totalCoins");
      if is_zero totalCoins then
        mret (plain "Your portfolio is empty. Try adding some holdings by saying something like 'I have 2 ETH'")
      else
        change ← pure (get summary "change24h");
        totalValue ← pure (get summary "totalValue");
        valueText ← pure (toLocaleString totalValue);
        mret {| text :=
                  "Your portfolio is worth $" +:+ valueText +:+ " across " +:+
                  toString totalCoins +:+ " different cryptocurrencies (" +:+
                  direction change +:+ " " +:+ abs_fixed change +:+ "% today)";
                data := VObj [("summary", summary)];
                showChart := false; error := false |}
  | TRENDING_ =>
      trending ← getTrendingCoins cryptoAPI;
      top ← pure (slice5 trending);
      lines ← pure (trending_lines 0 top);
      mret {| text :=
                "Here are today's top trending cryptocurrencies:" +:+ nl +:+ nl +:+
                ApiManager.join nl lines;
              data := VObj [("trending", trending)];
              showChart := false; error := false |}
  | CHART_REQUEST_ coinName originalCoinName =>
      try_catch
        (coinDetails ← getCoinDetails cryptoAPI coinName;
         chartData ← getHistoricalData cryptoAPI (VStr coinName) 7;
         name ← pure (get coinDetails "name");
         mret (chart_reply chartData name))
        (λ _,
           found ← try_catch (chart_by_search originalCoinName) (λ _, mret None);
           match found with
           | Some reply => mret reply
           | None => throw (chart_not_found originalCoinName)
           end)
  | INFO_REQUEST_ coinName _ =>
      info ← getCoinDetails cryptoAPI coinName;
      name ← pure (get info "name");
      symbol ← pure (get info "symbol");
      rank ← pure (get info "rank");
      marketCap ← pure (get info "marketCap");
      capText ← pure (match nullish_name marketCap with
                      | Some _ => Ok "N/A"
                      | None =>
                          match toLocaleString marketCap with
                          | Ok t => Ok (if String.eqb t "" then "N/A" else t)
                          | Throw e => Throw e
                          end
                      end);
      description ← pure (get info "description");
      mret {| text :=
                toString name +:+ " (" +:+ toString symbol +:+
                ") is currently ranked #" +:+ toString rank +:+
                " with a market cap of $" +:+ capText +:+ ". " +:+
                toString description;
              data := VObj [("info", info)];
              showChart := false; error := false |}
  | HELP_ => mret (plain help_text)
  | GENERAL_ _ =>
      mret (plain "I'm not sure how to help with that. Try asking about cryptocurrency prices, your portfolio, or trending coins. Say 'help' to see what I can do!")
  end.

(** The reply of the outer [catch], for the message [m]. *)
Definition apology (m : string) : Reply :=
  {| text := "Sorry, I encountered an error: " +:+ m +:+ ". Please try again.";
     data := VUndefined; showChart := false; error := true |}.

(** The reply of the outer [catch] to an [Error] object. *)
Definition error_reply (e : Error) : Reply := apology (message e).

(** [error.message] in the template of the outer [catch]: the message of an
    [Error] object; for another value the property read, which is a
    [TypeError] on [undefined] and [null]. *)
Definition message_text (t : thrown) : result string :=
  match t with
  | AnError e => Ok (message e)
  | AValue v =>
      match get v "message" with
      | Ok m => Ok (toString m)
      | Throw e => Throw e
      end
  end.

(** The body of the outer [catch]. *)
Definition caught (t : thrown) : result Reply :=
  match message_text t with
  | Ok m => Ok (apology m)
  | Throw e => Throw e
  end.

(** [generateResponse(intent, cryptoAPI, portfolioHook)] *)
Definition generateResponse (intent : Intent) : M Reply :=
  try_catch (respond intent) (λ t, pure (caught t)).

End Generate.

End Generator.

(** ** The cache administration of [class ApiManager] *)

Module CacheAdmin.
Import ApiManager.

(** [clearCache()] *)
Definition clearCache (am : t) : t :=
  {| cache := ∅; rateLimiter := rateLimiter am |}.

(** [getCacheSize()] *)
Definition getCacheSize (am : t) : nat := size (cache am).

(** What [getCacheStats] returns. *)
Record CacheStats := mkStats {
  total : nat;
  valid : nat;
  expired : nat;
}.

(** One round of the loop of [getCacheStats]: the pair
    ([validEntries], [expiredEntries]) after the entry [value]. *)
Definition count_entry (now : Z) (key : string) (value : CacheEntry)
    (acc : nat * nat) : nat * nat :=
  if now - timestamp value <? cacheTimeout
  then (S (fst acc), snd acc)
  else (fst acc, S (snd acc)).

(** [getCacheStats()] at [Date.now() = now] *)
Definition getCacheStats (now : Z) (am : t) : CacheStats :=
  let '(validEntries, expiredEntries) :=
    map_fold (count_entry now) (0%nat, 0%nat) (cache am) in
  {| total := size (cache am); valid := validEntries; expired := expiredEntries |}.

(** [cleanupCache()] at [Date.now() = now]: every entry with
    [now - value.timestamp >= this.cacheTimeout] is deleted. *)
Definition cleanupCache (now : Z) (am : t) : t :=
  {| cache := filter (λ kv : string * CacheEntry,
                        ¬ cacheTimeout ≤ now - timestamp kv.2) (cache am);
     rateLimiter := rateLimiter am |}.

End CacheAdmin.

(** ** The direct client: [searchCoins] and [getCoinDetails] *)

Module Endpoints.
Import CryptoAPI.

(** Sequencing of steps that may throw. *)
Definition and_then {A B} (r : result A) (f : A → result B) : result B :=
  match r with
  | Ok a => f a
  | Throw e => Throw e
  end.

#[export] Instance result_bind : MBind result := λ A B f r, and_then r f.

Definition nullish (v : value) : bool :=
  match v with
  | VUndefined | VNull => true
  | _ => false
  end.

(** [v.k] on a value that is neither [undefined] nor [null]. *)
Definition prop (v : value) (k : string) : value :=
  match Generator.get v k with
  | Ok x => x
  | Throw _ => VUndefined
  end.

(** [v?.k]: [undefined] when [v] is [undefined] or [null]. *)
Definition opt_prop (v : value) (k : string) : value :=
  if nullish v then VUndefined else prop v k.

(** [what.toUpperCase()]: only a string has the method. *)
Definition call_toUpperCase (what : string) (v : value) : result value :=
  match v with
  | VStr s => Ok (VStr (Str.toUpperCase s))
  | VUndefined => Throw (Generator.cannot_read "undefined" "toUpperCase")
  | VNull => Throw (Generator.cannot_read "null" "toUpperCase")
  | _ => Throw (Generator.not_a_function (what +:+ ".toUpperCase"))
  end.

(** [s.split('.')[0]]: the text before the first full stop. *)
Fixpoint before_dot (s : string) : string :=
  match s with
  | EmptyString => EmptyString
  | String c rest => if Ascii.eqb c "." then EmptyString else String c (before_dot rest)
  end.

(** [coin.description?.en?.split('.')[0]]; [None] is [undefined]. *)
Definition first_sentence (coin : value) : result (option string) :=
  match opt_prop (prop coin "description") "en" with
  | VUndefined | VNull => Ok None
  | VStr en => Ok (Some (before_dot en))
  | _ => Throw (Generator.not_a_function "coin.description?.en?.split")
  end.

(** [x + '.' || 'No description available.']: the sum is made first. *)
Definition describe (x : option string) : string :=
  let sum := match x with
             | Some s => s +:+ "."
             | None => "undefined" +:+ "."
             end in
  if String.eqb sum "" then "No description available." else sum.

(** The object that [getCoinDetails] builds from [response.data]; its
    properties are evaluated in the order of the source. *)
Definition coin_details (coin : value) : result value :=
  id ← Generator.get coin "id";
  name ← Generator.get coin "name";
  symbol ← call_toUpperCase "coin.symbol" (prop coin "symbol");
  sentence ← first_sentence coin;
  Ok (VObj [ ("id", id);
             ("name", name);
             ("symbol", symbol);
             ("description", VStr (describe sentence));
             ("currentPrice",
                opt_prop (opt_prop (prop coin "market_data") "current_price") "usd");
             ("marketCap",
                opt_prop (opt_prop (prop coin "market_data") "market_cap") "usd");
             ("change24h",
                opt_prop (prop coin "market_data") "price_change_percentage_24h");
             ("volume24h",
                opt_prop (opt_prop (prop coin "market_data") "total_volume") "usd");
             ("rank", prop coin "market_cap_rank");
             ("image", opt_prop (prop coin "image") "large") ]).

(** [cryptoAPI.getCoinDetails(coinId)]; the [catch] logs and rethrows. *)
Definition getCoinDetails (coinId : string) (now now' : Z)
    (answer : transport value) (c : Client) : result value * Client :=
  match api_get ("/coins/" +:+ coinId) now now' answer c with
  | (Ok coin, c') => (coin_details coin, c')
  | (Throw e, c') => (Throw e, c')
  end.

(** [coins.slice(0, 10)], to be mapped: only an array has both [slice]
    and [map]. *)
Definition slice10 (v : value) : result (list value) :=
  match v with
  | VArr items => Ok (take 10 items)
  | VUndefined => Throw (Generator.cannot_read "undefined" "slice")
  | VNull => Throw (Generator.cannot_read "null" "slice")
  | VStr _ => Throw (Generator.not_a_function "response.data.coins.slice(...).map")
  | _ => Throw (Generator.not_a_function "response.data.coins.slice")
  end.

(** The callback of the [map] of [searchCoins]. *)
Definition search_result (coin : value) : result value :=
  id ← Generator.get coin "id";
  name ← Generator.get coin "name";
  symbol ← call_toUpperCase "coin.symbol" (prop coin "symbol");
  Ok (VObj [ ("id", id);
             ("name", name);
             ("symbol", symbol);
             ("rank", prop coin "market_cap_rank");
             ("thumb", prop coin "thumb") ]).

(** [Array.prototype.map] with a callback that may throw. *)
Fixpoint map_result {A B} (f : A → result B) (l : list A) : result (list B) :=
  match l with
  | [] => Ok []
  | a :: rest =>
      b ← f a;
      bs ← map_result f rest;
      Ok (b :: bs)
  end.

(** What [searchCoins] makes of [response.data]. *)
Definition search_results (data : value) : result value :=
  coins ← Generator.get data "coins";
  top ← slice10 coins;
  results ← map_result search_result top;
  Ok (VArr results).

(** [cryptoAPI.searchCoins(query)]; the [catch] logs and rethrows. *)
Definition searchCoins (query : string) (now now' : Z)
    (answer : transport value) (c : Client) : result value * Client :=
  match api_get "/search" now now' answer c with
  | (Ok data, c') => (search_results data, c')
  | (Throw e, c') => (Throw e, c')
  end.

End Endpoints.

(** ** The other operations of [usePortfolio] *)

Module Ledger.
Import Portfolio.

(** [n <= 0]: false for [NaN]. *)
Definition le_zero (n : num) : bool :=
  match n with
  | Fin q => Qle_bool q 0
  | NaN => false
  end.

(** [updateHolding(holdingId, newAmount)] at time [now] *)
Definition updateHolding (holdingId : string) (newAmount : num) (now : Z)
    (st : State) : State :=
  if le_zero newAmount then removeHolding holdingId st
  else
    {| holdings :=
         map (λ h,
                if decide (id h = holdingId)
                then {| id := id h; coinId := coinId h; coinName := coinName h;
                        coinSymbol := coinSymbol h; amount := newAmount;
                        currentPrice := currentPrice h;
                        currentValue := currentValue h;
                        change24h := change24h h;
                        addedAt := addedAt h; lastUpdated := now |}
                else h)
             (holdings st);
       portfolioValue := portfolioValue st;
       loading := loading st; error := error st |}.

(** [clearPortfolio()] *)
Definition clearPortfolio (st : State) : State :=
  {| holdings := []; portfolioValue := Num.of_Z 0;
     loading := loading st; error := error st |}.

(** [getHolding(coinId)]; [None] is [undefined]. *)
Definition getHolding (cid : string) (st : State) : option Holding :=
  snd <$> list_find (λ h, coinId h = cid) (holdings st).

(** What the user of the hook can do to the ledger. *)
Inductive Action :=
| Add (cid name symbol : string) (amt : num) (now : Z)
| Remove (holdingId : string)
| Update (holdingId : string) (newAmount : num) (now : Z)
| Clear
| Refresh (now : Z) (answer : result (gmap string PriceData)).

Definition step (st : State) (a : Action) : State :=
  match a with
  | Add cid name symbol amt now => addHolding cid name symbol amt now st
  | Remove holdingId => removeHolding holdingId st
  | Update holdingId newAmount now => updateHolding holdingId newAmount now st
  | Clear => clearPortfolio st
  | Refresh now answer => calculatePortfolioValue now answer st
  end.

Definition replay (actions : list Action) (st : State) : State :=
  fold_left step actions st.

End Ledger.

(** ** The two portfolio totals outside the hook

    [calculatePortfolioValue] of [utils/helpers.js] and
    [ApiManager.getPortfolioValue], on the holdings and the price data of
    the hook. *)

Module Valuation.
Import Portfolio.

(** [x || 0] for a numeric property that may be [undefined]. *)
Definition or_zero (o : option num) : num :=
  if Num.truthy o then Num.of_option o else Num.of_Z 0.

(** [prices[holding.coinId]?.usd || 0] *)
Definition price_of (prices : gmap string PriceData) (holding : Holding) : num :=
  or_zero (prices !! coinId holding ≫= usd).

(** [prices[holding.coinId]?.usd_24h_change || 0] *)
Definition change_of (prices : gmap string PriceData) (holding : Holding) : num :=
  or_zero (prices !! coinId holding ≫= usd_24h_change).

(** [calculatePortfolioValue(holdings, prices)] of [utils/helpers.js];
    [None] is a missing argument. *)
Definition calculatePortfolioValue (holdings : option (list Holding))
    (prices : option (gmap string PriceData)) : num :=
  match holdings, prices with
  | Some hs, Some ps =>
      fold_left (λ total holding,
                   Num.add total (Num.mul (amount holding) (price_of ps holding)))
                hs (Num.of_Z 0)
  | _, _ => Num.of_Z 0
  end.

(** An entry of [portfolioData]: the holding with the four properties that
    [getPortfolioValue] sets. *)
Record Item := mkItem {
  item_holding : Holding;
  item_currentPrice : num;
  value : num;
  item_change24h : num;
  changeValue : num;
}.

(** What [getPortfolioValue] returns; the two change totals are absent
    from the answer for an empty portfolio. *)
Record PortfolioValue := mkPortfolioValue {
  totalValue : num;
  totalChange : option num;
  totalChangePercent : option num;
  items : list Item;
}.

Definition sub (a b : num) : num :=
  match a, b with
  | Fin x, Fin y => Fin (x - y)
  | _, _ => NaN
  end.

(** The callback of [holdings.map]. *)
Definition item_of (prices : gmap string PriceData) (holding : Holding) : Item :=
  let price := price_of prices holding in
  let value := Num.mul (amount holding) price in
  let change24h := change_of prices holding in
  {| item_holding := holding;
     item_currentPrice := price;
     value := value;
     item_change24h := change24h;
     changeValue := Num.div (Num.mul value change24h) (Num.of_Z 100) |}.

(** [getPortfolioValue(holdings)], when [getCryptoPrices] ends with
    [answer]; no request is made for an absent or empty list. *)
Definition getPortfolioValue (holdings : option (list Holding))
    (answer : result (gmap string PriceData)) : result PortfolioValue :=
  match holdings with
  | None | Some [] =>
      Ok {| totalValue := Num.of_Z 0; totalChange := None;
            totalChangePercent := None; items := [] |}
  | Some hs =>
      match answer with
      | Throw e => Throw e
      | Ok prices =>
          let portfolioData := map (item_of prices) hs in
          let totalValue :=
            fold_left (λ sum item, Num.add sum (value item)) portfolioData (Num.of_Z 0) in
          let totalChange :=
            fold_left (λ sum item, Num.add sum (changeValue item)) portfolioData
                      (Num.of_Z 0) in
          let totalChangePercent :=
            if Num.gt totalValue (Num.of_Z 0)
            then Num.mul (Num.div totalChange (sub totalValue totalChange)) (Num.of_Z 100)
            else Num.of_Z 0 in
          Ok {| totalValue := totalValue;
                totalChange := Some totalChange;
                totalChangePercent := Some totalChangePercent;
                items := portfolioData |}
      end
  end.

End Valuation.

(** ** Helpers of [utils/helpers.js] *)

Module Helpers.

(** The [intervals] of [getTimeAgo], in the order of [Object.entries]. *)
Definition intervals : list (string * Z) :=
  [ ("year", 31536000); ("month", 2592000); ("week", 604800);
    ("day", 86400); ("hour", 3600); ("minute", 60) ].

(** The loop of [getTimeAgo]: the first unit of which at least one fits
    into [diffInSeconds], with how many fit. *)
Fixpoint first_fit (diffInSeconds : Z) (units : list (string * Z))
  : option (Z * string) :=
  match units with
  | [] => None
  | (unit, seconds) :: rest =>
      let interval := diffInSeconds / seconds in
      if 1 <=? interval then Some (interval, unit)
      else first_fit diffInSeconds rest
  end.


(** The palette of [generateChartColors]. *)
Definition colors : list string :=
  [ "#3b82f6"; "#ef4444"; "#10b981"; "#f59e0b";
    "#8b5cf6"; "#06b6d4"; "#84cc16"; "#f97316";
    "#ec4899"; "#6366f1" ].

(** The loop of [generateChartColors], [rounds] rounds from the index [i]
    on. *)
Fixpoint push_colors (rounds : nat) (i : nat) (result : list string)
  : list string :=
  match rounds with
  | O => result
  | S rounds' =>
      push_colors rounds' (S i)
        (result ++ [default "" (colors !! (i mod length colors)%nat)])
  end.

(** [generateChartColors(count)] for an integer [count]: the loop runs
    while [i < count]. *)
Definition generateChartColors (count : Z) : list string :=
  push_colors (Z.to_nat count) 0 [].

End Helpers.

(** ** The input area: [handleSubmit] *)

Module InputArea.

(** [handleSubmit(e)] of [InputArea], for the text [message] of the input
    and the flag [isProcessing]: what is handed to [onSendMessage], if
    anything. *)
Definition handleSubmit (message : string) (isProcessing : bool) : option string :=
  let trimmed := Parser.str (Str.trim (Regex.chars message)) in
  if negb (String.eqb trimmed "") && negb isProcessing
  then Some trimmed
  else None.

End InputArea.

(** ** [slugify] of [utils/helpers.js] *)

Module Slug.
Import Regex.

(** [text.replace(r, by)] for a pattern without the [g] flag: the leftmost
    match is replaced. *)
Fixpoint replace_first_from (r : re) (by_ : list ascii) (p : option ascii)
    (l : list ascii) : list ascii :=
  match match_at r {| prev := p; rest := l |} with
  | Some (s', _) => by_ ++ rest s'
  | None =>
      match l with
      | [] => []
      | ch :: t => ch :: replace_first_from r by_ (Some ch) t
      end
  end.

Definition replace_first (r : re) (by_ : list ascii) (text : list ascii)
  : list ascii :=
  replace_first_from r by_ None text.

Definition is_hyphen (c : ascii) : bool := Ascii.eqb c "-".

(** [[^\w\-]+] *)
Definition OTHER : re :=
  Rep true 1 (λ c, negb (Str.is_word c || is_hyphen c)).

(** [\-\-+] *)
Definition HYPHENS : re := Seq (Cls is_hyphen) (Rep true 1 is_hyphen).

(** [^-+] *)
Definition LEADING : re := Seq Bol (Rep true 1 is_hyphen).

(** [-+$] *)
Definition TRAILING : re := Seq (Rep true 1 is_hyphen) Eol.

(** [slugify(text)] for a string [text] *)
Definition slugify (text : list ascii) : list ascii :=
  let s0 := map Str.lower text in
  let s1 := replace_all spaces1 ["-"%char] s0 in
  let s2 := replace_all OTHER [] s1 in
  let s3 := replace_all HYPHENS ["-"%char] s2 in
  let s4 := replace_first LEADING [] s3 in
  replace_first TRAILING [] s4.

End Slug.

(** * Properties *)

Module ParserExamples.
Import Parser.

Example parse_bitcoin_trading :
  parseMessage "What's Bitcoin trading at?" = PRICE_QUERY_ "bitcoin" "bitcoin".
Proof. vm_compute. reflexivity. Qed.

Example parse_i_have :
  parseMessage "I have 2 BTC" = ADD_HOLDING_ (Fin 2) "bitcoin" "btc".
Proof. vm_compute. reflexivity. Qed.

Example parse_i_have_frac :
  parseMessage "I have 2.50 eth coins" = ADD_HOLDING_ (Fin (5 # 2)) "eth coins" "eth coins".
Proof. vm_compute. reflexivity. Qed.

Example parse_tell :
  parseMessage "Tell me about Ethereum" = INFO_REQUEST_ "ethereum" "ethereum".
Proof. vm_compute. reflexivity. Qed.

Example parse_what_is :
  parseMessage "what is solana" = PRICE_QUERY_ "solana" "solana".
Proof. vm_compute. reflexivity. Qed.

Example parse_portfolio :
  parseMessage "Show my portfolio" = PORTFOLIO_VALUE_.
Proof. vm_compute. reflexivity. Qed.

Example parse_chart :
  parseMessage "Show chart for Bitcoin" = CHART_REQUEST_ "bitcoin" "bitcoin".
Proof. vm_compute. reflexivity. Qed.

Example parse_help : parseMessage " help " = HELP_.
Proof. vm_compute. reflexivity. Qed.

Example parse_trending : parseMessage "Show me trending coins" = TRENDING_.
Proof. vm_compute. reflexivity. Qed.

End ParserExamples.

(** ** The response cache *)

Module CacheFacts.
Import ApiManager.

Lemma timeout_ms : cacheTimeout = 300000.
Proof. reflexivity. Qed.

(** C5. A [getFromCache] at time [t1] that follows a [setCache] of [key]
    with [v] at time [t0] returns [v] itself and leaves the manager as it
    is while [t1 - t0] is below the five minutes of the time to live; from
    five minutes on it returns [null], and the entry is gone from the
    cache. *)
Theorem cache_get_after_put (am : t) (key : string) (v : value) (t0 t1 : Z) :
  getFromCache key t1 (setCache key v t0 am) =
  if t1 - t0 <? 300000
  then (v, setCache key v t0 am)
  else (VNull, {| cache := delete key (cache am); rateLimiter := rateLimiter am |}).
Proof.
  unfold getFromCache, setCache; simpl.
  rewrite lookup_insert_eq; simpl.
  rewrite timeout_ms.
  destruct (t1 - t0 <? 300000); [reflexivity|].
  by rewrite delete_insert_eq.
Qed.

(** After the eviction the key is absent and the other keys are as they
    were before the [setCache]. *)
Lemma cache_expired_absent (am : t) (key : string) (v : value) (t0 t1 : Z) :
  300000 ≤ t1 - t0 →
  let am' := snd (getFromCache key t1 (setCache key v t0 am)) in
  cache am' !! key = None ∧ ∀ k, k ≠ key → cache am' !! k = cache am !! k.
Proof.
  intros Hlate. unfold getFromCache, setCache. simpl.
  rewrite lookup_insert_eq. simpl. rewrite timeout_ms.
  destruct (Z.ltb_spec (t1 - t0) 300000); [lia|]. simpl. split.
  - apply lookup_delete_eq.
  - intros k Hk. by rewrite lookup_delete_ne, lookup_insert_ne.
Qed.

End CacheFacts.

(** ** The search of the orchestration layer *)

Module SearchFacts.
Import ApiManager.

(** C10. For a query that is absent, empty or shorter than two characters,
    [searchCoins] returns [{ coins: [] }] and leaves the manager (cache and
    rate limiter) and the list of dispatched requests untouched. *)
Theorem searchCoins_short_query
    (createApiUrl : string → string → params → string)
    (net : list string → string → transport)
    (query : option string) (ck : Clock) (w : World) :
  (query = None ∨ ∃ q, query = Some q ∧ (String.length q < 2)%nat) →
  searchCoins createApiUrl net query ck w = (Ok (VObj [("coins", VArr [])]), w).
Proof.
  intros [-> | (q & -> & Hlen)]; [reflexivity|].
  unfold searchCoins.
  destruct (Nat.ltb_spec (String.length q) 2); [|lia].
  by rewrite orb_true_r.
Qed.

Lemma searchCoins_short_query_witness :
  searchCoins (λ _ _ _, "") (λ _ _, NoResponse) (Some "b") (mkClock 0 0 0)
              (mkWorld new []) =
  (Ok (VObj [("coins", VArr [])]), mkWorld new []).
Proof.
  apply (searchCoins_short_query (λ _ _ _, "") (λ _ _, NoResponse) (Some "b")).
  right. exists "b". split; [reflexivity | simpl; lia].
Defined.

End SearchFacts.

(** ** The price lookup of the direct client *)

Module PriceFacts.
Import CryptoAPI.



(** An answer that knows bitcoin, with a price, a change and no market
    cap. *)
Definition bitcoin_priced : gmap string value :=
  {[ "bitcoin" := VObj [("usd", VNum (Fin 50000));
                        ("usd_24h_change", VNum (Fin (5 # 2)))] ]}.


Example price_of_bitcoin :
  fst (getCurrentPrice "bitcoin" 0 0 (Response bitcoin_priced) new) =
  Ok {| price := VNum (Fin 50000); change24h := VNum (Fin (5 # 2));
        marketCap := VUndefined |}.
Proof. reflexivity. Qed.


(** A record that is [null] counts as no record. *)
Example null_record_not_found :
  fst (getCurrentPrice "bitcoin" 0 0 (Response {[ "bitcoin" := VNull ]}) new) =
  Throw (not_found "bitcoin").
Proof. reflexivity. Qed.

End PriceFacts.

(** ** The ledger *)

Module PortfolioFacts.
Import Portfolio.

(** The holding that two adds of [a] and then [b] of a new coin leave. *)
Definition merged (cid name symbol : string) (a b : num) (t1 t2 : Z) : Holding :=
  {| id := pretty t1; coinId := cid; coinName := name;
     coinSymbol := Str.toUpperCase symbol; amount := Num.add a b;
     currentPrice := None; currentValue := None; change24h := None;
     addedAt := t1; lastUpdated := t2 |}.

Lemma find_absent (cid : string) (hs : list Holding) :
  cid ∉ coinId <$> hs → list_find (λ h, coinId h = cid) hs = None.
Proof.
  intros Hnot. apply list_find_None. apply Forall_forall.
  intros h Hin Heq. apply Hnot. rewrite <- Heq.
  apply list_elem_of_fmap. by exists h.
Qed.

Lemma find_appended (cid : string) (hs : list Holding) (h : Holding) :
  cid ∉ coinId <$> hs → coinId h = cid →
  list_find (λ h, coinId h = cid) (hs ++ [h]) = Some (length hs, h).
Proof.
  intros Hnot Hh. apply list_find_Some. split_and!.
  - by rewrite lookup_app_r, Nat.sub_diag.
  - done.
  - intros j y Hj Hlt Hy. apply Hnot. rewrite <- Hy.
    rewrite lookup_app_l in Hj by done.
    apply list_elem_of_fmap. exists y. split; [done|].
    by eapply list_elem_of_lookup_2.
Qed.

Lemma filter_absent (cid : string) (hs : list Holding) :
  cid ∉ coinId <$> hs → filter (λ h, coinId h = cid) hs = [].
Proof.
  induction hs as [|h hs IH]; [done|]. intros Hnot.
  rewrite fmap_cons, not_elem_of_cons in Hnot. destruct Hnot as [Hne Hnot].
  rewrite filter_cons_False by congruence. by apply IH.
Qed.

Lemma add_fresh (cid name symbol : string) (a : num) (t1 : Z) (hs : list Holding) :
  cid ∉ coinId <$> hs →
  addHolding_update cid name symbol a t1 hs =
  hs ++ [ {| id := pretty t1; coinId := cid; coinName := name;
             coinSymbol := Str.toUpperCase symbol; amount := a;
             currentPrice := None; currentValue := None; change24h := None;
             addedAt := t1; lastUpdated := t1 |} ].
Proof. intros Hnot. unfold addHolding_update. by rewrite find_absent. Qed.

(** An add never changes the coin ids that are there, but for a new one at
    the end. *)
Lemma add_coin_ids (cid name symbol : string) (a : num) (t1 : Z) (hs : list Holding) :
  coinId <$> addHolding_update cid name symbol a t1 hs =
  if decide (cid ∈ coinId <$> hs) then coinId <$> hs else (coinId <$> hs) ++ [cid].
Proof.
  unfold addHolding_update.
  destruct (list_find _ hs) as [[i h]|] eqn:Hfind.
  - apply list_find_Some in Hfind as (Hi & Hh & _).
    rewrite decide_True.
    + rewrite list_fmap_insert. simpl. apply list_insert_id.
      by rewrite list_lookup_fmap, Hi.
    + rewrite <- Hh. apply list_elem_of_fmap. exists h. split; [done|].
      by eapply list_elem_of_lookup_2.
  - rewrite decide_False.
    + by rewrite fmap_app.
    + intros Hin. apply list_elem_of_fmap in Hin as (h & Hh & Hin).
      apply list_find_None in Hfind.
      rewrite Forall_forall in Hfind. by apply (Hfind h).
Qed.

(** No add makes a second holding of a coin. *)
Lemma add_keeps_NoDup (cid name symbol : string) (a : num) (t1 : Z) (hs : list Holding) :
  NoDup (coinId <$> hs) →
  NoDup (coinId <$> addHolding_update cid name symbol a t1 hs).
Proof.
  intros Hnd. rewrite add_coin_ids. case_decide; [done|].
  apply NoDup_app. split_and!; [done| |apply NoDup_singleton].
  intros x Hx Hx'. apply list_elem_of_singleton in Hx'. by subst.
Qed.

(** A ledger that holds bitcoin and ether. *)
Definition bitcoin_and_ether : list Holding :=
  holdings (addHolding "ethereum" "Ethereum" "eth" (Fin 2) 2000
              (addHolding "bitcoin" "Bitcoin" "btc" (Fin 1) 1000 init)).

(** A further add of bitcoin to [bitcoin_and_ether] takes the merge branch. *)
Lemma add_keeps_NoDup_witness :
  NoDup (coinId <$> addHolding_update "bitcoin" "Bitcoin" "btc" (Fin 3) 3000
                      bitcoin_and_ether).
Proof.
  apply (add_keeps_NoDup "bitcoin" "Bitcoin" "btc" (Fin 3) 3000 bitcoin_and_ether).
  apply (bool_decide_unpack _). vm_compute. reflexivity.
Defined.

Example add_to_held_coin_merges :
  (λ h, (coinId h, amount h)) <$>
    addHolding_update "bitcoin" "Bitcoin" "btc" (Fin 3) 3000 bitcoin_and_ether =
  [("bitcoin", Fin (1 + 3)); ("ethereum", Fin 2)].
Proof. reflexivity. Qed.

(** C7. In a portfolio that holds each coin at most once and has no holding
    of [cid], two calls of [addHolding] for [cid], with the amounts [a] and
    then [b], leave exactly one holding of [cid]: its amount is [a + b],
    its [lastUpdated] is the time of the second call, and the portfolio still
    holds each coin at most once. *)
Theorem addHolding_twice_merges (st : State) (cid name1 symbol1 name2 symbol2 : string)
    (a b : num) (t1 t2 : Z) :
  NoDup (coinId <$> holdings st) →
  cid ∉ coinId <$> holdings st →
  let st2 := addHolding cid name2 symbol2 b t2 (addHolding cid name1 symbol1 a t1 st) in
  holdings st2 = holdings st ++ [merged cid name1 symbol1 a b t1 t2] ∧
  filter (λ h, coinId h = cid) (holdings st2) = [merged cid name1 symbol1 a b t1 t2] ∧
  NoDup (coinId <$> holdings st2).
Proof.
  intros Hnd Hnot. simpl.
  rewrite (add_fresh cid name1 symbol1 a t1) by done.
  assert (Hshape :
    addHolding_update cid name2 symbol2 b t2
      (holdings st ++
       [ {| id := pretty t1; coinId := cid; coinName := name1;
            coinSymbol := Str.toUpperCase symbol1; amount := a;
            currentPrice := None; currentValue := None; change24h := None;
            addedAt := t1; lastUpdated := t1 |} ]) =
    holdings st ++ [merged cid name1 symbol1 a b t1 t2]).
  { unfold addHolding_update.
    rewrite (find_appended cid) by done. simpl.
    rewrite insert_app_r_alt, Nat.sub_diag by done. reflexivity. }
  rewrite Hshape. split_and!.
  - reflexivity.
  - rewrite filter_app.
    assert (Hnone : filter (λ h, coinId h = cid) (holdings st) = []).
    { apply filter_absent. done. }
    rewrite Hnone. simpl. rewrite filter_cons_True by done. reflexivity.
  - rewrite fmap_app. simpl.
    apply NoDup_app. split_and!; [done| |apply NoDup_singleton].
    intros x Hx Hx'. apply list_elem_of_singleton in Hx'. by subst.
Qed.

Lemma addHolding_twice_merges_witness :
  let st2 := addHolding "bitcoin" "Bitcoin" "btc" (Fin 3) 2000
               (addHolding "bitcoin" "Bitcoin" "btc" (Fin 2) 1000 init) in
  holdings st2 = holdings init ++ [merged "bitcoin" "Bitcoin" "btc" (Fin 2) (Fin 3) 1000 2000] ∧
  filter (λ h, coinId h = "bitcoin") (holdings st2) =
    [merged "bitcoin" "Bitcoin" "btc" (Fin 2) (Fin 3) 1000 2000] ∧
  NoDup (coinId <$> holdings st2).
Proof.
  apply (addHolding_twice_merges init "bitcoin" "Bitcoin" "btc" "Bitcoin" "btc").
  - simpl. apply NoDup_nil_2.
  - simpl. apply not_elem_of_nil.
Defined.

(** *** The aggregate 24h change *)

(** A holding counts for the aggregate change when it has a change and a
    value. *)
Definition has_change (h : Holding) : bool :=
  match change24h h with
  | Some _ => Num.truthy (currentValue h)
  | None => false
  end.

Definition sum (l : list num) : num := foldr Num.add (Num.of_Z 0) l.

(** The value-weighted average of the 24h changes as the specification words
    it: the holdings without change or value are left out of the numerator
    and of the denominator. *)
Definition weighted_average_change (hs : list Holding) : num :=
  let counted := List.filter has_change hs in
  Num.div
    (sum (map (λ h, Num.mul (Num.of_option (change24h h))
                            (Num.of_option (currentValue h))) counted))
    (sum (map (λ h, Num.of_option (currentValue h)) counted)).

(** A portfolio of one bitcoin and one ether after a valuation pass in which
    the source priced both at 100 and gave a 24h change, of 10 percent, for
    bitcoin only. *)
Definition one_change_missing : State :=
  calculatePortfolioValue 3000
    (Ok {[ "bitcoin" := {| usd := Some (Num.of_Z 100);
                           usd_24h_change := Some (Num.of_Z 10) |};
           "ethereum" := {| usd := Some (Num.of_Z 100);
                            usd_24h_change := None |} ]})
    (addHolding "ethereum" "Ethereum" "eth" (Num.of_Z 1) 2000
       (addHolding "bitcoin" "Bitcoin" "btc" (Num.of_Z 1) 1000 init)).

(** C3. On [one_change_missing] the ether holding has no change and is left
    out of the numerator, but its value stays in the denominator, which is
    the total of the valuation pass: [getPortfolioSummary] reports 5 percent,
    where the weighted average over the holdings that have a change is 10
    percent. *)
Theorem summary_change_divides_by_total :
  has_change <$> holdings one_change_missing = [true; false] ∧
  portfolioValue one_change_missing = Fin 200 ∧
  Num.eqb (summary_change24h (getPortfolioSummary one_change_missing)) (Fin 5) = true ∧
  Num.eqb (weighted_average_change (holdings one_change_missing)) (Fin 10) = true.
Proof. vm_compute. repeat split. Qed.

(** A second pass in which the source has no price for ether any more: the
    holding keeps the value and the change of the first pass and counts in
    the numerator, while the total is that of the second pass. *)
Definition one_price_missing : State :=
  calculatePortfolioValue 5000
    (Ok {[ "bitcoin" := {| usd := Some (Num.of_Z 100);
                           usd_24h_change := Some (Num.of_Z 10) |} ]})
    (calculatePortfolioValue 3000
       (Ok {[ "bitcoin" := {| usd := Some (Num.of_Z 100);
                              usd_24h_change := Some (Num.of_Z 10) |};
              "ethereum" := {| usd := Some (Num.of_Z 100);
                               usd_24h_change := Some (Num.of_Z 10) |} ]})
       (addHolding "ethereum" "Ethereum" "eth" (Num.of_Z 1) 2000
          (addHolding "bitcoin" "Bitcoin" "btc" (Num.of_Z 1) 1000 init))).

Example summary_change_counts_stale_holding :
  has_change <$> holdings one_price_missing = [true; true] ∧
  portfolioValue one_price_missing = Fin 100 ∧
  Num.eqb (summary_change24h (getPortfolioSummary one_price_missing)) (Fin 20) = true ∧
  Num.eqb (weighted_average_change (holdings one_price_missing)) (Fin 10) = true.
Proof. vm_compute. repeat split. Qed.

End PortfolioFacts.

(** ** The two rate limiters *)

Module LimiterFacts.

(** *** The orchestration layer *)

(** The outcomes of successive [handleRateLimit] calls made at the
    readings [times] of [Date.now()]: [true] for an admitted request. *)
Fixpoint admissions (times : list Z) (am : ApiManager.t) : list bool :=
  match times with
  | [] => []
  | now :: later =>
      match ApiManager.handleRateLimit now am with
      | (None, am') => true :: admissions later am'
      | (Some _, am') => false :: admissions later am'
      end
  end.

(** Fifty-one requests in fifty milliseconds, from the instant [start] on:
    two in the first millisecond, then one in each of the next 49. *)
Definition start : Z := 1700000000000.
Definition burst : list Z := start :: ((λ n, start + Z.of_nat n) <$> seq 0 50).

(** C1, at the orchestration layer. The limiter is a [Map] keyed by the
    timestamp, so two requests of the same millisecond are one entry: all
    fifty-one requests of [burst], which lie within fifty milliseconds, are
    admitted, one more than the ceiling of fifty. *)
Theorem orchestration_admits_51_in_a_window :
  length burst = 51%nat ∧
  Forall (λ now, start ≤ now < start + 50) burst ∧
  admissions burst ApiManager.new = replicate 51 true.
Proof.
  split_and!.
  - reflexivity.
  - unfold burst. apply Forall_forall. intros now Hin.
    apply elem_of_cons in Hin as [-> | Hin]; [unfold start; lia|].
    apply list_elem_of_fmap in Hin as (n & -> & Hn).
    apply elem_of_seq in Hn. lia.
  - vm_compute. reflexivity.
Qed.

(** The timestamps of the admitted ones among successive requests. *)
Fixpoint admitted (times : list Z) (am : ApiManager.t) : list Z :=
  match times with
  | [] => []
  | now :: later =>
      match ApiManager.handleRateLimit now am with
      | (None, am') => now :: admitted later am'
      | (Some _, am') => admitted later am'
      end
  end.

(** Every reading of the clock is later than the one before it. *)
Fixpoint increasing (lo : Z) (times : list Z) : Prop :=
  match times with
  | [] => True
  | now :: later => lo < now ∧ increasing now later
  end.

(** How many of the times [l] lie in the 60 seconds from [t] on, both ends
    included. *)
Definition count_from (t : Z) (l : list Z) : nat :=
  length (filter (λ τ, t ≤ τ ≤ t + 60000) l).

Lemma filter_length_le (P Q : Z → Prop) `{∀ x, Decision (P x)}
    `{∀ x, Decision (Q x)} (l : list Z) :
  (∀ x, P x → Q x) → (length (filter P l) ≤ length (filter Q l))%nat.
Proof.
  intros HPQ. induction l as [|x l IH]; [done|].
  rewrite !filter_cons. destruct (decide (P x)) as [HP|HP].
  - rewrite decide_True by auto. simpl. lia.
  - destruct (decide (Q x)); simpl; lia.
Qed.

(** The limiter holds the admitted timestamps [H] from [lo0 - 60000] on. *)
Definition holds_recent (rl : gmap Z bool) (H : list Z) (lo0 : Z) : Prop :=
  dom rl = list_to_set (filter (λ τ, lo0 - 60000 ≤ τ) H).

Lemma clean_recent (rl : gmap Z bool) (H : list Z) (lo0 now : Z) :
  holds_recent rl H lo0 → lo0 ≤ now →
  holds_recent (ApiManager.clean (now - 60000) rl) H now.
Proof.
  unfold holds_recent, ApiManager.clean. intros Hdom Hle.
  apply dom_filter_L. intros i.
  rewrite elem_of_list_to_set, list_elem_of_filter. split.
  - intros [Hi HiH].
    assert (i ∈ dom rl) as [x Hx]%elem_of_dom.
    { rewrite Hdom, elem_of_list_to_set, list_elem_of_filter. split; [lia|done]. }
    exists x. split; [done | simpl; lia].
  - intros (x & Hx & Hi). simpl in Hi.
    assert (i ∈ dom rl) as Hin by (apply elem_of_dom; eauto).
    rewrite Hdom, elem_of_list_to_set, list_elem_of_filter in Hin.
    split; [lia | tauto].
Qed.

Lemma recent_size (rl : gmap Z bool) (H : list Z) (lo0 : Z) :
  holds_recent rl H lo0 → NoDup H →
  size rl = length (filter (λ τ, lo0 - 60000 ≤ τ) H).
Proof.
  unfold holds_recent. intros Hdom Hnd.
  rewrite <- size_dom, Hdom. apply size_list_to_set. by apply NoDup_filter.
Qed.

Lemma admitted_window (times : list Z) :
  ∀ (am : ApiManager.t) (H : list Z) (lo0 lo : Z),
    holds_recent (ApiManager.rateLimiter am) H lo0 →
    NoDup H → Forall (λ τ, τ ≤ lo) H →
    lo0 ≤ lo → increasing lo times →
    (∀ t, (count_from t H ≤ 50)%nat) →
    ∀ t, (count_from t (H ++ admitted times am) ≤ 50)%nat.
Proof.
  induction times as [|now later IH];
    intros am H lo0 lo Hrl Hnd Hpast Hlo Hinc HP t.
  - simpl. by rewrite app_nil_r.
  - destruct Hinc as [Hnow Hlater]. simpl. unfold ApiManager.handleRateLimit.
    pose proof (clean_recent _ H lo0 now Hrl ltac:(lia)) as Hclean.
    rewrite (recent_size _ H now Hclean Hnd).
    unfold ApiManager.maxRequestsPerMinute.
    destruct (Nat.leb_spec 50 (length (filter (λ τ, now - 60000 ≤ τ) H)))
      as [Hfull | Hroom].
    + apply (IH _ H now now); simpl; try done; try lia.
      eapply Forall_impl; [apply Hpast|]. intros; simpl in *; lia.
    + replace (H ++ now :: admitted later _)
        with ((H ++ [now]) ++ admitted later
                {| ApiManager.cache := ApiManager.cache am;
                   ApiManager.rateLimiter :=
                     <[now := true]> (ApiManager.clean (now - 60000)
                                        (ApiManager.rateLimiter am)) |})
        by (by rewrite <- app_assoc).
      assert (Hfresh : now ∉ H).
      { intros Hin. rewrite Forall_forall in Hpast.
        specialize (Hpast now Hin). simpl in Hpast. lia. }
      apply (IH _ _ now now); simpl; try done; try lia.
      * unfold holds_recent in *. rewrite dom_insert_L, Hclean.
        rewrite filter_app, filter_cons_True by lia.
        rewrite filter_nil, list_to_set_snoc_L. apply (comm_L (∪)).
      * apply NoDup_app. split_and!; [done| |apply NoDup_singleton].
        intros x Hx Hx'%list_elem_of_singleton. by subst.
      * apply Forall_app. split; [|by apply Forall_singleton].
        eapply Forall_impl; [apply Hpast|]. intros; simpl in *; lia.
      * intros t'. unfold count_from. rewrite filter_app, length_app.
        destruct (decide (t' ≤ now ≤ t' + 60000)) as [Hin|Hout].
        -- rewrite filter_cons_True by done. simpl.
           pose proof (filter_length_le (λ τ, t' ≤ τ ≤ t' + 60000)
                         (λ τ, now - 60000 ≤ τ) H) as Hmono.
           simpl in Hmono. specialize (Hmono ltac:(intros; lia)). lia.
        -- rewrite filter_cons_False by done. simpl.
           specialize (HP t'). unfold count_from in HP. lia.
Qed.

(** With a clock that gives every request a timestamp of its own, the
    limiter of the orchestration layer keeps its ceiling: no 60 seconds,
    both ends included, hold more than fifty admitted requests. *)
Theorem orchestration_limiter_window (lo : Z) (times : list Z) :
  increasing lo times →
  ∀ t, (count_from t (admitted times ApiManager.new) ≤ 50)%nat.
Proof.
  intros Hinc t.
  apply (admitted_window times ApiManager.new [] lo lo); try done.
  - apply NoDup_nil_2.
  - intros t'. unfold count_from. simpl. lia.
Qed.

Lemma orchestration_limiter_window_witness :
  (count_from 0 (admitted [1; 2; 70000]%Z ApiManager.new) ≤ 50)%nat.
Proof.
  apply (orchestration_limiter_window 0 [1; 2; 70000]%Z). simpl. lia.
Defined.

(** *** The direct client *)

Import RateLimiter.

(** The times recorded for the admitted ones among successive requests;
    each request comes with its two readings of [Date.now()]. *)
Fixpoint recorded (attempts : list (Z * Z)) (rl : t) : list Z :=
  match attempts with
  | [] => []
  | (now, now') :: later =>
      match intercept now now' rl with
      | (None, rl') => now' :: recorded later rl'
      | (Some _, rl') => recorded later rl'
      end
  end.

(** The readings never go back: each is at least [lo] and at least the one
    before it. *)
Fixpoint chronological (lo : Z) (attempts : list (Z * Z)) : Prop :=
  match attempts with
  | [] => True
  | (now, now') :: later => lo ≤ now ∧ now ≤ now' ∧ chronological now' later
  end.

(** How many of the times [l] lie in the window of length [w] that starts
    at [t]. *)
Definition count_in (t w : Z) (l : list Z) : nat :=
  length (filter (λ τ, t ≤ τ < t + w) l).

Lemma filter_length_mono (P Q : Z → Prop) `{∀ x, Decision (P x)}
    `{∀ x, Decision (Q x)} (l : list Z) :
  (∀ x, P x → Q x) → (length (filter P l) ≤ length (filter Q l))%nat.
Proof.
  intros HPQ. induction l as [|x l IH]; [done|].
  rewrite !filter_cons. destruct (decide (P x)) as [HP|HP].
  - rewrite decide_True by auto. simpl. lia.
  - destruct (decide (Q x)); simpl; lia.
Qed.

Lemma filter_trailing (w lo0 now : Z) (l : list Z) :
  lo0 ≤ now →
  filter (λ τ, now - τ < w) (filter (λ τ, lo0 - τ < w) l) =
  filter (λ τ, now - τ < w) l.
Proof.
  intros Hle. rewrite list_filter_filter. apply list_filter_iff.
  intros τ. split; [tauto | intros; split; lia].
Qed.

Lemma recorded_window (max : nat) (w : Z) (attempts : list (Z * Z)) :
  0 < w →
  ∀ (rl : t) (H : list Z) (lo0 lo : Z),
    maxRequests rl = max → windowMs rl = w →
    requests rl = filter (λ τ, lo0 - τ < w) H →
    lo0 ≤ lo → chronological lo attempts →
    (∀ t, (count_in t w H ≤ max)%nat) →
    ∀ t, (count_in t w (H ++ recorded attempts rl) ≤ max)%nat.
Proof.
  intros Hw. induction attempts as [|[now now'] later IH];
    intros rl H lo0 lo Hmax Hwin Hreq Hlo Hchron HP t.
  - simpl. by rewrite app_nil_r.
  - destruct Hchron as (Hnow & Hnow' & Hlater).
    simpl. unfold intercept, canMakeRequest.
    rewrite Hreq, Hwin, Hmax, filter_trailing by lia.
    destruct (Nat.ltb_spec (length (filter (λ τ, now - τ < w) H)) max) as [Hlt|Hge].
    + replace (H ++ now' :: recorded later
                 (recordRequest now'
                    {| maxRequests := max; windowMs := w;
                       requests := filter (λ τ, now - τ < w) H |}))
        with ((H ++ [now']) ++ recorded later
                 (recordRequest now'
                    {| maxRequests := max; windowMs := w;
                       requests := filter (λ τ, now - τ < w) H |}))
        by (by rewrite <- app_assoc).
      apply (IH _ _ now now'); simpl; try done.
      * rewrite filter_app. f_equal.
        rewrite filter_cons_True by lia. done.
      * intros t'. unfold count_in. rewrite filter_app, length_app.
        destruct (decide (t' ≤ now' < t' + w)) as [Hin|Hout].
        -- rewrite filter_cons_True by done. simpl.
           pose proof (filter_length_mono (λ τ, t' ≤ τ < t' + w)
                         (λ τ, now - τ < w) H) as Hmono.
           simpl in Hmono. specialize (Hmono ltac:(intros; lia)).
           lia.
        -- rewrite filter_cons_False by done. simpl.
           specialize (HP t'). unfold count_in in HP. lia.
    + apply (IH _ _ now now'); simpl; done.
Qed.

(** The limiter of the direct client keeps its ceiling: whatever the
    attempts, as long as the clock never goes back, no window of [windowMs]
    milliseconds holds more than [maxRequests] admitted requests. *)
Theorem direct_limiter_window (max : nat) (w lo : Z) (attempts : list (Z * Z)) :
  0 < w → chronological lo attempts →
  ∀ t, (count_in t w (recorded attempts (create max w)) ≤ max)%nat.
Proof.
  intros Hw Hchron t.
  apply (recorded_window max w attempts Hw (create max w) [] lo lo); try done.
  intros t'. unfold count_in. simpl. lia.
Qed.

Lemma direct_limiter_window_witness :
  (count_in 0 60000 (recorded [(0, 0); (5, 6); (70000, 70000)]%Z new) ≤ 10)%nat.
Proof.
  apply (direct_limiter_window 10 60000 0 [(0, 0); (5, 6); (70000, 70000)]%Z);
    [lia | simpl; lia].
Defined.

(** A request is admitted exactly when fewer than [maxRequests] recorded
    requests lie in the trailing window; a refused request records
    nothing. *)
Lemma intercept_decision (now now' : Z) (rl : t) :
  let kept := filter (λ time, now - time < windowMs rl) (requests rl) in
  intercept now now' rl =
  if (length kept <? maxRequests rl)%nat
  then (None, {| maxRequests := maxRequests rl; windowMs := windowMs rl;
                 requests := kept ++ [now'] |})
  else (Some (mkError rate_limit_message),
        {| maxRequests := maxRequests rl; windowMs := windowMs rl;
           requests := kept |}).
Proof.
  simpl. unfold intercept, canMakeRequest.
  by destruct (_ <? _)%nat.
Qed.

(** Once the window has passed over everything recorded, a request is
    admitted again. *)
Lemma intercept_after_window (now now' : Z) (rl : t) :
  (0 < maxRequests rl)%nat →
  Forall (λ time, windowMs rl ≤ now - time) (requests rl) →
  fst (intercept now now' rl) = None.
Proof.
  intros Hmax Hold. rewrite intercept_decision.
  assert (Hnil : filter (λ time, now - time < windowMs rl) (requests rl) = []).
  { induction Hold as [|x l Hx Hl IH]; [done|].
    rewrite filter_cons_False by lia. done. }
  rewrite Hnil. simpl.
  destruct (Nat.ltb_spec 0 (maxRequests rl)); [done | lia].
Qed.

End LimiterFacts.

(** ** The cache key *)

Module CacheKeyFacts.
Import ApiManager.

#[local] Arguments String.append !_ _ /.

Lemma app_assoc_s (a b c : string) : (a +:+ b) +:+ c = a +:+ (b +:+ c).
Proof. induction a as [|x a IH]; simpl; [done | by rewrite IH]. Qed.

(** *** Quoted strings can be read back *)

Definition hex_value (c : ascii) : option N :=
  let n := N_of_ascii c in
  if ((48 <=? n) && (n <=? 57))%N then Some (n - 48)%N
  else if ((97 <=? n) && (n <=? 102))%N then Some (n - 87)%N
  else None.

(** Reads one quoted character off the front of a string; [None] at the
    closing quote. *)
Definition unquote_char (s : string) : option (ascii * string) :=
  match s with
  | String c rest =>
      if Ascii.eqb c "\" then
        match rest with
        | String x rest' =>
            if Ascii.eqb x "b" then Some (ascii_of_N 8, rest')
            else if Ascii.eqb x "t" then Some (ascii_of_N 9, rest')
            else if Ascii.eqb x "n" then Some (ascii_of_N 10, rest')
            else if Ascii.eqb x "f" then Some (ascii_of_N 12, rest')
            else if Ascii.eqb x "r" then Some (ascii_of_N 13, rest')
            else if Ascii.eqb x dq then Some (dq, rest')
            else if Ascii.eqb x "\" then Some ("\"%char, rest')
            else if Ascii.eqb x "u" then
              match rest' with
              | String _ (String _ (String h1 (String h2 rest''))) =>
                  match hex_value h1, hex_value h2 with
                  | Some a, Some b => Some (ascii_of_N (16 * a + b), rest'')
                  | _, _ => None
                  end
              | _ => None
              end
            else None
        | EmptyString => None
        end
      else if Ascii.eqb c dq then None
      else Some (c, rest)
  | EmptyString => None
  end.

Lemma unquote_quote_char (c : ascii) (r : string) :
  unquote_char (quote_char c +:+ r) = Some (c, r).
Proof.
  destruct c as [[] [] [] [] [] [] [] []]; reflexivity.
Qed.

Lemma unquote_closing (r : string) : unquote_char (String dq r) = None.
Proof. reflexivity. Qed.

Lemma quote_chars_inj (k k' r r' : string) :
  quote_chars k +:+ String dq r = quote_chars k' +:+ String dq r' →
  k = k' ∧ r = r'.
Proof.
  revert k'. induction k as [|c k IH]; intros [|c' k'] Heq; simpl in Heq.
  - by injection Heq.
  - apply (f_equal unquote_char) in Heq.
    rewrite app_assoc_s, unquote_quote_char, unquote_closing in Heq. done.
  - apply (f_equal unquote_char) in Heq.
    rewrite app_assoc_s, unquote_quote_char, unquote_closing in Heq. done.
  - apply (f_equal unquote_char) in Heq.
    rewrite !app_assoc_s, !unquote_quote_char in Heq.
    injection Heq as -> Heq. apply IH in Heq as [-> ->]. done.
Qed.

Lemma quoteJSONString_inj (k k' r r' : string) :
  quoteJSONString k +:+ r = quoteJSONString k' +:+ r' → k = k' ∧ r = r'.
Proof.
  unfold quoteJSONString, dquote. simpl. rewrite !app_assoc_s. simpl.
  intros [= Heq]. by apply quote_chars_inj.
Qed.

(** *** Printed integers end where the digits end *)

Definition numeric (c : ascii) : bool := Str.is_digit c || Ascii.eqb c "-".

Fixpoint all_numeric (s : string) : bool :=
  match s with
  | EmptyString => true
  | String c rest => numeric c && all_numeric rest
  end.

Lemma all_numeric_app (a b : string) :
  all_numeric (a +:+ b) = all_numeric a && all_numeric b.
Proof.
  induction a as [|x a IH]; simpl; [done|]. by rewrite IH, andb_assoc.
Qed.

Lemma pretty_N_char_numeric (x : N) : numeric (pretty_N_char x) = true.
Proof. unfold pretty_N_char. by repeat case_match. Qed.

Lemma pretty_N_go_numeric (x : N) (s : string) :
  ∃ p, pretty_N_go x s = p +:+ s ∧ all_numeric p = true ∧
       ((0 < x)%N → p ≠ "").
Proof.
  revert s. induction (N.lt_wf_0 x) as [x _ IH]; intros s.
  assert (x = 0 ∨ 0 < x)%N as [-> | Hpos] by lia.
  - exists "". rewrite pretty_N_go_0. split_and!; [done | done | lia].
  - rewrite pretty_N_go_step by done.
    destruct (IH (x `div` 10)%N (N.div_lt x 10 Hpos eq_refl)
                 (String (pretty_N_char (x `mod` 10)) s)) as (p & -> & Hp & _).
    exists (p +:+ String (pretty_N_char (x `mod` 10)) "").
    split_and!.
    + by rewrite app_assoc_s.
    + rewrite all_numeric_app, Hp. simpl.
      by rewrite pretty_N_char_numeric.
    + intros _. by destruct p.
Qed.

Lemma pretty_N_numeric (x : N) :
  all_numeric (pretty x) = true ∧ pretty x ≠ "".
Proof.
  unfold pretty, pretty_N. case_decide as Hx; [done|].
  destruct (pretty_N_go_numeric x "") as (p & -> & Hp & Hne).
  assert (p +:+ "" = p) as ->.
  { clear. induction p as [|c p IH]; simpl; [done | by rewrite IH]. }
  split; [done | apply Hne; lia].
Qed.

Lemma pretty_Z_numeric (z : Z) :
  all_numeric (pretty z) = true ∧ pretty z ≠ "".
Proof.
  destruct z as [|x|x]; [done| |].
  - apply (pretty_N_numeric (Npos x)).
  - destruct (pretty_N_numeric (Npos x)) as [Hn Hne].
    change (pretty (Z.neg x)) with ("-" +:+ pretty (Npos x)).
    simpl. split; [done | done].
Qed.

(** The character a string starts with, if any, is in the class [p]. *)
Definition starts_with (p : ascii → bool) (s : string) : bool :=
  match s with
  | EmptyString => false
  | String c _ => p c
  end.

Lemma numeric_prefix_inj (a b r r' : string) :
  all_numeric a = true → all_numeric b = true →
  starts_with numeric r = false → starts_with numeric r' = false →
  r ≠ "" → r' ≠ "" →
  a +:+ r = b +:+ r' → a = b ∧ r = r'.
Proof.
  revert b. induction a as [|x a IH]; intros [|y b] Ha Hb Hr Hr' Hne Hne' Heq;
    simpl in *.
  - done.
  - subst r. simpl in Hr. apply andb_prop in Hb as [Hy _]. congruence.
  - subst r'. simpl in Hr'. apply andb_prop in Ha as [Hx _]. congruence.
  - apply andb_prop in Ha as [_ Ha]. apply andb_prop in Hb as [_ Hb].
    injection Heq as -> Heq.
    destruct (IH b Ha Hb Hr Hr' Hne Hne' Heq) as [-> ->]. done.
Qed.

(** *** Values and members *)

(** What can follow a member of an object: a comma or the closing brace. *)
Definition delimiter (c : ascii) : bool := Ascii.eqb c "," || Ascii.eqb c "}".

Lemma delimited_not_numeric (r : string) :
  starts_with delimiter r = true → starts_with numeric r = false ∧ r ≠ "".
Proof.
  destruct r as [|c r]; [done|]. simpl. unfold delimiter, numeric, Str.is_digit.
  intros [Hc | Hc]%orb_prop; apply Ascii.eqb_eq in Hc; subst c; done.
Qed.

Lemma numeric_head (z : Z) :
  ∃ c s, pretty z = String c s ∧ numeric c = true.
Proof.
  destruct (pretty_Z_numeric z) as [Hn Hne].
  destruct (pretty z) as [|c s]; [done|]. simpl in Hn.
  apply andb_prop in Hn as [Hc _]. by exists c, s.
Qed.

Lemma stringify_param_inj (v v' : param) (sv sv' r r' : string) :
  stringify_param v = Some sv → stringify_param v' = Some sv' →
  starts_with delimiter r = true → starts_with delimiter r' = true →
  sv +:+ r = sv' +:+ r' → v = v' ∧ r = r'.
Proof.
  intros Hv Hv' Hr Hr' Heq.
  destruct (delimited_not_numeric r Hr) as [Hnr Hner].
  destruct (delimited_not_numeric r' Hr') as [Hnr' Hner'].
  destruct v as [| |[]|z|s]; destruct v' as [| |[]|z'|s'];
    simpl in Hv, Hv'; try discriminate;
    injection Hv as <-; injection Hv' as <-;
    unfold quoteJSONString, dquote in Heq; simpl in Heq;
    try discriminate;
    try (injection Heq as ->; done);
    try (destruct (numeric_head z) as (c & s0 & Hz & Hc); rewrite Hz in Heq;
         simpl in Heq; injection Heq as -> _; done);
    try (destruct (numeric_head z') as (c & s0 & Hz & Hc); rewrite Hz in Heq;
         simpl in Heq; injection Heq as <- _; done).
  - (* two integers *)
    destruct (pretty_Z_numeric z) as [Hn _].
    destruct (pretty_Z_numeric z') as [Hn' _].
    destruct (numeric_prefix_inj _ _ _ _ Hn Hn' Hnr Hnr' Hner Hner' Heq)
      as [Hzz ->].
    apply (inj pretty) in Hzz. by subst.
  - (* two strings *)
    rewrite !app_assoc_s in Heq. simpl in Heq. injection Heq as Heq.
    apply quote_chars_inj in Heq as [-> ->]. done.
Qed.

(** No property of the object is [undefined]. *)
Definition defined (p : params) : Prop :=
  Forall (λ kv, snd kv ≠ PUndefined) p.

Lemma stringify_defined (v : param) :
  v ≠ PUndefined → ∃ sv, stringify_param v = Some sv.
Proof. destruct v as [| |[]| |]; simpl; eauto. done. Qed.

Lemma string_cons_inv (c : ascii) (a b : string) :
  String c a = String c b → a = b.
Proof. by intros [= ->]. Qed.

Lemma join_cons_tail (m : string) (ms : list string) (tail : string) :
  join "," (m :: ms) +:+ tail =
  m +:+ match ms with
        | [] => tail
        | _ :: _ => String "," (join "," ms +:+ tail)
        end.
Proof.
  destruct ms as [|m' ms]; [done|].
  change (join "," (m :: m' :: ms)) with (m +:+ "," +:+ join "," (m' :: ms)).
  by rewrite !app_assoc_s.
Qed.

Lemma members_inj (p q : params) (r r' : string) :
  defined p → defined q →
  join "," (stringify_members p) +:+ String "}" r =
  join "," (stringify_members q) +:+ String "}" r' →
  p = q ∧ r = r'.
Proof.
  revert q. induction p as [|[k v] p IH]; intros [|[k' v'] q] Hp Hq Heq.
  - simpl in Heq. by injection Heq as ->.
  - apply Forall_cons in Hq as [Hv' Hq].
    destruct (stringify_defined v' Hv') as [sv' Hsv']. simpl in Heq.
    rewrite Hsv', join_cons_tail in Heq.
    unfold quoteJSONString, dquote in Heq. simpl in Heq. discriminate.
  - apply Forall_cons in Hp as [Hv Hp].
    destruct (stringify_defined v Hv) as [sv Hsv]. simpl in Heq.
    rewrite Hsv, join_cons_tail in Heq.
    unfold quoteJSONString, dquote in Heq. simpl in Heq. discriminate.
  - apply Forall_cons in Hp as [Hv Hp]. apply Forall_cons in Hq as [Hv' Hq].
    destruct (stringify_defined v Hv) as [sv Hsv].
    destruct (stringify_defined v' Hv') as [sv' Hsv'].
    cbn [stringify_members] in Heq.
    rewrite Hsv, Hsv', !join_cons_tail, !app_assoc_s in Heq.
    apply quoteJSONString_inj in Heq as [-> Heq].
    simpl in Heq. injection Heq as Heq.
    apply (stringify_param_inj v v') in Heq as [-> Heq]; [|done|done|..].
    + specialize (IH q Hp Hq).
      destruct (stringify_members p) as [|m ms] eqn:Hmp;
        destruct (stringify_members q) as [|m' ms'] eqn:Hmq.
      * injection Heq as ->.
        destruct p as [|[k1 v1] p]; destruct q as [|[k2 v2] q]; try done.
        -- apply Forall_cons in Hq as [Hv2 _].
           destruct (stringify_defined v2 Hv2) as [sv2 Hsv2].
           simpl in Hmq. by rewrite Hsv2 in Hmq.
        -- apply Forall_cons in Hp as [Hv1 _].
           destruct (stringify_defined v1 Hv1) as [sv1 Hsv1].
           simpl in Hmp. by rewrite Hsv1 in Hmp.
        -- apply Forall_cons in Hp as [Hv1 _].
           destruct (stringify_defined v1 Hv1) as [sv1 Hsv1].
           simpl in Hmp. by rewrite Hsv1 in Hmp.
      * discriminate.
      * discriminate.
      * apply string_cons_inv in Heq.
        apply IH in Heq as [-> ->]. done.
    + by destruct (stringify_members p).
    + by destruct (stringify_members q).
Qed.

(** Reading a property, for two objects that are equal as mappings. *)
Definition same_mapping (p q : params) : Prop :=
  ∀ k, get_param p k = get_param q k.

(** A key made of decimal digits, as the array indices are, which an
    object enumerates before its other keys. *)
Fixpoint all_digits (s : string) : bool :=
  match s with
  | EmptyString => true
  | String c rest => Str.is_digit c && all_digits rest
  end.

Definition decimal_key (k : string) : bool :=
  negb (String.eqb k "") && all_digits k.

(** The integers that a double holds exactly, and that [JSON.stringify]
    writes digit by digit. *)
Definition safe_integer (v : param) : Prop :=
  match v with
  | PInt z => - 2 ^ 53 < z < 2 ^ 53
  | _ => True
  end.

(** The list [p] is a parameter object in the order of its insertions: no
    key twice, no key that is a decimal numeral, no [undefined] value, no
    integer outside the safe range. *)
Record inserted (p : params) : Prop := {
  keys_distinct : NoDup (fst <$> p);
  keys_named : Forall (λ kv, decimal_key (fst kv) = false) p;
  values_defined : defined p;
  values_safe : Forall (λ kv, safe_integer (snd kv)) p;
}.

(** C4, as the code has it. For parameter objects whose keys are no decimal
    numerals and whose values are [null], booleans, safe integers or
    strings, two requests to the same endpoint get the same cache key
    exactly when their parameters list the same key-value pairs in the same
    order of insertion. *)
Theorem cache_key_follows_insertion_order (url : string) (p q : params) :
  inserted p → inserted q →
  (getCacheKey url p = getCacheKey url q ↔ p = q).
Proof.
  intros [_ _ Hp _] [_ _ Hq _]. split; [|by intros ->].
  unfold getCacheKey, JSON_stringify. intros Heq.
  apply (inj (String.append url)) in Heq. simpl in Heq.
  injection Heq as Heq.
  by apply members_inj in Heq as [-> _].
Qed.

Definition ids_first : params :=
  [("ids", PStr "bitcoin"); ("vs_currencies", PStr "usd")].
Definition ids_last : params :=
  [("vs_currencies", PStr "usd"); ("ids", PStr "bitcoin")].

Lemma cache_key_follows_insertion_order_witness :
  getCacheKey "/simple/price" ids_first = getCacheKey "/simple/price" ids_last
  ↔ ids_first = ids_last.
Proof.
  apply (cache_key_follows_insertion_order "/simple/price" ids_first ids_last).
  - split.
    + apply (bool_decide_unpack _). vm_compute. reflexivity.
    + repeat constructor.
    + repeat constructor; simpl; discriminate.
    + repeat constructor.
  - split.
    + apply (bool_decide_unpack _). vm_compute. reflexivity.
    + repeat constructor.
    + repeat constructor; simpl; discriminate.
    + repeat constructor.
Defined.

(** The two objects hold the same key-value pairs, inserted in another
    order, and get different cache keys. *)
Lemma cache_key_depends_on_order :
  same_mapping ids_first ids_last ∧
  getCacheKey "/simple/price" ids_first ≠ getCacheKey "/simple/price" ids_last.
Proof.
  split.
  - intros k. unfold ids_first, ids_last. simpl.
    destruct (String.eqb_spec k "ids") as [-> | _]; [reflexivity|].
    reflexivity.
  - vm_compute. discriminate.
Qed.

End CacheKeyFacts.

(** ** Reasoning about matches *)

Module RegexFacts.
Import Regex.

(** The first way in which [r] matches at [s], the one JavaScript takes. *)
Definition first (r : re) (s : pos) (c : caps) : option (pos * caps) :=
  head (run r s c).

(** [l] is a prefix of [t], character by character under [eqc]. *)
Fixpoint prefix_match (eqc : ascii → ascii → bool) (l t : list ascii) : bool :=
  match l, t with
  | [], _ => true
  | a :: l', b :: t' => eqc a b && prefix_match eqc l' t'
  | _ :: _, [] => false
  end.

(** The character before the position reached after reading [A]. *)
Fixpoint last_prev (p : option ascii) (A : list ascii) : option ascii :=
  match A with
  | [] => p
  | ch :: A' => last_prev (Some ch) A'
  end.

(** [B] does not go on with a character of [p]. *)
Definition stops (p : ascii → bool) (B : list ascii) : bool :=
  match B with
  | [] => true
  | ch :: _ => negb (p ch)
  end.

Lemma skip_app (p : option ascii) (A B : list ascii) :
  skip (length A) {| prev := p; rest := A ++ B |} =
  {| prev := last_prev p A; rest := B |}.
Proof.
  revert p. induction A as [|ch A IH]; intros p; simpl.
  - by destruct B.
  - apply IH.
Qed.

Lemma span_app (p : ascii → bool) (A B : list ascii) :
  forallb p A = true → stops p B = true → span p (A ++ B) = length A.
Proof.
  intros HA HB. induction A as [|ch A IH]; simpl in *.
  - destruct B as [|b B]; [done|]. simpl in *.
    destruct (p b); simpl in *; congruence.
  - apply andb_prop in HA as [-> HA]. by rewrite IH.
Qed.

Lemma consumed_app (p p' : option ascii) (A B : list ascii) :
  consumed {| prev := p; rest := A ++ B |} {| prev := p'; rest := B |} = A.
Proof.
  unfold consumed. simpl. rewrite length_app.
  replace (length A + length B - length B)%nat with (length A) by lia.
  by rewrite take_app_length.
Qed.

(** *** Literals *)

Lemma run_lit_of (eqc : ascii → ascii → bool) (l : list ascii) (s : pos) (c : caps) :
  run (lit_of eqc l) s c =
  if prefix_match eqc l (rest s) then [(skip (length l) s, c)] else [].
Proof.
  revert s. induction l as [|a l IH]; intros s.
  - simpl. by destruct (rest s).
  - destruct l as [|a' l].
    + simpl. destruct s as [p [|b t]]; simpl; [done|].
      destruct (eqc a b); simpl; [|done]. by destruct t.
    + change (lit_of eqc (a :: a' :: l))
        with (Seq (Cls (eqc a)) (lit_of eqc (a' :: l))).
      cbn [run]. destruct s as [p [|b t]]; [done|].
      cbn [rest prefix_match]. destruct (eqc a b); [|done].
      cbn [flat_map fst snd]. rewrite IH. cbn [rest].
      rewrite app_nil_r. reflexivity.
Qed.

(** *** Membership: some way of matching *)

Lemma in_seq_re (a b : re) (s : pos) (c : caps) (m1 m2 : pos * caps) :
  In m1 (run a s c) → In m2 (run b (fst m1) (snd m1)) → In m2 (run (Seq a b) s c).
Proof. intros H1 H2. simpl. apply in_flat_map. eauto. Qed.

Lemma in_alt_l (a b : re) (s : pos) (c : caps) (m : pos * caps) :
  In m (run a s c) → In m (run (Alt a b) s c).
Proof. intros H. simpl. apply in_or_app. auto. Qed.

Lemma in_alt_r (a b : re) (s : pos) (c : caps) (m : pos * caps) :
  In m (run b s c) → In m (run (Alt a b) s c).
Proof. intros H. simpl. apply in_or_app. auto. Qed.

Lemma in_opt_skip (a : re) (s : pos) (c : caps) : In (s, c) (run (Opt a) s c).
Proof. simpl. apply in_or_app. right. by left. Qed.

Lemma in_opt_take (a : re) (s : pos) (c : caps) (m : pos * caps) :
  In m (run a s c) → In m (run (Opt a) s c).
Proof. intros H. simpl. apply in_or_app. auto. Qed.

Lemma in_counts (greedy : bool) (min max k : nat) :
  (min ≤ k ≤ max)%nat → In k (counts greedy min max).
Proof.
  intros Hk. unfold counts.
  destruct (Nat.ltb_spec max min); [lia|].
  destruct greedy; [apply -> in_rev|]; apply List.in_seq; lia.
Qed.

Lemma in_rep (greedy : bool) (min k : nat) (p : ascii → bool) (s : pos) (c : caps) :
  (min ≤ k ≤ span p (rest s))%nat → In (skip k s, c) (run (Rep greedy min p) s c).
Proof.
  intros Hk. simpl. apply in_map_iff. exists k. split; [done|].
  by apply in_counts.
Qed.

Lemma in_group (n : nat) (a : re) (s s' : pos) (c c' : caps) :
  In (s', c') (run a s c) →
  In (s', (n, consumed s s') :: c') (run (Group n a) s c).
Proof.
  intros H. simpl. apply in_map_iff. by exists (s', c').
Qed.

Lemma in_lit (eqc : ascii → ascii → bool) (l : list ascii) (s : pos) (c : caps) :
  prefix_match eqc l (rest s) = true →
  In (skip (length l) s, c) (run (lit_of eqc l) s c).
Proof. intros H. rewrite run_lit_of, H. by left. Qed.

(** *** The first match *)

Lemma first_seq (a b : re) (s s1 : pos) (c c1 : caps) (m : pos * caps) :
  first a s c = Some (s1, c1) → first b s1 c1 = Some m →
  first (Seq a b) s c = Some m.
Proof.
  unfold first. simpl. intros Ha Hb.
  destruct (run a s c) as [|x l]; [done|]. injection Ha as ->.
  simpl. destruct (run b s1 c1) as [|y l']; [done|]. by injection Hb as ->.
Qed.



Lemma first_opt_take (a : re) (s : pos) (c : caps) (m : pos * caps) :
  first a s c = Some m → first (Opt a) s c = Some m.
Proof. unfold first. simpl. by destruct (run a s c). Qed.

Lemma first_opt_skip (a : re) (s : pos) (c : caps) :
  run a s c = [] → first (Opt a) s c = Some (s, c).
Proof. unfold first. simpl. by intros ->. Qed.

Lemma first_group (n : nat) (a : re) (s s' : pos) (c c' : caps) :
  first a s c = Some (s', c') →
  first (Group n a) s c = Some (s', (n, consumed s s') :: c').
Proof.
  unfold first. simpl. destruct (run a s c) as [|x l]; [done|].
  by intros [= ->].
Qed.

Lemma counts_greedy (min max : nat) :
  (min ≤ max)%nat → head (counts true min max) = Some max.
Proof.
  intros Hle. unfold counts. destruct (Nat.ltb_spec max min); [lia|].
  replace (S max - min)%nat with (S (max - min)) by lia.
  rewrite seq_S, rev_app_distr. simpl. f_equal. lia.
Qed.

Lemma first_rep_greedy (min : nat) (p : ascii → bool) (s : pos) (c : caps) :
  (min ≤ span p (rest s))%nat →
  first (Rep true min p) s c = Some (skip (span p (rest s)) s, c).
Proof.
  intros Hle. unfold first. simpl.
  pose proof (counts_greedy min (span p (rest s)) Hle) as Hc.
  destruct (counts true min (span p (rest s))) as [|k l]; [done|].
  by injection Hc as ->.
Qed.

Lemma first_lit (eqc : ascii → ascii → bool) (l : list ascii) (s : pos) (c : caps) :
  prefix_match eqc l (rest s) = true →
  first (lit_of eqc l) s c = Some (skip (length l) s, c).
Proof. intros H. unfold first. by rewrite run_lit_of, H. Qed.


(** *** The search *)

Lemma search_first (r : re) (p : option ascii) (l : list ascii) (m : pos * caps) :
  first r {| prev := p; rest := l |} [] = Some m → search_from r p l = Some m.
Proof.
  unfold first. intros H. destruct l; simpl; unfold match_at; by rewrite H.
Qed.


Lemma exec_some (r : re) (text : list ascii) (m : pos * caps) :
  In m (run r {| prev := None; rest := text |} []) → exec r text ≠ None.
Proof.
  intros Hin. unfold exec.
  destruct (run r {| prev := None; rest := text |} []) as [|x l] eqn:Hrun;
    [done|].
  rewrite (search_first r None text x); [by destruct x|].
  unfold first. by rewrite Hrun.
Qed.

(** No match starts inside [pre] when [r] matches at none of the positions
    of [pre]. *)
Lemma search_skip (r : re) (ok : ascii → bool) (pre post : list ascii) (p : option ascii) :
  (∀ q ch t, ok ch = false → run r {| prev := q; rest := ch :: t |} [] = []) →
  forallb (λ ch, negb (ok ch)) pre = true →
  search_from r p (pre ++ post) = search_from r (last_prev p pre) post.
Proof.
  intros Hfail. revert p. induction pre as [|ch pre IH]; intros p Hpre; [done|].
  simpl in Hpre. apply andb_prop in Hpre as [Hch Hpre].
  cbn [app search_from last_prev]. unfold match_at.
  rewrite Hfail by (by destruct (ok ch)). simpl. by apply IH.
Qed.

End RegexFacts.

(** ** The parser *)

Module ParserFacts.
Import Regex RegexFacts Parser.

(** [P] spells the phrase [ph], in any mix of upper and lower case. *)
Definition spells (ph : string) (P : list ascii) : bool :=
  (length P =? length (chars ph))%nat && prefix_match Str.ci (chars ph) P.


Lemma prefix_match_app (eqc : ascii → ascii → bool) (l P t : list ascii) :
  length P = length l → prefix_match eqc l P = true →
  prefix_match eqc l (P ++ t) = true.
Proof.
  revert P. induction l as [|a l IH]; intros [|b P] Hlen H; simpl in *; try done.
  apply andb_prop in H as [-> H]. simpl. apply IH; [lia | done].
Qed.

Lemma spells_first (ph : string) (P t : list ascii) (p : option ascii) (c : caps) :
  spells ph P = true →
  first (lit_i ph) {| prev := p; rest := P ++ t |} c =
  Some ({| prev := last_prev p P; rest := t |}, c).
Proof.
  unfold spells. intros [Hlen H]%andb_prop. apply Nat.eqb_eq in Hlen.
  unfold lit_i. rewrite first_lit by (by apply prefix_match_app).
  by rewrite <- Hlen, skip_app.
Qed.

(** Splits [P], which spells a known phrase, into its characters. *)
Ltac explode P H :=
  unfold spells in H; cbn [chars list_ascii_of_string length] in H;
  repeat (destruct P as [|? P]; [discriminate H|]);
  destruct P; [|discriminate H];
  cbn [length Nat.eqb prefix_match andb] in H;
  repeat match type of H with
         | _ && _ = true => apply andb_prop in H; destruct H as [? H]
         end.





(** White space, then a name on one line. *)
Record spaced_name (W X R : list ascii) : Prop := {
  space_some : W ≠ [];
  space_all : forallb Str.is_space W = true;
  name_some : X ≠ [];
  name_start : stops Str.is_space X = true;
  name_line : forallb Str.is_dot X = true;
  line_end : stops Str.is_dot R = true;
}.

Lemma stops_app (p : ascii → bool) (X R : list ascii) :
  X ≠ [] → stops p X = true → stops p (X ++ R) = true.
Proof. by destruct X. Qed.

Lemma length_pos (A : list ascii) : A ≠ [] → (1 ≤ length A)%nat.
Proof. destruct A; [done | simpl; lia]. Qed.

(** [\s+(.+)] after a phrase: the white space is skipped and the group is
    the name up to the end of its line. *)
Lemma spaces_then_name (n : nat) (W X R : list ascii) (p : option ascii) (c : caps) :
  spaced_name W X R →
  first (Seq spaces1 (Group n any1)) {| prev := p; rest := W ++ X ++ R |} c =
  Some ({| prev := last_prev (last_prev p W) X; rest := R |}, (n, X) :: c).
Proof.
  intros [HW1 HW2 HX1 HX2 HX3 HR].
  eapply first_seq.
  - unfold spaces1. rewrite first_rep_greedy; cbn [rest];
      rewrite span_app by (done || by apply stops_app).
    + by rewrite skip_app.
    + by apply length_pos.
  - rewrite (first_group n any1 _ {| prev := last_prev (last_prev p W) X; rest := R |} c c).
    + by rewrite consumed_app.
    + unfold any1. rewrite first_rep_greedy; cbn [rest];
        rewrite span_app by done.
      * by rewrite skip_app.
      * by apply length_pos.
Qed.







(** A "what is" message reaches [INFO_REQUEST] when its name is followed by
    a further line, which [PRICE_QUERY] cannot cross. *)
Example what_is_on_two_lines :
  parseMessage (String.append "what is solana" (String (ascii_of_N 10) "please")) =
  INFO_REQUEST_ "solana" "solana".
Proof. vm_compute. reflexivity. Qed.

(** *** Adding a holding *)

(** The verbs of [ADD_HOLDING]. *)
Definition holding_verb (V : list ascii) : bool :=
  spells "i have" V || spells "i own" V || spells "add" V || spells "buy" V ||
  spells "bought" V.

(** An unsigned decimal literal: digits, and possibly a point and digits. *)
Inductive numeral : list ascii → Prop :=
| integer (I : list ascii) :
    I ≠ [] → forallb Str.is_digit I = true → numeral I
| decimal (I F : list ascii) :
    I ≠ [] → forallb Str.is_digit I = true →
    F ≠ [] → forallb Str.is_digit F = true →
    numeral (I ++ "."%char :: F).

Lemma first_in (r : re) (s : pos) (c : caps) (m : pos * caps) :
  first r s c = Some m → In m (run r s c).
Proof.
  unfold first. destruct (run r s c) as [|x l]; [done|].
  intros [= ->]. by left.
Qed.

Lemma space_not_digit (ch : ascii) :
  Str.is_space ch = true → Str.is_digit ch = false.
Proof. destruct ch as [[] [] [] [] [] [] [] []]; done. Qed.

Lemma space_not_point (ch : ascii) :
  Str.is_space ch = true → Str.ci "." ch = false.
Proof. destruct ch as [[] [] [] [] [] [] [] []]; done. Qed.

Lemma digit_not_space (ch : ascii) :
  Str.is_digit ch = true → Str.is_space ch = false.
Proof. destruct ch as [[] [] [] [] [] [] [] []]; done. Qed.

Lemma digit_is_dot (ch : ascii) :
  Str.is_digit ch = true → Str.is_dot ch = true.
Proof. destruct ch as [[] [] [] [] [] [] [] []]; done. Qed.

(** [\d+(?:\.\d+)?] reads a numeral that white space follows. *)
Lemma number_first (N W t : list ascii) (p : option ascii) (c : caps) :
  numeral N → W ≠ [] → forallb Str.is_space W = true →
  first number {| prev := p; rest := N ++ W ++ t |} c =
  Some ({| prev := last_prev p N; rest := W ++ t |}, c).
Proof.
  intros HN HW1 HW2.
  destruct W as [|w W]; [done|]. simpl in HW2.
  apply andb_prop in HW2 as [Hw HW2].
  unfold number. cbn [seqs].
  destruct HN as [I HI1 HI2 | I F HI1 HI2 HF1 HF2].
  - eapply first_seq.
    + unfold digits1. rewrite first_rep_greedy; cbn [rest].
      * rewrite span_app, skip_app; [done | done |].
        simpl. by rewrite space_not_digit.
      * rewrite span_app; [by apply length_pos | done |].
        simpl. by rewrite space_not_digit.
    + apply first_opt_skip. cbn [run rest app chr_i].
      by rewrite space_not_point.
  - rewrite <- app_assoc. cbn [app].
    eapply first_seq.
    + unfold digits1. rewrite first_rep_greedy; cbn [rest].
      * rewrite span_app, skip_app; [done | done | done].
      * rewrite span_app; [by apply length_pos | done | done].
    + apply first_opt_take. eapply first_seq.
      * unfold first, chr_i. cbn [run rest]. reflexivity.
      * unfold digits1. rewrite first_rep_greedy; cbn [rest].
        -- rewrite span_app, skip_app; [| done |].
           ++ f_equal. f_equal. f_equal.
              clear. revert p. induction I as [|i I IH]; intros p; [done|].
              simpl. apply IH.
           ++ simpl. by rewrite space_not_digit.
        -- rewrite span_app; [by apply length_pos | done |].
           simpl. by rewrite space_not_digit.
Qed.

(** The numeral, the white space and the name are what [HOLDING_INFO]
    finds when it starts at the numeral. *)
Lemma holding_info_first (N W X R : list ascii) (p : option ascii) :
  numeral N → spaced_name W X R →
  first HOLDING_INFO {| prev := p; rest := N ++ W ++ X ++ R |} [] =
  Some ({| prev := last_prev (last_prev (last_prev p N) W) X; rest := R |},
        [(2%nat, X); (1%nat, N)]).
Proof.
  intros HN HX. unfold HOLDING_INFO. cbn [seqs].
  eapply first_seq.
  - apply first_group. apply number_first; [done | apply HX | apply HX].
  - rewrite consumed_app. by apply spaces_then_name.
Qed.

Lemma lower_keeps_digit (ch : ascii) :
  Str.is_digit (Str.lower ch) = Str.is_digit ch.
Proof. destruct ch as [[] [] [] [] [] [] [] []]; done. Qed.

Lemma ci_lower (l ch : ascii) :
  Str.ci l ch = true → Str.lower ch = Str.lower l.
Proof.
  unfold Str.ci. destruct (_ || _)%bool; intros H%Ascii.eqb_eq; congruence.
Qed.

Lemma ci_digit (l ch : ascii) :
  Str.ci l ch = true → Str.is_digit ch = Str.is_digit (Str.lower l).
Proof.
  intros H. by rewrite <- (lower_keeps_digit ch), (ci_lower l ch H).
Qed.

Ltac no_digits :=
  cbn [forallb]; 
  repeat match goal with
         | H : Str.ci ?l ?ch = true |- context [Str.is_digit ?ch] =>
             rewrite (ci_digit l ch H)
         end; reflexivity.

Lemma verb_no_digit (V : list ascii) :
  holding_verb V = true → forallb (λ ch, negb (Str.is_digit ch)) V = true.
Proof.
  unfold holding_verb. intros H.
  repeat (apply orb_prop in H as [H | H0]; [|explode V H0; no_digits]).
  explode V H. no_digits.
Qed.

Lemma spaces_no_digit (W : list ascii) :
  forallb Str.is_space W = true →
  forallb (λ ch, negb (Str.is_digit ch)) W = true.
Proof.
  induction W as [|w W IH]; [done|]. simpl.
  intros [Hw HW]%andb_prop. by rewrite (space_not_digit w Hw), IH.
Qed.

(** [HOLDING_INFO] matches nowhere before a digit. *)
Lemma holding_info_needs_digit (q : option ascii) (ch : ascii) (t : list ascii) :
  Str.is_digit ch = false →
  run HOLDING_INFO {| prev := q; rest := ch :: t |} [] = [].
Proof.
  intros H. unfold HOLDING_INFO, number, digits1. cbn [seqs run rest span].
  by rewrite H.
Qed.

Lemma holding_info_match (V W1 N W2 X : list ascii) :
  holding_verb V = true → W1 ≠ [] → forallb Str.is_space W1 = true →
  numeral N → spaced_name W2 X [] →
  exec HOLDING_INFO (V ++ W1 ++ N ++ W2 ++ X) = Some [(2%nat, X); (1%nat, N)].
Proof.
  intros HV HW1 HW1' HN HX. unfold exec.
  rewrite <- (app_nil_r X) at 1.
  rewrite app_assoc.
  rewrite (search_skip HOLDING_INFO Str.is_digit (V ++ W1)).
  - by rewrite (search_first _ _ _ _ (holding_info_first N W2 X [] _ HN HX)).
  - intros q ch t H. by apply holding_info_needs_digit.
  - rewrite forallb_app, verb_no_digit, spaces_no_digit; done.
Qed.

Lemma verb_in (V t : list ascii) (c : caps) :
  holding_verb V = true →
  In ({| prev := last_prev None V; rest := t |}, c)
     (run (alts [lit_i "i have"; lit_i "i own"; lit_i "add"; lit_i "buy";
                 lit_i "bought"])
          {| prev := None; rest := V ++ t |} c).
Proof.
  unfold holding_verb. intros H. cbn [alts].
  apply orb_prop in H as [H | H5]; [apply orb_prop in H as [H | H4];
    [apply orb_prop in H as [H | H3]; [apply orb_prop in H as [H1 | H2]|]|]|].
  - apply in_alt_l, first_in. by apply spells_first.
  - apply in_alt_r, in_alt_l, first_in. by apply spells_first.
  - apply in_alt_r, in_alt_r, in_alt_l, first_in. by apply spells_first.
  - apply in_alt_r, in_alt_r, in_alt_r, in_alt_l, first_in. by apply spells_first.
  - apply in_alt_r, in_alt_r, in_alt_r, in_alt_r, first_in. by apply spells_first.
Qed.

Lemma spaces_first (W t : list ascii) (p : option ascii) (c : caps) :
  W ≠ [] → forallb Str.is_space W = true → stops Str.is_space t = true →
  first spaces1 {| prev := p; rest := W ++ t |} c =
  Some ({| prev := last_prev p W; rest := t |}, c).
Proof.
  intros HW1 HW2 Ht. unfold spaces1.
  rewrite first_rep_greedy; cbn [rest]; rewrite span_app by done.
  - by rewrite skip_app.
  - by apply length_pos.
Qed.

Lemma numeral_stops_space (N t : list ascii) :
  numeral N → stops Str.is_space (N ++ t) = true.
Proof.
  intros [I HI1 HI2 | I F HI1 HI2 _ _]; destruct I as [|i I]; try done;
    simpl in *; apply andb_prop in HI2 as [Hi _];
    by rewrite (digit_not_space i Hi).
Qed.

(** [ADD_HOLDING] matches a verb, a numeral and a name. *)
Lemma add_holding_matches (V W1 N W2 X : list ascii) :
  holding_verb V = true → W1 ≠ [] → forallb Str.is_space W1 = true →
  numeral N → spaced_name W2 X [] →
  exec ADD_HOLDING (V ++ W1 ++ N ++ W2 ++ X) ≠ None.
Proof.
  intros HV HW1 HW1' HN HX.
  pose proof HX as [HW2 HW2' HX1 HX2 HX3 _].
  rewrite <- (app_nil_r X).
  eapply exec_some. unfold ADD_HOLDING. cbn [seqs].
  eapply in_seq_re; [by apply verb_in|]. cbn [fst snd].
  eapply in_seq_re.
  { apply first_in, spaces_first; [done | done | by apply numeral_stops_space]. }
  cbn [fst snd].
  eapply in_seq_re.
  { apply first_in, first_group. by apply number_first. }
  cbn [fst snd].
  eapply in_seq_re.
  { apply first_in, spaces_first; [done | done | by apply stops_app]. }
  cbn [fst snd].
  eapply in_seq_re.
  { apply in_group. unfold any1_lazy.
    apply (in_rep false 1 (length X)). cbn [rest].
    rewrite span_app by done. split; [by apply length_pos | done]. }
  cbn [fst snd]. rewrite skip_app.
  eapply in_seq_re; [apply in_opt_skip|].
  cbn [fst snd run rest]. by left.
Qed.

(** When the trimmed message is a verb among "i have", "i own", "add", "buy"
    and "bought" (in any mix of cases), white space, an unsigned decimal
    numeral [N], white space, and a name [X] on one line, and none of the
    three price rules matches it, [parseMessage] returns the [ADD_HOLDING]
    intent with the amount [parseFloat(N)] and with [coinName] the alias of
    [extractCoinName(X)]; the two names for which the alias table answers
    with an inherited member are left aside. *)
Theorem add_holding_of_numeral (message : string) (V W1 N W2 X : list ascii) :
  Str.trim (chars message) = V ++ W1 ++ N ++ W2 ++ X →
  holding_verb V = true →
  W1 ≠ [] → forallb Str.is_space W1 = true →
  numeral N →
  spaced_name W2 X [] →
  str (extractCoinName X) ∉ inherited →
  exec PRICE_TRADING (V ++ W1 ++ N ++ W2 ++ X) = None →
  exec PRICE_QUERY (V ++ W1 ++ N ++ W2 ++ X) = None →
  exec PRICE_SIMPLE (V ++ W1 ++ N ++ W2 ++ X) = None →
  parseMessage message =
  ADD_HOLDING_ (parseFloat N)
               (normalizeCoinName (str (extractCoinName X)))
               (str (extractCoinName X)).
Proof.
  intros Htrim HV HW1 HW1' HN HX _ H1 H2 H3.
  unfold parseMessage. rewrite Htrim. cbv zeta. rewrite H1, H2, H3.
  unfold parse_tail.
  pose proof (add_holding_matches V W1 N W2 X HV HW1 HW1' HN HX) as Hadd.
  destruct (exec ADD_HOLDING (V ++ W1 ++ N ++ W2 ++ X)); [|done].
  unfold extractHoldingInfo.
  by rewrite (holding_info_match V W1 N W2 X HV HW1 HW1' HN HX).
Qed.

Lemma add_holding_of_numeral_witness :
  parseMessage "I have 2.5 ETH" =
  ADD_HOLDING_ (parseFloat (chars "2.5"))
               (normalizeCoinName (str (extractCoinName (chars "ETH"))))
               (str (extractCoinName (chars "ETH"))).
Proof.
  apply (add_holding_of_numeral "I have 2.5 ETH"
           (chars "I have") (chars " ") (chars "2.5") (chars " ") (chars "ETH"));
    try (vm_compute; reflexivity); try discriminate.
  - apply (decimal (chars "2") (chars "5")); (discriminate || reflexivity).
  - constructor; vm_compute; (reflexivity || discriminate).
  - apply (bool_decide_unpack _). vm_compute. reflexivity.
Defined.

Example two_and_a_half_ether :
  parseMessage "I have 2.5 ETH" = ADD_HOLDING_ (Fin (5 # 2)) "ethereum" "eth".
Proof. vm_compute. reflexivity. Qed.

(** C2. The message "I have 0 BTC" is parsed as an [ADD_HOLDING] intent
    with the amount 0, where an amount that is not positive should leave the
    rule: the digits of [\d+(?:\.\d+)?] spell zero as well, and nothing
    between the match and the intent tests the amount. *)
Lemma add_holding_accepts_zero :
  parseMessage "I have 0 BTC" = ADD_HOLDING_ (Fin 0) "bitcoin" "btc".
Proof. vm_compute. reflexivity. Qed.

(** A sign or a word in the place of the numeral leaves the cascade to its
    last rule. *)
Example signed_amount_falls_through :
  parseMessage "I have -5 BTC" = GENERAL_ "I have -5 BTC".
Proof. vm_compute. reflexivity. Qed.

Example worded_amount_falls_through :
  parseMessage "I have some BTC" = GENERAL_ "I have some BTC".
Proof. vm_compute. reflexivity. Qed.

(** A price rule wins over [ADD_HOLDING] when both match. *)
Example price_rule_first :
  parseMessage "I have 2 bitcoin price" = PRICE_QUERY_ "i have 2 bitcoin" "i have 2 bitcoin".
Proof. vm_compute. reflexivity. Qed.

(** *** "what is" on one line *)

(** [PRICE_QUERY] matches "what is", white space and a name that ends the
    text. *)
Lemma what_is_matches_price_query (P W X : list ascii) :
  spells "what is" P = true → spaced_name W X [] →
  exec PRICE_QUERY (P ++ W ++ X) ≠ None.
Proof.
  intros HP [HW1 HW2 HX1 HX2 HX3 _].
  rewrite <- (app_nil_r X).
  eapply exec_some. unfold PRICE_QUERY. cbn [seqs alts].
  eapply in_seq_re.
  { apply in_alt_r, in_alt_l.
    apply (in_lit Str.ci (chars "what is")). cbn [rest].
    unfold spells in HP. apply andb_prop in HP as [Hlen HP].
    apply Nat.eqb_eq in Hlen. by apply prefix_match_app. }
  cbn [fst snd].
  assert (Hlen : length (chars "what is") = length P).
  { unfold spells in HP. apply andb_prop in HP as [Hlen _].
    by apply Nat.eqb_eq in Hlen. }
  rewrite Hlen, skip_app.
  eapply in_seq_re.
  { apply first_in, spaces_first; [done | done | by apply stops_app]. }
  cbn [fst snd].
  eapply in_seq_re.
  { apply in_group. unfold any1_lazy.
    apply (in_rep false 1 (length X)). cbn [rest].
    rewrite span_app by done. split; [by apply length_pos | done]. }
  cbn [fst snd]. rewrite skip_app.
  eapply in_seq_re; [apply in_opt_skip|]. cbn [fst snd].
  eapply in_seq_re; [apply in_opt_skip|]. cbn [fst snd run rest].
  by left.
Qed.

(** A message "what is X" on one line is a price query: the rule
    [INFO_REQUEST] is never reached. *)
Theorem what_is_on_one_line_is_price_query (message : string) (P W X : list ascii) :
  Str.trim (chars message) = P ++ W ++ X →
  spells "what is" P = true →
  spaced_name W X [] →
  ∃ coinName originalCoinName,
    parseMessage message = PRICE_QUERY_ coinName originalCoinName.
Proof.
  intros Htrim HP HX. unfold parseMessage. rewrite Htrim. cbv zeta.
  destruct (exec PRICE_TRADING (P ++ W ++ X)); [eauto|].
  pose proof (what_is_matches_price_query P W X HP HX) as Hq.
  destruct (exec PRICE_QUERY (P ++ W ++ X)); [eauto | done].
Qed.

Lemma what_is_on_one_line_is_price_query_witness :
  ∃ coinName originalCoinName,
    parseMessage "What is Solana" = PRICE_QUERY_ coinName originalCoinName.
Proof.
  apply (what_is_on_one_line_is_price_query "What is Solana"
           (chars "What is") (chars " ") (chars "Solana"));
    try (vm_compute; reflexivity).
  constructor; vm_compute; (reflexivity || discriminate).
Defined.

(** *** The amount of every [ADD_HOLDING] intent *)

Lemma skip_length (k : nat) (s : pos) :
  length (rest (skip k s)) = (length (rest s) - k)%nat.
Proof.
  revert s. induction k as [|k IH]; intros [p l]; simpl.
  - destruct l; simpl; lia.
  - destruct l as [|ch l]; [done|]. rewrite IH. simpl. lia.
Qed.

(** A match never moves back in the input. *)
Lemma run_forward (r : re) (s s' : pos) (c c' : caps) :
  In (s', c') (run r s c) → (length (rest s') ≤ length (rest s))%nat.
Proof.
  revert s s' c c'.
  induction r as [p| |a IHa b IHb|a IHa b IHb|a IHa|g min p|n a IHa| | | |a IHa];
    intros s s' c c' Hin; simpl in Hin.
  - destruct s as [q [|ch t]]; simpl in *; [done|].
    destruct (p ch); [|done]. destruct Hin as [[= <- <-]|[]]. simpl. lia.
  - destruct Hin as [[= <- <-]|[]]. lia.
  - apply in_flat_map in Hin as ([s1 c1] & H1 & H2).
    apply IHa in H1. apply IHb in H2. simpl in *. lia.
  - apply in_app_or in Hin as [H | H]; eauto.
  - apply in_app_or in Hin as [H | [[= <- <-]|[]]]; eauto.
  - apply in_map_iff in Hin as (k & [= <- <-] & _). rewrite skip_length. lia.
  - apply in_map_iff in Hin as ([s1 c1] & [= <- <-] & H). eauto.
  - destruct (prev s); [done|]. destruct Hin as [[= <- <-]|[]]. lia.
  - destruct (rest s) eqn:E; [|done]. destruct Hin as [[= <- <-]|[]].
    rewrite E. simpl. lia.
  - destruct (xorb _ _); [|done]. destruct Hin as [[= <- <-]|[]]. lia.
  - destruct (run a s c); [|done]. destruct Hin as [[= <- <-]|[]]. lia.
Qed.

Lemma counts_in (greedy : bool) (min max k : nat) :
  In k (counts greedy min max) → (min ≤ k ≤ max)%nat.
Proof.
  unfold counts. destruct (Nat.ltb_spec max min); [done|].
  destruct greedy; [rewrite <- in_rev|]; rewrite List.in_seq; lia.
Qed.

Lemma search_from_some (r : re) (p : option ascii) (l : list ascii) (m : pos * caps) :
  search_from r p l = Some m → ∃ q l', In m (run r {| prev := q; rest := l' |} []).
Proof.
  revert p. induction l as [|ch l IH]; intros p; simpl; unfold match_at.
  - destruct (run r _ []) as [|x t] eqn:Hrun; simpl; [done|].
    intros [= <-]. exists p, []. rewrite Hrun. by left.
  - destruct (run r _ []) as [|x t] eqn:Hrun; simpl.
    + apply IH.
    + intros [= <-]. exists p, (ch :: l). rewrite Hrun. by left.
Qed.

(** What [HOLDING_INFO] captures as its first group starts with a digit. *)
Lemma holding_info_group (s s' : pos) (m : caps) :
  In (s', m) (run HOLDING_INFO s []) →
  ∃ ch t, group 1 m = ch :: t ∧ Str.is_digit ch = true.
Proof.
  unfold HOLDING_INFO, number. cbn [seqs]. intros Hin.
  cbn [run] in Hin.
  apply in_flat_map in Hin as ([s1 c1] & H1 & H2).
  apply in_map_iff in H1 as ([s0 c0] & [= <- <-] & H1).
  apply in_flat_map in H2 as ([s2 c2] & H2 & H3).
  apply in_map_iff in H2 as (k2 & [= <- <-] & _).
  apply in_map_iff in H3 as ([s3 c3] & [= <- <-] & H3).
  apply in_map_iff in H3 as (k3 & [= <- <-] & _).
  cbn [fst snd]. unfold group. cbn [get_cap Nat.eqb default].
  apply in_flat_map in H1 as ([sd cd] & Hd & Hopt).
  apply in_map_iff in Hd as (k & [= <- <-] & Hk). cbn [fst snd] in Hopt.
  apply counts_in in Hk.
  apply (run_forward (Opt (seqs [chr_i "."; digits1]))) in Hopt.
  rewrite skip_length in Hopt.
  destruct s as [q [|ch t]]; cbn [rest span] in *; [lia|].
  destruct (Str.is_digit ch) eqn:Hch; [|lia].
  unfold consumed. cbn [rest length] in *.
  destruct (S (length t) - length (rest s0))%nat as [|j] eqn:Hj; [lia|].
  exists ch, (take j t). done.
Qed.

Lemma digit_value_nonneg (ch : ascii) :
  Str.is_digit ch = true → 0 ≤ digit_value ch.
Proof.
  unfold Str.is_digit, digit_value.
  intros [H _]%andb_prop. apply N.leb_le in H. lia.
Qed.

Lemma digits_from_nonneg (l : list ascii) (acc : Z) :
  0 ≤ acc → forallb Str.is_digit l = true →
  0 ≤ fold_left (λ acc ch, 10 * acc + digit_value ch) l acc.
Proof.
  revert acc. induction l as [|ch l IH]; intros acc Hacc Hl; simpl in *; [done|].
  apply andb_prop in Hl as [Hch Hl]. apply IH; [|done].
  pose proof (digit_value_nonneg ch Hch). lia.
Qed.

Lemma digits_value_nonneg (l : list ascii) :
  forallb Str.is_digit l = true → 0 ≤ digits_value l.
Proof. intros Hl. unfold digits_value. by apply digits_from_nonneg. Qed.

Lemma take_span (p : ascii → bool) (l : list ascii) :
  forallb p (take (span p l) l) = true.
Proof.
  induction l as [|ch l IH]; [done|]. simpl.
  destruct (p ch) eqn:Hch; [|done]. simpl. by rewrite Hch, IH.
Qed.

(** [parseFloat] of a text that starts with a digit is a number that is not
    negative. *)
Lemma parseFloat_digit (ch : ascii) (t : list ascii) :
  Str.is_digit ch = true → ∃ q, parseFloat (ch :: t) = Fin q ∧ (0 <= q)%Q.
Proof.
  intros Hch. unfold parseFloat. cbn [span]. rewrite Hch. cbn [take drop].
  pose proof (take_span Str.is_digit t) as Ht.
  assert (Hint : 0 ≤ digits_value (ch :: take (span Str.is_digit t) t)).
  { apply digits_value_nonneg. simpl. by rewrite Hch, Ht. }
  destruct (drop (span Str.is_digit t) t) as [|dot l'].
  - eexists. split; [reflexivity|]. unfold Qle. simpl. lia.
  - destruct (Ascii.eqb dot "."); (eexists; split; [reflexivity|]).
    + rewrite Qred_correct. unfold Qle. simpl.
      assert (0 ≤ digits_value (ch :: take (span Str.is_digit t) t ++
                                take (span Str.is_digit l') l')); [|lia].
      apply digits_value_nonneg. simpl. rewrite forallb_app.
      by rewrite Hch, Ht, take_span.
    + unfold Qle. simpl. lia.
Qed.

(** Every [ADD_HOLDING] intent that [parseMessage] returns carries an amount
    that is neither [NaN] nor negative.  (A number of the model is a
    rational or [NaN]; JavaScript rounds the numeral to a double, and reads
    one beyond the range of the doubles as [Infinity].) *)
Lemma add_holding_amount_not_negative (message : string) (amount : num)
    (coinName originalCoinName : string) :
  parseMessage message = ADD_HOLDING_ amount coinName originalCoinName →
  ∃ q, amount = Fin q ∧ (0 <= q)%Q.
Proof.
  unfold parseMessage. cbv zeta.
  destruct (exec PRICE_TRADING _); [discriminate|].
  destruct (exec PRICE_QUERY _); [discriminate|].
  destruct (exec PRICE_SIMPLE _); [discriminate|].
  unfold parse_tail.
  destruct (exec ADD_HOLDING _);
    [destruct (extractHoldingInfo _) as [[a n]|] eqn:Hinfo|].
  - intros [= <- _ _]. unfold extractHoldingInfo, exec in Hinfo.
    destruct (search_from HOLDING_INFO None _) as [[s' m]|] eqn:Hs; [|done].
    injection Hinfo as <- _.
    apply search_from_some in Hs as (q & l' & Hin).
    apply holding_info_group in Hin as (ch & t & -> & Hch).
    by apply parseFloat_digit.
  - destruct (test PORTFOLIO_VALUE _); [discriminate|].
    destruct (test TRENDING _); [discriminate|].
    destruct (exec CHART_REQUEST _); [discriminate|].
    destruct (exec INFO_REQUEST _); [discriminate|].
    destruct (test HELP _); discriminate.
  - destruct (test PORTFOLIO_VALUE _); [discriminate|].
    destruct (test TRENDING _); [discriminate|].
    destruct (exec CHART_REQUEST _); [discriminate|].
    destruct (exec INFO_REQUEST _); [discriminate|].
    destruct (test HELP _); discriminate.
Qed.

End ParserFacts.

(** ** The response generator *)

Module GeneratorFacts.
Import Parser Generator.

#[local] Existing Instances M_ret M_bind.

Section Facts.

Variable W : Type.
Variable stringToNumber : string → num.
Variable objectToNumber : value → num.
Variable toString : value → string.
Variable localeString : value → string.
Variable toFixed2 : num → string.
Variable showNumber : num → string.
Variable cryptoAPI : Client W.
Variable portfolioHook : Hook W.

#[local] Abbreviation respond' :=
  (respond W stringToNumber objectToNumber toString localeString toFixed2
           showNumber cryptoAPI portfolioHook).
#[local] Abbreviation generateResponse' :=
  (generateResponse W stringToNumber objectToNumber toString localeString
                    toFixed2 showNumber cryptoAPI portfolioHook).

(** *** What is thrown *)

(** The thrown value is [undefined] or [null]. *)
Definition nullish (t : thrown) : Prop :=
  t = AValue VUndefined ∨ t = AValue VNull.













(** *** What is reported *)




(** A price query whose lookup throws an error is answered with the message
    of the error. *)
Lemma price_failure_reported (coinName originalCoinName : string) (e : Error) (w w1 : W) :
  getCurrentPrice W cryptoAPI coinName w = (Throws (AnError e), w1) →
  generateResponse' (PRICE_QUERY_ coinName originalCoinName) w =
  (Returns (error_reply e), w1).
Proof.
  intros H. unfold generateResponse, try_catch, respond.
  unfold mbind, M_bind. by rewrite H.
Qed.

(** A chart request for which the details fail and the search finds
    nothing ends in the error reply that names the input as typed. *)
Lemma chart_failure_names_input (coinName originalCoinName : string)
    (t : thrown) (w w1 w2 : W) :
  getCoinDetails W cryptoAPI coinName w = (Throws t, w1) →
  searchCoins W cryptoAPI originalCoinName w1 = (Returns (VArr []), w2) →
  generateResponse' (CHART_REQUEST_ coinName originalCoinName) w =
  (Returns (error_reply (chart_not_found originalCoinName)), w2).
Proof.
  intros Hd Hs. unfold generateResponse, try_catch, respond.
  unfold try_catch, mbind, M_bind. rewrite Hd.
  unfold chart_by_search, mbind, M_bind. rewrite Hs.
  reflexivity.
Qed.

End Facts.

(** A client of which every lookup fails and every search finds nothing. *)
Definition failing_client : Client unit :=
  {| getCurrentPrice := λ _, throw unit (mkError "Network error");
     getCoinDetails := λ _, throw unit (mkError "Network error");
     getHistoricalData := λ _ _, throw unit (mkError "Network error");
     getTrendingCoins := throw unit (mkError "Network error");
     searchCoins := λ _ w, (Returns (VArr []), w) |}.

Definition idle_hook : Hook unit :=
  {| addHolding := λ _ _ _ _ w, (Returns (), w);
     getPortfolioSummary := λ w, (Returns VUndefined, w) |}.

(** A string in a template stands for itself. *)
Definition shown (v : value) : string :=
  match v with
  | VStr s => s
  | _ => ""
  end.


Example network_error_reported :
  generateResponse unit (λ _, NaN) (λ _, NaN) shown (λ _, "") (λ _, "")
                   (λ _, "") failing_client idle_hook
                   (PRICE_QUERY_ "bitcoin" "btc") () =
  (Returns (apology "Network error"), ()).
Proof. reflexivity. Qed.




Lemma chart_failure_names_input_witness :
  generateResponse unit (λ _, NaN) (λ _, NaN) (λ _, "") (λ _, "") (λ _, "")
                   (λ _, "") failing_client idle_hook
                   (CHART_REQUEST_ "xyz" "xyz") () =
  (Returns (error_reply (chart_not_found "xyz")), ()).
Proof.
  apply (chart_failure_names_input unit (λ _, NaN) (λ _, NaN) (λ _, "")
           (λ _, "") (λ _, "") (λ _, "") failing_client idle_hook
           "xyz" "xyz" (AnError (mkError "Network error")) () () ());
    reflexivity.
Defined.

End GeneratorFacts.

(** ** The cache administration *)

Module CacheAdminFacts.
Import ApiManager CacheAdmin.

(** The entries that are younger than the time to live at [now]. *)
Definition fresh (now : Z) (c : gmap string CacheEntry) : gmap string CacheEntry :=
  filter (λ kv : string * CacheEntry, now - timestamp kv.2 < cacheTimeout) c.

(** The entries that have reached it. *)
Definition stale (now : Z) (c : gmap string CacheEntry) : gmap string CacheEntry :=
  filter (λ kv : string * CacheEntry, ¬ now - timestamp kv.2 < cacheTimeout) c.

(** The two counters of [getCacheStats] are the numbers of fresh and of
    stale entries. *)
Lemma stats_counters (now : Z) (c : gmap string CacheEntry) :
  map_fold (count_entry now) (0%nat, 0%nat) c =
  (size (fresh now c), size (stale now c)).
Proof.
  unfold fresh, stale.
  induction c as [|k e c Hk Hfold IH] using map_first_key_ind.
  - rewrite map_fold_empty, !map_filter_empty, !map_size_empty. done.
  - rewrite map_fold_insert_first_key by done. rewrite IH.
    unfold count_entry. simpl.
    destruct (Z.ltb_spec (now - timestamp e) cacheTimeout) as [Hlt|Hge].
    + rewrite map_filter_insert_True by done.
      rewrite (map_filter_insert_False (λ kv : string * CacheEntry, ¬ _)) by (simpl; lia).
      rewrite map_size_insert_None by (by rewrite map_lookup_filter_None; left).
      rewrite delete_id by done. done.
    + rewrite (map_filter_insert_True (λ kv : string * CacheEntry, ¬ _)) by (simpl; lia).
      rewrite map_filter_insert_False by (simpl; lia).
      rewrite map_size_insert_None by (by rewrite map_lookup_filter_None; left).
      rewrite delete_id by done. done.
Qed.

Lemma fresh_stale_size (now : Z) (c : gmap string CacheEntry) :
  size c = (size (fresh now c) + size (stale now c))%nat.
Proof.
  unfold fresh, stale.
  induction c as [|k e c Hk IH] using map_ind.
  - by rewrite !map_filter_empty, !map_size_empty.
  - rewrite map_size_insert_None by done.
    destruct (decide (now - timestamp e < cacheTimeout)) as [Hlt|Hge].
    + rewrite map_filter_insert_True by done.
      rewrite (map_filter_insert_False (λ kv : string * CacheEntry, ¬ _)) by (simpl; lia).
      rewrite map_size_insert_None by (by rewrite map_lookup_filter_None; left).
      rewrite delete_id by done. lia.
    + rewrite (map_filter_insert_True (λ kv : string * CacheEntry, ¬ _)) by done.
      rewrite map_filter_insert_False by done.
      rewrite map_size_insert_None by (by rewrite map_lookup_filter_None; left).
      rewrite delete_id by done. lia.
Qed.

(** What [cleanupCache] keeps is the fresh entries. *)
Lemma cleanup_fresh (now : Z) (am : t) :
  cache (cleanupCache now am) = fresh now (cache am).
Proof.
  unfold cleanupCache, fresh. simpl.
  apply map_filter_ext. intros k e _. simpl. lia.
Qed.

Lemma fresh_fresh (now : Z) (c : gmap string CacheEntry) :
  fresh now (fresh now c) = fresh now c.
Proof.
  unfold fresh. rewrite map_filter_filter.
  apply map_filter_ext. intros k e _. simpl. tauto.
Qed.

Lemma stale_fresh (now : Z) (c : gmap string CacheEntry) :
  stale now (fresh now c) = ∅.
Proof.
  unfold fresh, stale. rewrite map_filter_filter.
  apply map_empty_filter_2. intros k e _. simpl. tauto.
Qed.

(** The report of [getCacheStats] adds up: every entry of the cache is
    counted once, as valid or as expired. *)
Lemma cache_stats_add_up (now : Z) (am : t) :
  let s := getCacheStats now am in
  total s = getCacheSize am ∧ total s = (valid s + expired s)%nat.
Proof.
  unfold getCacheStats, getCacheSize. rewrite stats_counters. simpl.
  split; [done | apply fresh_stale_size].
Qed.

(** Right after a [cleanupCache], at the same reading of the clock,
    [getCacheStats] reports no expired entry, and as many valid entries as
    before the cleanup: the cleanup drops the expired entries and nothing
    else. *)
Theorem cleanup_drops_expired_only (now : Z) (am : t) :
  getCacheStats now (cleanupCache now am) =
  {| total := valid (getCacheStats now am);
     valid := valid (getCacheStats now am);
     expired := 0 |}.
Proof.
  unfold getCacheStats. rewrite !stats_counters, cleanup_fresh.
  rewrite fresh_fresh, stale_fresh, map_size_empty. done.
Qed.

(** A cleanup is invisible to the readers of the cache: a lookup at the
    time of the cleanup or later returns what it would have returned
    without it. *)
Theorem cleanup_invisible_to_lookups (now t' : Z) (key : string) (am : t) :
  now ≤ t' →
  fst (getFromCache key t' (cleanupCache now am)) = fst (getFromCache key t' am).
Proof.
  intros Hle. unfold getFromCache. rewrite cleanup_fresh. unfold fresh.
  destruct (cache am !! key) as [e|] eqn:He.
  - destruct (decide (now - timestamp e < cacheTimeout)) as [Hlt|Hge].
    + rewrite (map_lookup_filter_Some_2 _ _ key e) by done. simpl.
      by destruct (t' - timestamp e <? cacheTimeout).
    + assert (Hnone : filter (λ kv : string * CacheEntry,
                          now - timestamp kv.2 < cacheTimeout) (cache am) !! key = None).
      { apply map_lookup_filter_None. right. intros e' He'. simpl.
        rewrite He in He'. by injection He' as <-. }
      rewrite Hnone. simpl.
      destruct (Z.ltb_spec (t' - timestamp e) cacheTimeout); [lia | done].
  - assert (Hnone : filter (λ kv : string * CacheEntry,
                        now - timestamp kv.2 < cacheTimeout) (cache am) !! key = None).
    { apply map_lookup_filter_None. by left. }
    by rewrite Hnone.
Qed.

Lemma cleanup_invisible_to_lookups_witness :
  fst (getFromCache "k" 400000
         (cleanupCache 300000 (setCache "k" (VStr "v") 0 new))) =
  fst (getFromCache "k" 400000 (setCache "k" (VStr "v") 0 new)).
Proof.
  apply (cleanup_invisible_to_lookups 300000 400000 "k"). lia.
Defined.

End CacheAdminFacts.

(** ** The requests of the orchestration layer *)

Module RequestFacts.
Import ApiManager.

Lemma world_eta (w : World) : {| manager := manager w; sent := sent w |} = w.
Proof. by destruct w. Qed.

Lemma manager_eta (am : t) :
  {| cache := cache am; rateLimiter := rateLimiter am |} = am.
Proof. by destruct am. Qed.

(** A lookup never touches the rate limiter. *)
Lemma getFromCache_limiter (key : string) (now : Z) (am : t) :
  rateLimiter (snd (getFromCache key now am)) = rateLimiter am.
Proof.
  unfold getFromCache.
  destruct (cache am !! key) as [e|]; [|done].
  by destruct (now - timestamp e <? cacheTimeout).
Qed.

(** A lookup that returns a truthy value leaves the manager as it is. *)
Lemma getFromCache_hit (key : string) (now : Z) (am : t) :
  truthy (fst (getFromCache key now am)) = true →
  snd (getFromCache key now am) = am.
Proof.
  unfold getFromCache.
  destruct (cache am !! key) as [e|]; [|done].
  by destruct (now - timestamp e <? cacheTimeout).
Qed.

(** [handleRateLimit] never touches the cache. *)
Lemma handleRateLimit_cache (now : Z) (am : t) :
  cache (snd (handleRateLimit now am)) = cache am.
Proof.
  unfold handleRateLimit. by destruct (_ <=? _)%nat.
Qed.

Section Requests.

Variable createApiUrl : string → string → params → string.
Variable net : list string → string → transport.

#[local] Abbreviation makeRequest' := (makeRequest createApiUrl net).
#[local] Abbreviation searchCoins' := (searchCoins createApiUrl net).
#[local] Abbreviation axios_get' := (axios_get net).

Lemma axios_get_cache (fullUrl : string) (now : Z) (w : World) :
  cache (manager (snd (axios_get' fullUrl now w))) = cache (manager w).
Proof.
  unfold axios_get.
  pose proof (handleRateLimit_cache now (manager w)) as Hc.
  destruct (handleRateLimit now (manager w)) as [[e|] am]; simpl in *; [done|].
  by destruct (net (sent w) fullUrl).
Qed.

(** The way of a request through a cache that has a fresh, truthy entry
    under its key. *)
Lemma cache_hit (url : string) (p : params) (ck : Clock) (w : World)
    (e : CacheEntry) :
  cache (manager w) !! getCacheKey url p = Some e →
  at_lookup ck - timestamp e < cacheTimeout →
  truthy (data e) = true →
  makeRequest' url p true ck w = (Ok (data e), w).
Proof.
  intros He Hfresh Htruthy. unfold makeRequest, getFromCache.
  rewrite He.
  destruct (Z.ltb_spec (at_lookup ck - timestamp e) cacheTimeout) as [_|Hge];
    [|lia].
  simpl. rewrite Htruthy. by rewrite world_eta.
Qed.

(** A fresh cached answer costs nothing: when the cache holds, under the
    key of the request, a truthy answer younger than five minutes,
    [makeRequest] returns it and leaves everything as it is; no slot of
    the rate limiter is taken and nothing is dispatched. *)
Theorem cached_answer_costs_nothing (url : string) (p : params) (ck : Clock)
    (w : World) (e : CacheEntry) :
  cache (manager w) !! getCacheKey url p = Some e →
  at_lookup ck - timestamp e < 300000 →
  truthy (data e) = true →
  makeRequest' url p true ck w = (Ok (data e), w).
Proof.
  intros He Hfresh Htruthy. apply cache_hit; [done | | done].
  unfold cacheTimeout. lia.
Qed.

(** An answer fetched from the source is served from the cache afterwards:
    when a cached request found nothing usable in the cache and returned
    the truthy answer [d], the same request, looked up less than five
    minutes after the answer was stored, returns [d] again and changes
    nothing. *)
Theorem repeated_request_served_from_cache (url : string) (p : params)
    (ck1 ck2 : Clock) (w w1 : World) (d : value) :
  truthy (fst (getFromCache (getCacheKey url p) (at_lookup ck1) (manager w))) = false →
  makeRequest' url p true ck1 w = (Ok d, w1) →
  truthy d = true →
  at_lookup ck2 - at_store ck1 < 300000 →
  makeRequest' url p true ck2 w1 = (Ok d, w1).
Proof.
  intros Hmiss Hfirst Htruthy Hsoon.
  apply (cache_hit url p ck2 w1 {| data := d; timestamp := at_store ck1 |});
    [| unfold cacheTimeout; simpl; lia | done].
  unfold makeRequest in Hfirst.
  destruct (getFromCache (getCacheKey url p) (at_lookup ck1) (manager w))
    as [cachedData am1].
  simpl in Hmiss, Hfirst. rewrite Hmiss in Hfirst. simpl in Hfirst.
  destruct (axios_get' _ _ _) as [[d'|e'] w2]; [|done].
  simpl in Hfirst.
  destruct (truthy d') eqn:Hd'.
  - injection Hfirst as <- <-. simpl. apply lookup_insert_eq.
  - injection Hfirst as <- <-. congruence.
Qed.

(** A request that does not use the cache neither reads nor writes it. *)
Lemma uncached_request_keeps_cache (url : string) (p : params) (ck : Clock)
    (w : World) :
  cache (manager (snd (makeRequest' url p false ck w))) = cache (manager w).
Proof.
  unfold makeRequest. simpl.
  pose proof (axios_get_cache (createApiUrl baseUrl url p) (at_admit ck)
                {| manager := manager w; sent := sent w |}) as Hc.
  destruct (axios_get' _ _ _) as [[d|e] w2]; done.
Qed.

(** Search results are never cached: whatever the query and whatever the
    outcome, [searchCoins] leaves the cache as it found it. *)
Theorem search_never_cached (query : option string) (ck : Clock) (w : World) :
  cache (manager (snd (searchCoins' query ck w))) = cache (manager w).
Proof.
  unfold searchCoins. destruct query as [q|]; [|done].
  destruct (_ || _); [done|].
  apply uncached_request_keeps_cache.
Qed.

(** When the limiter already holds fifty requests of the last minute, a
    request that the cache cannot answer is rejected with the message of
    the limiter behind the prefix of [handleApiError], and nothing is
    dispatched. *)
Theorem refused_request_sends_nothing (url : string) (p : params)
    (useCache : bool) (ck : Clock) (w : World) :
  (50 ≤ size (clean (at_admit ck - 60000) (rateLimiter (manager w))))%nat →
  (useCache = true →
   truthy (fst (getFromCache (getCacheKey url p) (at_lookup ck) (manager w))) = false) →
  fst (makeRequest' url p useCache ck w) =
    Throw (mkError "Error: Rate limit exceeded. Please wait before making more requests.") ∧
  sent (snd (makeRequest' url p useCache ck w)) = sent w.
Proof.
  intros Hfull Hmiss. unfold makeRequest.
  assert (Hstep : ∀ am1, rateLimiter am1 = rateLimiter (manager w) →
            axios_get' (createApiUrl baseUrl url p) (at_admit ck)
              {| manager := am1; sent := sent w |} =
            (Throw (mkError "Error: Rate limit exceeded. Please wait before making more requests."),
             {| manager := {| cache := cache am1;
                              rateLimiter := clean (at_admit ck - 60000) (rateLimiter am1) |};
                sent := sent w |})).
  { intros am1 Hrl. unfold axios_get, handleRateLimit. cbn [manager sent].
    rewrite Hrl.
    destruct (Nat.leb_spec maxRequestsPerMinute
                (size (clean (at_admit ck - 60000) (rateLimiter (manager w)))))
      as [_|Hlt]; [reflexivity|].
    unfold maxRequestsPerMinute in Hlt. lia. }
  destruct useCache.
  - specialize (Hmiss eq_refl).
    pose proof (getFromCache_limiter (getCacheKey url p) (at_lookup ck) (manager w)) as Hrl.
    destruct (getFromCache (getCacheKey url p) (at_lookup ck) (manager w))
      as [cachedData am1].
    simpl in Hmiss, Hrl. rewrite Hmiss. simpl.
    by rewrite (Hstep am1 Hrl).
  - simpl. by rewrite (Hstep (manager w) eq_refl).
Qed.

(** Nothing leaves for the network without a slot of the rate limiter: a
    [makeRequest] dispatches at most one request, the one for its own url,
    and when it does, the limiter holds the time of the admission. *)
Theorem dispatch_takes_a_slot (url : string) (p : params) (useCache : bool)
    (ck : Clock) (w : World) :
  let w' := snd (makeRequest' url p useCache ck w) in
  sent w' = sent w ∨
  (sent w' = createApiUrl baseUrl url p :: sent w ∧
   rateLimiter (manager w') !! at_admit ck = Some true).
Proof.
  cbv zeta. unfold makeRequest.
  destruct (if useCache
            then getFromCache (getCacheKey url p) (at_lookup ck) (manager w)
            else (VUndefined, manager w)) as [cachedData am1].
  destruct (useCache && truthy cachedData); [by left|].
  unfold axios_get, handleRateLimit. cbn [manager sent].
  destruct (maxRequestsPerMinute <=? _)%nat; [by left|].
  right.
  destruct (net (sent w) (createApiUrl baseUrl url p)) as [d| | |];
    try (split; [reflexivity | apply lookup_insert_eq]).
  destruct (useCache && truthy d);
    (split; [reflexivity | apply lookup_insert_eq]).
Qed.

End Requests.

Definition echo (sent : list string) (url : string) : transport :=
  Response (VStr url).

Definition plain_url (base endpoint : string) (p : params) : string :=
  base +:+ endpoint.

Lemma cached_answer_costs_nothing_witness :
  makeRequest plain_url echo "/global" [] true (mkClock 1000 1000 1000)
    (mkWorld (setCache (getCacheKey "/global" []) (VStr "cached") 0 new) []) =
  (Ok (VStr "cached"),
   mkWorld (setCache (getCacheKey "/global" []) (VStr "cached") 0 new) []).
Proof.
  apply (cached_answer_costs_nothing plain_url echo "/global" [] (mkClock 1000 1000 1000)
           (mkWorld (setCache (getCacheKey "/global" []) (VStr "cached") 0 new) [])
           {| data := VStr "cached"; timestamp := 0 |});
    [reflexivity | simpl; lia | reflexivity].
Defined.

Lemma repeated_request_served_from_cache_witness :
  let w1 := snd (makeRequest plain_url echo "/global" [] true (mkClock 0 1 2)
                   (mkWorld new [])) in
  makeRequest plain_url echo "/global" [] true (mkClock 1000 1001 1002) w1 =
  (Ok (VStr "https://api.coingecko.com/api/v3/global"), w1).
Proof.
  apply (repeated_request_served_from_cache plain_url echo "/global" []
           (mkClock 0 1 2) (mkClock 1000 1001 1002) (mkWorld new []));
    [reflexivity | reflexivity | reflexivity | simpl; lia].
Defined.

(** A limiter that holds the fifty requests of the milliseconds 1 to 50. *)
Definition full_manager : t :=
  {| cache := ∅;
     rateLimiter := list_to_map ((λ n, (Z.of_nat n, true)) <$> seq 1 50) |}.

Lemma refused_request_sends_nothing_witness :
  fst (makeRequest plain_url echo "/global" [] true (mkClock 100 100 100)
         (mkWorld full_manager [])) =
    Throw (mkError "Error: Rate limit exceeded. Please wait before making more requests.") ∧
  sent (snd (makeRequest plain_url echo "/global" [] true (mkClock 100 100 100)
              (mkWorld full_manager []))) = [].
Proof.
  apply (refused_request_sends_nothing plain_url echo "/global" [] true
           (mkClock 100 100 100) (mkWorld full_manager [])).
  - vm_compute. lia.
  - reflexivity.
Defined.

End RequestFacts.

(** ** The direct client *)

Module ClientFacts.
Import CryptoAPI Endpoints.

(** A request that the limiter of the direct client refuses is reported
    as a network error: the rejection of the request interceptor carries no
    response, and the response interceptor takes it for a failure of the
    network.  Nothing is dispatched. *)
Theorem refusal_reported_as_network_error {A} (path : string) (now now' : Z)
    (answer : transport A) (c : Client) :
  fst (RateLimiter.canMakeRequest now (limiter c)) = false →
  fst (api_get path now now' answer c) =
    Throw (mkError "Network error. Please check your internet connection.") ∧
  dispatched (snd (api_get path now now' answer c)) = dispatched c.
Proof.
  intros Hfull. unfold api_get, RateLimiter.intercept.
  destruct (RateLimiter.canMakeRequest now (limiter c)) as [ok rl].
  simpl in Hfull. subst ok. simpl. done.
Qed.

(** A client whose limiter holds ten requests of the last second. *)
Definition busy : Client :=
  {| limiter := {| RateLimiter.maxRequests := 10; RateLimiter.windowMs := 60000;
                   RateLimiter.requests := [1; 2; 3; 4; 5; 6; 7; 8; 9; 10] |};
     dispatched := [] |}.

Lemma refusal_reported_as_network_error_witness :
  fst (api_get "/search" 1000 1000 (Response VNull) busy) =
    Throw (mkError "Network error. Please check your internet connection.") ∧
  dispatched (snd (api_get "/search" 1000 1000 (Response VNull) busy)) = [].
Proof.
  apply (refusal_reported_as_network_error "/search" 1000 1000 (Response VNull) busy).
  reflexivity.
Defined.

(** *** [searchCoins] *)

(** No letter a to z. *)
Definition no_small_letter (s : string) : Prop :=
  Forall (λ c, ¬ (97 ≤ N_of_ascii c ≤ 122)%N) (list_ascii_of_string s).

Lemma upper_no_small (c : ascii) :
  ¬ (97 ≤ N_of_ascii (Str.upper c) ≤ 122)%N.
Proof.
  destruct c as [[] [] [] [] [] [] [] []]; vm_compute; intros [H1 H2];
    first [by apply H1 | by apply H2].
Qed.

Lemma toUpperCase_no_small (s : string) : no_small_letter (Str.toUpperCase s).
Proof.
  unfold no_small_letter. induction s as [|c s IH]; simpl; constructor.
  - apply upper_no_small.
  - exact IH.
Qed.

(** The symbol of a result or of a coin's details: a string without small
    letters. *)
Definition symbol_in_capitals (r : value) : Prop :=
  ∃ s, Generator.get r "symbol" = Ok (VStr s) ∧ no_small_letter s.

Lemma and_then_ok {A B} (r : result A) (f : A → result B) (b : B) :
  and_then r f = Ok b → ∃ a, r = Ok a ∧ f a = Ok b.
Proof. destruct r as [a|e]; [eauto | done]. Qed.

Lemma call_toUpperCase_ok (what : string) (v r : value) :
  call_toUpperCase what v = Ok r → ∃ s, r = VStr s ∧ no_small_letter s.
Proof.
  destruct v; try done. intros [= <-].
  eexists. split; [done | apply toUpperCase_no_small].
Qed.

Lemma search_result_symbol (coin r : value) :
  search_result coin = Ok r → symbol_in_capitals r.
Proof.
  unfold search_result. intros H.
  apply and_then_ok in H as (id & _ & H).
  apply and_then_ok in H as (name & _ & H).
  apply and_then_ok in H as (symbol & Hs & H).
  injection H as <-.
  apply call_toUpperCase_ok in Hs as (s & -> & Hs).
  by exists s.
Qed.

Lemma map_result_ok {A B} (f : A → result B) (l : list A) (bs : list B) :
  map_result f l = Ok bs → Forall2 (λ a b, f a = Ok b) l bs.
Proof.
  revert bs. induction l as [|a l IH]; intros bs H; simpl in H.
  - injection H as <-. constructor.
  - apply and_then_ok in H as (b & Hb & H).
    apply and_then_ok in H as (bs' & Hbs & H).
    injection H as <-. constructor; [done | by apply IH].
Qed.

(** A search returns at most ten results, each with its symbol in
    capitals. *)
Theorem search_returns_at_most_ten (query : string) (now now' : Z)
    (answer : transport value) (c : Client) (v : value) :
  fst (searchCoins query now now' answer c) = Ok v →
  ∃ results, v = VArr results ∧ (length results ≤ 10)%nat ∧
             Forall symbol_in_capitals results.
Proof.
  unfold searchCoins. intros H.
  destruct (api_get "/search" now now' answer c) as [[data|e] c']; [|done].
  simpl in H. unfold search_results in H.
  apply and_then_ok in H as (coins & _ & H).
  apply and_then_ok in H as (top & Htop & H).
  apply and_then_ok in H as (results & Hres & H).
  injection H as <-. exists results. split; [done|].
  apply map_result_ok in Hres.
  split.
  - rewrite <- (Forall2_length _ _ _ Hres).
    destruct coins; try done. injection Htop as <-.
    rewrite length_take. lia.
  - clear Htop. induction Hres as [|a b l bs Hab _ IH]; constructor; [|done].
    by apply (search_result_symbol a).
Qed.

Definition two_coins : value :=
  VObj [("coins",
         VArr [ VObj [("id", VStr "bitcoin"); ("name", VStr "Bitcoin");
                      ("symbol", VStr "btc")];
                VObj [("id", VStr "bitcoin-cash"); ("name", VStr "Bitcoin Cash");
                      ("symbol", VStr "bch")] ])].

Lemma search_returns_at_most_ten_witness :
  ∃ results,
    VArr [ VObj [("id", VStr "bitcoin"); ("name", VStr "Bitcoin");
                 ("symbol", VStr "BTC"); ("rank", VUndefined);
                 ("thumb", VUndefined)];
           VObj [("id", VStr "bitcoin-cash"); ("name", VStr "Bitcoin Cash");
                 ("symbol", VStr "BCH"); ("rank", VUndefined);
                 ("thumb", VUndefined)] ] = VArr results ∧
    (length results ≤ 10)%nat ∧ Forall symbol_in_capitals results.
Proof.
  apply (search_returns_at_most_ten "bitcoin" 0 0 (Response two_coins) new).
  reflexivity.
Defined.

(** What lies beyond the tenth entry of the response is never read: two
    responses whose lists of coins agree on the first ten entries give the
    same outcome, whatever follows them. *)
Lemma search_reads_first_ten_only (query : string) (now now' : Z)
    (data data' : value) (front back back' : list value) (c : Client) :
  Generator.get data "coins" = Ok (VArr (front ++ back)) →
  Generator.get data' "coins" = Ok (VArr (front ++ back')) →
  length front = 10%nat →
  searchCoins query now now' (Response data) c =
  searchCoins query now now' (Response data') c.
Proof.
  intros Hd Hd' Hlen. unfold searchCoins, api_get.
  destruct (RateLimiter.intercept now now' (limiter c)) as [[e|] rl]; [done|].
  unfold search_results. rewrite Hd, Hd'.
  unfold mbind, result_bind, and_then, slice10.
  rewrite !take_app_length' by done. done.
Qed.

(** *** [getCoinDetails] *)

Fixpoint dot_free (s : string) : Prop :=
  match s with
  | EmptyString => True
  | String c rest => c ≠ "."%char ∧ dot_free rest
  end.

Lemma before_dot_free (s : string) : dot_free (before_dot s).
Proof.
  induction s as [|c s IH]; simpl; [done|].
  destruct (Ascii.eqb_spec c "."); simpl; [done | by split].
Qed.

Lemma describe_shape (x : option string) :
  (∀ s, x = Some s → dot_free s) →
  ∃ s, describe x = s +:+ "." ∧ dot_free s.
Proof.
  intros Hx. unfold describe.
  assert (Hne : ∀ s, String.eqb (s +:+ ".") "" = false).
  { intros s. by destruct s. }
  destruct x as [s|].
  - rewrite Hne. exists s. split; [done | by apply Hx].
  - exists "undefined". split; [done|]. simpl. repeat split; done.
Qed.

(** The description that [getCoinDetails] returns is always one sentence
    closed by a full stop: a text without a full stop, followed by one.  It
    is never empty, so the alternative text behind [||] is never used; for
    a coin without a description the sentence is the word [undefined]. *)
Theorem details_description_shape (coinId : string) (now now' : Z)
    (answer : transport value) (c : Client) (details : value) :
  fst (getCoinDetails coinId now now' answer c) = Ok details →
  ∃ s, Generator.get details "description" = Ok (VStr (s +:+ ".")) ∧ dot_free s.
Proof.
  unfold getCoinDetails. intros H.
  destruct (api_get _ now now' answer c) as [[coin|e] c']; [|done].
  simpl in H. unfold coin_details in H.
  apply and_then_ok in H as (id & _ & H).
  apply and_then_ok in H as (name & _ & H).
  apply and_then_ok in H as (symbol & _ & H).
  apply and_then_ok in H as (sentence & Hs & H).
  injection H as <-.
  destruct (describe_shape sentence) as (s & Hd & Hfree).
  - intros s ->. unfold first_sentence in Hs.
    destruct (opt_prop (prop coin "description") "en"); try done.
    injection Hs as <-. apply before_dot_free.
  - exists s. split; [|done]. simpl. by rewrite Hd.
Qed.

Definition bare_coin : value :=
  VObj [("id", VStr "pepe"); ("name", VStr "Pepe"); ("symbol", VStr "pepe")].

Lemma details_description_shape_witness :
  ∃ s, Generator.get
         (VObj [ ("id", VStr "pepe"); ("name", VStr "Pepe"); ("symbol", VStr "PEPE");
                 ("description", VStr "undefined.");
                 ("currentPrice", VUndefined); ("marketCap", VUndefined);
                 ("change24h", VUndefined); ("volume24h", VUndefined);
                 ("rank", VUndefined); ("image", VUndefined) ])
         "description" = Ok (VStr (s +:+ ".")) ∧ dot_free s.
Proof.
  apply (details_description_shape "pepe" 0 0 (Response bare_coin) new).
  reflexivity.
Defined.

End ClientFacts.

(** ** The ledger as a whole *)

Module LedgerFacts.
Import Portfolio Ledger.

Lemma state_eta (st : State) :
  {| holdings := holdings st; portfolioValue := portfolioValue st;
     loading := loading st; error := error st |} = st.
Proof. by destruct st. Qed.

Lemma filter_all {A} (P : A → Prop) `{∀ x, Decision (P x)} (l : list A) :
  Forall P l → filter P l = l.
Proof.
  induction 1 as [|x l Hx _ IH]; [done|].
  by rewrite filter_cons_True, IH.
Qed.

(** Removing the holding that an add has just made restores the ledger,
    provided that the add made a new holding and that no older holding
    carries the same id, the time of the add in milliseconds. *)
Theorem remove_undoes_fresh_add (cid name symbol : string) (amt : num)
    (now : Z) (st : State) :
  cid ∉ coinId <$> holdings st →
  pretty now ∉ id <$> holdings st →
  removeHolding (pretty now) (addHolding cid name symbol amt now st) = st.
Proof.
  intros Hcoin Hid. unfold removeHolding, addHolding. simpl.
  rewrite (PortfolioFacts.add_fresh cid name symbol amt now) by done.
  rewrite filter_app, filter_cons_False, filter_nil, app_nil_r by (simpl; tauto).
  rewrite filter_all; [apply state_eta|].
  apply Forall_forall. intros h Hin Heq. apply Hid. rewrite <- Heq.
  apply list_elem_of_fmap. by exists h.
Qed.

Lemma remove_undoes_fresh_add_witness :
  removeHolding (pretty 1000%Z)
    (addHolding "bitcoin" "Bitcoin" "btc" (Fin 1) 1000 init) = init.
Proof.
  apply (remove_undoes_fresh_add "bitcoin" "Bitcoin" "btc" (Fin 1) 1000 init);
    simpl; apply not_elem_of_nil.
Defined.

(** After [addHolding] for a coin, [getHolding] finds a holding of that
    coin, and its amount is the amount of the add, on top of what was held
    before if the coin was held. *)
Theorem getHolding_after_add (cid name symbol : string) (amt : num) (now : Z)
    (st : State) :
  ∃ h, getHolding cid (addHolding cid name symbol amt now st) = Some h ∧
       coinId h = cid ∧
       amount h = match getHolding cid st with
                  | Some before => Num.add (amount before) amt
                  | None => amt
                  end.
Proof.
  unfold getHolding, addHolding, addHolding_update. simpl.
  destruct (list_find (λ h, coinId h = cid) (holdings st)) as [[i h0]|] eqn:Hfind.
  - apply list_find_Some in Hfind as (Hi & Hh & Hbefore). cbn [fmap option_fmap option_map snd].
    assert (Hfind' :
      list_find (λ h, coinId h = cid)
        (<[i := {| id := id h0; coinId := coinId h0; coinName := coinName h0;
                   coinSymbol := coinSymbol h0; amount := Num.add (amount h0) amt;
                   currentPrice := currentPrice h0; currentValue := currentValue h0;
                   change24h := change24h h0; addedAt := addedAt h0;
                   lastUpdated := now |}]> (holdings st)) =
      Some (i, {| id := id h0; coinId := coinId h0; coinName := coinName h0;
                  coinSymbol := coinSymbol h0; amount := Num.add (amount h0) amt;
                  currentPrice := currentPrice h0; currentValue := currentValue h0;
                  change24h := change24h h0; addedAt := addedAt h0;
                  lastUpdated := now |})).
    { apply list_find_Some. split_and!.
      - apply list_lookup_insert_eq. by eapply lookup_lt_Some.
      - done.
      - intros j y Hj Hlt. rewrite list_lookup_insert_ne in Hj by lia.
        by apply (Hbefore j). }
    rewrite Hfind'. eexists. split; [reflexivity|]. split; [exact Hh | reflexivity].
  - simpl.
    assert (Hnot : cid ∉ coinId <$> holdings st).
    { intros Hin. apply list_elem_of_fmap in Hin as (h & Hh & Hin).
      apply list_find_None in Hfind. rewrite Forall_forall in Hfind.
      by apply (Hfind h). }
    rewrite (PortfolioFacts.find_appended cid) by done. simpl.
    eexists. split; [reflexivity|]. done.
Qed.

(** *** Each coin once *)

Lemma filter_keeps_NoDup (P : Holding → Prop) `{∀ h, Decision (P h)}
    (hs : list Holding) :
  NoDup (coinId <$> hs) → NoDup (coinId <$> filter P hs).
Proof.
  intros Hnd. apply (sublist_NoDup _ (coinId <$> hs)); [exact Hnd|].
  apply fmap_sublist, sublist_filter.
Qed.

Lemma map_keeps_coin_ids (f : Holding → Holding) (hs : list Holding) :
  (∀ h, coinId (f h) = coinId h) → coinId <$> map f hs = coinId <$> hs.
Proof.
  intros Hf. induction hs as [|h hs IH]; [done|].
  simpl. f_equal; [apply Hf | exact IH].
Qed.

Lemma revalue_coinId (prices : gmap string PriceData) (now : Z) (h : Holding) :
  coinId (revalue prices now h) = coinId h.
Proof. unfold revalue. by destruct (prices !! coinId h). Qed.

Lemma step_keeps_NoDup (st : State) (a : Action) :
  NoDup (coinId <$> holdings st) → NoDup (coinId <$> holdings (step st a)).
Proof.
  intros Hnd. destruct a as [cid name symbol amt now|hid|hid n now| |now answer]; simpl.
  - rewrite PortfolioFacts.add_coin_ids. case_decide; [done|].
    apply NoDup_app. split_and!; [done| |apply NoDup_singleton].
    intros x Hx Hx'. apply list_elem_of_singleton in Hx'. by subst.
  - by apply filter_keeps_NoDup.
  - unfold updateHolding. destruct (le_zero n); simpl.
    + by apply filter_keeps_NoDup.
    + rewrite map_keeps_coin_ids; [done|].
      intros h. by case_decide.
  - apply NoDup_nil_2.
  - unfold calculatePortfolioValue.
    destruct (holdings st) as [|h hs] eqn:Hhs; [done|].
    destruct answer as [prices|e]; cbn [holdings]; [|done].
    rewrite map_keeps_coin_ids; [done|].
    intros h'. apply revalue_coinId.
Qed.

(** The ledger never lists a coin twice: whatever the user does, in
    whatever order (adds, removals, updates, clearing, valuations with any
    outcome, each taken as one step), a ledger that holds each coin at most
    once keeps doing so. *)
Theorem ledger_lists_each_coin_once (actions : list Action) (st : State) :
  NoDup (coinId <$> holdings st) →
  NoDup (coinId <$> holdings (replay actions st)).
Proof.
  unfold replay. revert st.
  induction actions as [|a actions IH]; intros st Hnd; [done|].
  simpl. apply IH. by apply step_keeps_NoDup.
Qed.

Lemma ledger_lists_each_coin_once_witness :
  NoDup (coinId <$> holdings
           (replay [ Add "bitcoin" "Bitcoin" "btc" (Fin 1) 1000;
                     Add "ethereum" "Ethereum" "eth" (Fin 2) 2000;
                     Add "bitcoin" "Bitcoin" "btc" (Fin 3) 3000;
                     Update "1000" (Fin 5) 4000;
                     Remove "2000" ] init)).
Proof.
  apply (ledger_lists_each_coin_once
           [ Add "bitcoin" "Bitcoin" "btc" (Fin 1) 1000;
             Add "ethereum" "Ethereum" "eth" (Fin 2) 2000;
             Add "bitcoin" "Bitcoin" "btc" (Fin 3) 3000;
             Update "1000" (Fin 5) 4000;
             Remove "2000" ] init).
  simpl. apply NoDup_nil_2.
Defined.

(** *** Valuations *)

(** What a holding is: its id, its coin and its amount. *)
Definition position (h : Holding) : string * string * num :=
  (id h, coinId h, amount h).

(** A valuation never changes what is held: whatever the source answers,
    the ids, the coins and the amounts of the holdings, and their order,
    are those of before. *)
Lemma valuation_keeps_positions (now : Z)
    (answer : result (gmap string PriceData)) (st : State) :
  position <$> holdings (calculatePortfolioValue now answer st) =
  position <$> holdings st.
Proof.
  unfold calculatePortfolioValue.
  destruct (holdings st) as [|h hs] eqn:Hhs; [done|].
  destruct answer as [prices|e]; cbn [holdings]; [|done].
  generalize (h :: hs). intros l.
  induction l as [|x l IH]; [done|]. simpl. f_equal; [|exact IH].
  unfold revalue, position. by destruct (prices !! coinId x).
Qed.

(** The total of the values of the holdings, added in their order. *)
Definition total_of_values (hs : list Holding) : num :=
  fold_left Num.add (map (λ h, Num.of_option (currentValue h)) hs) (Num.of_Z 0).

Lemma pass_total_values (prices : gmap string PriceData) (now : Z)
    (hs : list Holding) (acc : num) :
  Forall (λ h, is_Some (prices !! coinId h)) hs →
  pass_total_from acc prices hs =
  fold_left Num.add
    (map (λ h, Num.of_option (currentValue h)) (map (revalue prices now) hs)) acc.
Proof.
  intros Hall. revert acc.
  induction Hall as [|h hs [pd Hpd] _ IH]; intros acc; [done|].
  simpl. unfold revalue at 2. rewrite Hpd. simpl. apply IH.
Qed.

(** After a valuation in which the source had a price for every coin of
    the ledger, the stored portfolio value is the sum of the values of the
    holdings. *)
Theorem valuation_total_is_sum_of_values (now : Z)
    (prices : gmap string PriceData) (st : State) :
  Forall (λ h, is_Some (prices !! coinId h)) (holdings st) →
  let st' := calculatePortfolioValue now (Ok prices) st in
  portfolioValue st' = total_of_values (holdings st').
Proof.
  intros Hall. simpl. unfold calculatePortfolioValue, total_of_values.
  destruct (holdings st) as [|h hs] eqn:Hhs; [done|].
  cbn [holdings portfolioValue].
  by apply pass_total_values.
Qed.

Definition one_bitcoin : State :=
  addHolding "bitcoin" "Bitcoin" "btc" (Fin 1) 1000 init.

Definition bitcoin_at_100 : gmap string PriceData :=
  {[ "bitcoin" := {| usd := Some (Fin 100); usd_24h_change := Some (Fin 10) |} ]}.

Lemma valuation_total_is_sum_of_values_witness :
  let st' := calculatePortfolioValue 2000 (Ok bitcoin_at_100) one_bitcoin in
  portfolioValue st' = total_of_values (holdings st').
Proof.
  apply (valuation_total_is_sum_of_values 2000 bitcoin_at_100 one_bitcoin).
  repeat constructor. by exists {| usd := Some (Fin 100); usd_24h_change := Some (Fin 10) |}.
Defined.

(** *** An amount of zero

    The intent of "I have 0 BTC" makes [addHolding] store a holding whose
    amount is 0; [updateHolding] with the same amount removes the holding
    instead of storing it. *)
Example zero_amount_is_stored_by_add :
  (λ h, (coinId h, amount h)) <$>
    holdings (addHolding "bitcoin" "Bitcoin" "btc" (Fin 0) 1000 init) =
  [("bitcoin", Fin 0)].
Proof. reflexivity. Qed.

Example zero_amount_is_removed_by_update :
  holdings (updateHolding "1000" (Fin 0) 2000
              (addHolding "bitcoin" "Bitcoin" "btc" (Fin 1) 1000 init)) = [].
Proof. reflexivity. Qed.

End LedgerFacts.

(** ** The three portfolio totals *)

Module ValuationFacts.
Import Portfolio Valuation.

Lemma fold_left_map {A B C} (f : A → C → A) (g : B → C) (l : list B) (a : A) :
  fold_left f (map g l) a = fold_left (λ a x, f a (g x)) l a.
Proof. revert a. induction l as [|x l IH]; intros a; [done|]. simpl. apply IH. Qed.

(** The total of [getPortfolioValue], as one pass over the holdings. *)
Lemma manager_total (hs : list Holding) (prices : gmap string PriceData)
    (pv : PortfolioValue) :
  getPortfolioValue (Some hs) (Ok prices) = Ok pv →
  totalValue pv =
  fold_left (λ total holding,
               Num.add total (Num.mul (amount holding) (price_of prices holding)))
            hs (Num.of_Z 0).
Proof.
  unfold getPortfolioValue.
  destruct hs as [|h hs]; [by intros [= <-]|].
  cbv beta iota zeta. generalize (h :: hs). intros l [= <-].
  cbn [totalValue]. by rewrite fold_left_map.
Qed.

(** The total of [ApiManager.getPortfolioValue] is the total of the helper
    [calculatePortfolioValue] on the same holdings and prices. *)
Theorem manager_total_is_helper_total (hs : list Holding)
    (prices : gmap string PriceData) (pv : PortfolioValue) :
  getPortfolioValue (Some hs) (Ok prices) = Ok pv →
  totalValue pv = Valuation.calculatePortfolioValue (Some hs) (Some prices).
Proof. apply manager_total. Qed.

Definition two_holdings : list Holding :=
  holdings (addHolding "ethereum" "Ethereum" "eth" (Fin 2) 2000
              (addHolding "bitcoin" "Bitcoin" "btc" (Fin 1) 1000 init)).

Definition bitcoin_only : gmap string PriceData :=
  {[ "bitcoin" := {| usd := Some (Fin 100); usd_24h_change := Some (Fin 10) |} ]}.

Lemma manager_total_is_helper_total_witness :
  Fin (0 + 1 * 100 + 2 * 0) =
  Valuation.calculatePortfolioValue (Some two_holdings) (Some bitcoin_only).
Proof.
  apply (manager_total_is_helper_total two_holdings bitcoin_only
           {| totalValue := Fin (0 + 1 * 100 + 2 * 0);
              totalChange := Some (Fin (0 + 1 * 100 * 10 / inject_Z 100 +
                                        2 * 0 * 0 / inject_Z 100));
              totalChangePercent :=
                Some (Fin ((0 + 1 * 100 * 10 / inject_Z 100 + 2 * 0 * 0 / inject_Z 100) /
                           (0 + 1 * 100 + 2 * 0 -
                            (0 + 1 * 100 * 10 / inject_Z 100 + 2 * 0 * 0 / inject_Z 100)) *
                           inject_Z 100));
              items := map (item_of bitcoin_only) two_holdings |}).
  reflexivity.
Defined.

Lemma or_zero_finite (o : option num) : ∃ q, or_zero o = Fin q.
Proof.
  unfold or_zero. destruct o as [[|q]|]; simpl; eauto.
  destruct (Qeq_bool q 0); simpl; eauto.
Qed.

(** A missing price never spoils the total of the helper: as long as the
    amounts are numbers, the total is a number, whatever the source knows
    about the coins. *)
Lemma helper_total_is_a_number (hs : list Holding)
    (prices : gmap string PriceData) :
  Forall (λ h, amount h ≠ NaN) hs →
  ∃ q, Valuation.calculatePortfolioValue (Some hs) (Some prices) = Fin q.
Proof.
  intros Hall. unfold Valuation.calculatePortfolioValue.
  change (Num.of_Z 0) with (Fin 0). generalize 0%Q.
  induction Hall as [|h hs Hh _ IH]; intros acc; simpl; [eauto|].
  destruct (amount h) as [|a] eqn:Ha; [done|].
  destruct (or_zero_finite (prices !! coinId h ≫= usd)) as [p Hp].
  unfold price_of. rewrite Hp. simpl. apply IH.
Qed.

(** The holding has a price, and the price is neither zero nor [NaN]. *)
Definition has_price (prices : gmap string PriceData) (h : Holding) : Prop :=
  ∃ pd, prices !! coinId h = Some pd ∧ Num.truthy (usd pd) = true.

Lemma pass_total_priced (prices : gmap string PriceData) (hs : list Holding)
    (acc : num) :
  Forall (has_price prices) hs →
  pass_total_from acc prices hs =
  fold_left (λ total holding,
               Num.add total (Num.mul (amount holding) (price_of prices holding)))
            hs acc.
Proof.
  intros Hall. revert acc.
  induction Hall as [|h hs (pd & Hpd & Ht) _ IH]; intros acc; [done|].
  simpl. rewrite Hpd. unfold price_of at 2. rewrite Hpd. simpl.
  unfold or_zero. rewrite Ht. apply IH.
Qed.

(** When the source has a usable price for every coin of the ledger, the
    valuation of the hook and [ApiManager.getPortfolioValue] find the same
    total. *)
Theorem hook_total_is_manager_total (now : Z) (prices : gmap string PriceData)
    (st : State) (pv : PortfolioValue) :
  Forall (has_price prices) (holdings st) →
  getPortfolioValue (Some (holdings st)) (Ok prices) = Ok pv →
  portfolioValue (Portfolio.calculatePortfolioValue now (Ok prices) st) =
  totalValue pv.
Proof.
  intros Hall Hpv. rewrite (manager_total _ _ _ Hpv).
  unfold Portfolio.calculatePortfolioValue.
  destruct (holdings st) as [|h hs]; [done|].
  cbn [portfolioValue]. by apply pass_total_priced.
Qed.

Lemma hook_total_is_manager_total_witness :
  portfolioValue
    (Portfolio.calculatePortfolioValue 2000 (Ok bitcoin_only)
       (addHolding "bitcoin" "Bitcoin" "btc" (Fin 1) 1000 init)) =
  Fin (0 + 1 * 100).
Proof.
  apply (hook_total_is_manager_total 2000 bitcoin_only
           (addHolding "bitcoin" "Bitcoin" "btc" (Fin 1) 1000 init)
           {| totalValue := Fin (0 + 1 * 100);
              totalChange := Some (Fin (0 + 1 * 100 * 10 / inject_Z 100));
              totalChangePercent :=
                Some (Fin ((0 + 1 * 100 * 10 / inject_Z 100) /
                           (0 + 1 * 100 - (0 + 1 * 100 * 10 / inject_Z 100)) *
                           inject_Z 100));
              items := map (item_of bitcoin_only)
                         (holdings (addHolding "bitcoin" "Bitcoin" "btc" (Fin 1) 1000 init)) |}).
  - repeat constructor.
    exists {| usd := Some (Fin 100); usd_24h_change := Some (Fin 10) |}. by split.
  - reflexivity.
Defined.

End ValuationFacts.

(** ** The helpers *)

Module HelperFacts.
Import Helpers.

(** *** [getTimeAgo] *)

(** Not one unit of [s] fits into [d] exactly when [d] is less than [s]. *)
Lemma none_fits (d s : Z) : 0 < s → d / s < 1 ↔ d < s.
Proof.
  intros Hs. pose proof (Z.div_mod d s). pose proof (Z.mod_pos_bound d s Hs).
  split; intros Hlt.
  - assert (d / s ≤ 0) by lia. nia.
  - apply Z.div_lt_upper_bound; lia.
Qed.



Lemma first_fit_bounds (d : Z) (units : list (string * Z)) (k : Z) (u : string) :
  Forall (λ us, 0 < snd us) units →
  first_fit d units = Some (k, u) →
  ∃ pre s post, units = pre ++ (u, s) :: post ∧
                1 ≤ k ∧ k * s ≤ d < (k + 1) * s ∧
                Forall (λ us, d < snd us) pre.
Proof.
  intros Hpos. induction Hpos as [|[u' s'] units Hs _ IH]; [done|].
  simpl in *. destruct (Z.leb_spec 1 (d / s')) as [Hfit|Hnot].
  - intros [= <- <-]. exists [], s', units. split_and!; [done|done| | |constructor].
    + rewrite Z.mul_comm. apply Z.mul_div_le. done.
    + rewrite Z.mul_comm. rewrite Z.mul_add_distr_l, Z.mul_1_r.
      pose proof (Z.mod_pos_bound d s' Hs). pose proof (Z.div_mod d s'). lia.
  - intros Hrest. destruct (IH Hrest) as (pre & s & post & -> & Hk & Hd & Hpre).
    exists ((u', s') :: pre), s, post.
    split_and!; [done | done | apply Hd | apply Hd |].
    constructor; [|done]. simpl. apply none_fits; [done | lia].
Qed.

(** The age that [getTimeAgo] words is never more than the real one and
    less than one unit short of it, in the largest unit that fits: when
    the loop settles on [k] units of [s] seconds, [k] is at least one, the
    [k] units have gone by but not [k + 1], and every longer unit is longer
    than the time gone by. *)
Theorem age_in_largest_fitting_unit (d k : Z) (u : string) :
  first_fit d intervals = Some (k, u) →
  ∃ pre s post, intervals = pre ++ (u, s) :: post ∧
                1 ≤ k ∧ k * s ≤ d < (k + 1) * s ∧
                Forall (λ us, d < snd us) pre.
Proof.
  apply first_fit_bounds. unfold intervals. repeat constructor.
Qed.

Lemma age_in_largest_fitting_unit_witness :
  ∃ pre s post, intervals = pre ++ ("hour", s) :: post ∧
                1 ≤ 2 ∧ 2 * s ≤ 9000 < (2 + 1) * s ∧
                Forall (λ us : string * Z, 9000 < snd us) pre.
Proof.
  apply (age_in_largest_fitting_unit 9000 2 "hour"). reflexivity.
Defined.

(** *** [generateChartColors] *)

Lemma push_colors_spec (rounds i : nat) (result : list string) :
  length result = i →
  (∀ j, (j < i)%nat → result !! j = colors !! (j mod 10)%nat) →
  length (push_colors rounds i result) = (i + rounds)%nat ∧
  ∀ j, (j < i + rounds)%nat →
       push_colors rounds i result !! j = colors !! (j mod 10)%nat.
Proof.
  revert i result. induction rounds as [|rounds IH]; intros i result Hlen Hres.
  - simpl. rewrite Nat.add_0_r. done.
  - cbn [push_colors].
    assert (Hc : ∃ c, colors !! (i mod 10)%nat = Some c).
    { apply lookup_lt_is_Some. change (length colors) with 10%nat.
      apply Nat.mod_upper_bound. done. }
    destruct Hc as [c Hc].
    destruct (IH (S i) (result ++ [default "" (colors !! (i mod length colors)%nat)]))
      as [Hl Hj].
    + rewrite length_app. cbn [length]. lia.
    + intros j Hlt. destruct (decide (j < i)%nat) as [Hji|Hji].
      * rewrite lookup_app_l by lia. by apply Hres.
      * assert (j = i) as -> by lia.
        rewrite lookup_app_r by lia. rewrite Hlen, Nat.sub_diag.
        change (length colors) with 10%nat. rewrite Hc. done.
    + split; [lia|]. intros j Hlt. apply Hj. lia.
Qed.

(** [generateChartColors] returns [count] colours that run through the
    palette of ten again and again: the colour at the index [j] is the
    colour of the palette at [j] modulo ten. *)
Lemma chart_colors_cycle (count : Z) :
  length (generateChartColors count) = Z.to_nat count ∧
  ∀ j, (j < Z.to_nat count)%nat →
       generateChartColors count !! j = colors !! (j mod 10)%nat.
Proof.
  unfold generateChartColors.
  destruct (push_colors_spec (Z.to_nat count) 0 []) as [Hl Hj]; [done | lia |].
  split; [exact Hl | exact Hj].
Qed.

End HelperFacts.

(** ** The names that the parser hands on *)

Module NameFacts.
Import Regex Parser RegexFacts.

(** A character of a cleaned name: a small letter, a digit, the underscore
    or the space. *)
Definition name_char (c : ascii) : bool :=
  let n := N_of_ascii c in
  (((97 <=? n) && (n <=? 122)) || ((48 <=? n) && (n <=? 57)) ||
   (n =? 95) || (n =? 32))%N.

(** A character of a coin id: a character of a name or the hyphen. *)
Definition id_char (c : ascii) : bool :=
  name_char c || (N_of_ascii c =? 45)%N.

Definition capital (c : ascii) : bool :=
  let n := N_of_ascii c in ((65 <=? n) && (n <=? 90))%N.

(** *** Replacements *)

(** A replacement only takes characters away or puts the replacement
    text in. *)
Lemma replace_from_Forall (P : ascii → Prop) (r : re) (by_ : list ascii)
    (l : list ascii) :
  Forall P by_ → Forall P l →
  ∀ pending p, Forall P (replace_from r by_ pending p l).
Proof.
  intros Hby Hl. induction Hl as [|ch t Hch _ IH]; intros pending p; [constructor|].
  cbn [replace_from]. destruct pending as [|n]; [|apply IH].
  destruct (match_at r _) as [[s' c']|].
  - destruct (_ - _)%nat.
    + constructor; [done | apply IH].
    + apply Forall_app. split; [done | apply IH].
  - constructor; [done | apply IH].
Qed.

Lemma replace_all_Forall (P : ascii → Prop) (r : re) (by_ : list ascii)
    (l : list ascii) :
  Forall P by_ → Forall P l → Forall P (replace_all r by_ l).
Proof. intros Hby Hl. by apply replace_from_Forall. Qed.

(** Taking away the characters of a class leaves none of them. *)
Lemma remove_class (q : ascii → bool) (l : list ascii) :
  ∀ pending p, Forall (λ c, q c = false) (replace_from (Cls q) [] pending p l).
Proof.
  induction l as [|ch t IH]; intros pending p; [constructor|].
  cbn [replace_from]. destruct pending as [|n]; [|apply IH].
  unfold match_at. cbn [run rest].
  destruct (q ch) eqn:Hq; cbn [head].
  - cbn [rest]. replace (length (ch :: t) - length t)%nat with 1%nat
      by (cbn [length]; lia).
    apply IH.
  - constructor; [done | apply IH].
Qed.

Lemma span_le (q : ascii → bool) (l : list ascii) : (span q l ≤ length l)%nat.
Proof.
  induction l as [|ch t IH]; simpl; [lia|]. destruct (q ch); simpl; lia.
Qed.

(** Replacing the runs of a class by a text that has none of its
    characters leaves none of them, but for those of the text. *)
Lemma replace_runs (q : ascii → bool) (by_ : list ascii) (l : list ascii) :
  ∀ pending p,
    Forall (λ c, q c = false ∨ c ∈ by_) (replace_from (Rep true 1 q) by_ pending p l).
Proof.
  induction l as [|ch t IH]; intros pending p; [constructor|].
  cbn [replace_from]. destruct pending as [|n]; [|apply IH].
  destruct (q ch) eqn:Hq.
  - assert (Hspan : (1 ≤ span q (ch :: t))%nat) by (simpl; rewrite Hq; lia).
    pose proof (first_rep_greedy 1 q {| prev := p; rest := ch :: t |} [] Hspan) as Hfirst.
    unfold first in Hfirst. unfold match_at. rewrite Hfirst.
    rewrite ParserFacts.skip_length. cbn [rest].
    pose proof (span_le q (ch :: t)).
    destruct (length (ch :: t) - (length (ch :: t) - span q (ch :: t)))%nat eqn:E;
      [lia|].
    apply Forall_app. split; [|apply IH].
    apply Forall_forall. intros c Hc. by right.
  - unfold match_at. cbn [run rest span]. rewrite Hq.
    cbn [counts Nat.ltb Nat.leb map head].
    constructor; [by left | apply IH].
Qed.

(** *** Trimming *)

Lemma drop_spaces_Forall (P : ascii → Prop) (l : list ascii) :
  Forall P l → Forall P (Str.drop_spaces l).
Proof.
  induction 1 as [|c l Hc Hl IH]; simpl; [constructor|].
  destruct (Str.is_space c); [done | by constructor].
Qed.

Lemma trim_Forall (P : ascii → Prop) (l : list ascii) :
  Forall P l → Forall P (Str.trim l).
Proof.
  intros Hl. unfold Str.trim.
  apply Forall_rev, drop_spaces_Forall, Forall_rev, drop_spaces_Forall, Hl.
Qed.

(** *** The characters of [extractCoinName] *)

Lemma lower_not_capital (c : ascii) : capital (Str.lower c) = false.
Proof. destruct c as [[] [] [] [] [] [] [] []]; reflexivity. Qed.

Lemma name_char_intro (c : ascii) :
  capital c = false →
  negb (Str.is_word c || Str.is_space c) = false →
  Str.is_space c = false ∨ c ∈ [" "%char] →
  name_char c = true.
Proof.
  intros Hcap Hclass Hspace.
  assert (Hsp : Str.is_space c = false ∨ c = " "%char).
  { destruct Hspace as [H|H]; [by left|]. right.
    by apply list_elem_of_singleton in H. }
  clear Hspace. revert Hcap Hclass Hsp.
  destruct c as [[] [] [] [] [] [] [] []]; vm_compute;
    intros Hcap Hclass [Hsp|Hsp]; congruence.
Qed.

(** Every character of the name that [extractCoinName] returns is a small
    letter, a digit, an underscore or a space. *)
Lemma extractCoinName_chars (text : list ascii) :
  Forall (λ c, name_char c = true) (extractCoinName text).
Proof.
  unfold extractCoinName. cbv zeta.
  set (s4 := replace_all COIN [] (replace_all TOKEN []
               (replace_all CRYPTO [] (replace_all FILLER [] (map Str.lower text))))).
  assert (Hcap : Forall (λ c, capital c = false) s4).
  { unfold s4. repeat apply replace_all_Forall; try constructor.
    clear. induction text as [|c text IH]; simpl; constructor;
      [apply lower_not_capital | exact IH]. }
  set (s5 := replace_all PUNCT [] s4).
  assert (Hcap5 : Forall (λ c, capital c = false) s5).
  { unfold s5. apply replace_all_Forall; [constructor | done]. }
  assert (Hclass5 : Forall (λ c, negb (Str.is_word c || Str.is_space c) = false) s5).
  { unfold s5, replace_all, PUNCT. apply remove_class. }
  set (s6 := replace_all spaces1 [" "%char] s5).
  assert (Hcap6 : Forall (λ c, capital c = false) s6).
  { unfold s6. apply replace_all_Forall; [by repeat constructor | done]. }
  assert (Hclass6 : Forall (λ c, negb (Str.is_word c || Str.is_space c) = false) s6).
  { unfold s6. apply replace_all_Forall; [by repeat constructor | done]. }
  assert (Hsp6 : Forall (λ c, Str.is_space c = false ∨ c ∈ [" "%char]) s6).
  { unfold s6, replace_all, spaces1. apply replace_runs. }
  apply trim_Forall.
  clear -Hcap6 Hclass6 Hsp6.
  induction s6 as [|c l IH]; [constructor|].
  inversion Hcap6; inversion Hclass6; inversion Hsp6; subst.
  constructor; [by apply name_char_intro | by apply IH].
Qed.

(** *** The names of an intent *)

Definition name_chars (s : string) : Prop :=
  Forall (λ c, name_char c = true) (list_ascii_of_string s).

Definition id_chars (s : string) : Prop :=
  Forall (λ c, id_char c = true) (list_ascii_of_string s).

(** The two names that an intent carries are clean. *)
Definition clean_names (i : Intent) : Prop :=
  match i with
  | PRICE_QUERY_ coinName originalCoinName
  | ADD_HOLDING_ _ coinName originalCoinName
  | CHART_REQUEST_ coinName originalCoinName
  | INFO_REQUEST_ coinName originalCoinName =>
      name_chars originalCoinName ∧
      (originalCoinName ∉ inherited → id_chars coinName)
  | _ => True
  end.

Lemma name_chars_str (l : list ascii) :
  Forall (λ c, name_char c = true) l → name_chars (str l).
Proof.
  intros H. unfold name_chars, str.
  by rewrite list_ascii_of_string_of_list_ascii.
Qed.

Lemma lower_name_char (c : ascii) : name_char c = true → Str.lower c = c.
Proof. destruct c as [[] [] [] [] [] [] [] []]; vm_compute; congruence. Qed.

Lemma toLowerCase_name (s : string) : name_chars s → Str.toLowerCase s = s.
Proof.
  unfold name_chars. induction s as [|c s IH]; [done|]. simpl.
  intros H. inversion H; subst. by rewrite lower_name_char, IH.
Qed.

Lemma assoc_in (k v : string) (l : list (string * string)) :
  assoc k l = Some v → In v (map snd l).
Proof.
  induction l as [|[k' v'] l IH]; [done|]. simpl.
  destruct (String.eqb k k'); [intros [= ->]; by left | right; by apply IH].
Qed.

Lemma coinMap_ids : Forall id_chars (map snd coinMap).
Proof.
  unfold coinMap, id_chars. simpl.
  repeat (constructor; [by repeat constructor|]). constructor.
Qed.

(** A clean name is normalised to a clean id: an id of the alias table, or
    the name itself. *)
Lemma normalize_clean (s : string) : name_chars s → id_chars (normalizeCoinName s).
Proof.
  intros Hs. unfold normalizeCoinName. rewrite (toLowerCase_name s Hs).
  destruct (assoc s coinMap) as [id|] eqn:Ha.
  - apply assoc_in in Ha. pose proof coinMap_ids as Hids.
    rewrite Forall_forall in Hids. apply Hids. by apply list_elem_of_In.
  - unfold id_chars. unfold name_chars in Hs.
    eapply Forall_impl; [exact Hs|]. intros c Hc. unfold id_char. by rewrite Hc.
Qed.

Lemma extracted_clean (l : list ascii) :
  name_chars (str (extractCoinName l)) ∧
  (str (extractCoinName l) ∉ inherited →
   id_chars (normalizeCoinName (str (extractCoinName l)))).
Proof.
  pose proof (name_chars_str _ (extractCoinName_chars l)) as H.
  split; [done | intros _; by apply normalize_clean].
Qed.

(** Whatever the user types, the names that [parseMessage] hands on are
    clean: the name as typed consists of small letters, digits, underscores
    and spaces, and the coin id that goes into the requests of these and
    of hyphens (for a name that is no inherited key of the alias table). *)
Theorem parsed_names_are_clean (message : string) :
  clean_names (parseMessage message).
Proof.
  unfold parseMessage. cbv zeta.
  destruct (exec PRICE_TRADING _); [apply extracted_clean|].
  destruct (exec PRICE_QUERY _); [apply extracted_clean|].
  destruct (exec PRICE_SIMPLE _); [apply extracted_clean|].
  unfold parse_tail.
  destruct (exec ADD_HOLDING _).
  - unfold extractHoldingInfo. destruct (exec HOLDING_INFO _).
    + apply extracted_clean.
    + destruct (test PORTFOLIO_VALUE _); [done|].
      destruct (test TRENDING _); [done|].
      destruct (exec CHART_REQUEST _); [apply extracted_clean|].
      destruct (exec INFO_REQUEST _); [apply extracted_clean|].
      by destruct (test HELP _).
  - destruct (test PORTFOLIO_VALUE _); [done|].
    destruct (test TRENDING _); [done|].
    destruct (exec CHART_REQUEST _); [apply extracted_clean|].
    destruct (exec INFO_REQUEST _); [apply extracted_clean|].
    by destruct (test HELP _).
Qed.

End NameFacts.

(** ** From the input area to the parser *)

Module InputFacts.
Import Regex Parser InputArea.

(** The list does not start with white space. *)
Definition clean_head (l : list ascii) : Prop :=
  match l with
  | c :: _ => Str.is_space c = false
  | [] => True
  end.

Lemma drop_spaces_head (l : list ascii) : clean_head (Str.drop_spaces l).
Proof.
  induction l as [|c l IH]; simpl; [done|].
  destruct (Str.is_space c) eqn:Hc; [done | exact Hc].
Qed.

Lemma drop_spaces_id (l : list ascii) : clean_head l → Str.drop_spaces l = l.
Proof. destruct l as [|c l]; simpl; [done|]. by intros ->. Qed.

Lemma drop_spaces_suffix (l : list ascii) : ∃ pre, l = pre ++ Str.drop_spaces l.
Proof.
  induction l as [|c l [pre IH]]; simpl; [by exists []|].
  destruct (Str.is_space c); [|by exists []].
  exists (c :: pre). simpl. by f_equal.
Qed.

Lemma clean_head_prefix (a b : list ascii) :
  clean_head (a ++ b) → clean_head a.
Proof. by destruct a. Qed.

(** [trim] leaves nothing for a second [trim] to do. *)
Lemma trim_idempotent (l : list ascii) : Str.trim (Str.trim l) = Str.trim l.
Proof.
  unfold Str.trim.
  set (a := Str.drop_spaces l).
  set (b := Str.drop_spaces (rev a)).
  assert (Ha : clean_head a) by apply drop_spaces_head.
  assert (Hb : clean_head b) by apply drop_spaces_head.
  destruct (drop_spaces_suffix (rev a)) as [pre Hpre]. fold b in Hpre.
  assert (Hrb : clean_head (rev b)).
  { apply (clean_head_prefix _ (rev pre)).
    rewrite <- rev_app_distr, <- Hpre, rev_involutive. exact Ha. }
  rewrite (drop_spaces_id (rev b) Hrb), rev_involutive.
  by rewrite (drop_spaces_id b Hb).
Qed.

(** What the input area sends is never blank, and the parser reads it as
    it would read the text as typed: the [trim] of [handleSubmit] and the
    [trim] of [parseMessage] agree. *)
Theorem submitted_text_parses_as_typed (message sent : string)
    (isProcessing : bool) :
  handleSubmit message isProcessing = Some sent →
  sent ≠ "" ∧ isProcessing = false ∧ parseMessage sent = parseMessage message.
Proof.
  unfold handleSubmit. cbv zeta.
  destruct (String.eqb_spec (str (Str.trim (chars message))) "") as [|Hne];
    [done|].
  destruct isProcessing; [done|]. simpl. intros [= <-].
  split_and!; [done | done |].
  assert (Hsame : Str.trim (chars (str (Str.trim (chars message)))) =
                  Str.trim (chars message)).
  { unfold chars at 1, str.
    by rewrite list_ascii_of_string_of_list_ascii, trim_idempotent. }
  unfold parseMessage. by rewrite Hsame.
Qed.

Lemma submitted_text_parses_as_typed_witness :
  "help" ≠ "" ∧ false = false ∧ parseMessage "help" = parseMessage "  help ".
Proof.
  apply (submitted_text_parses_as_typed "  help " "help" false). reflexivity.
Defined.

End InputFacts.

(** ** Slugs *)

Module SlugFacts.
Import Regex RegexFacts Slug.

(** A character of a slug: a small letter, a digit, the underscore or the
    hyphen. *)
Definition slug_char (c : ascii) : bool :=
  let n := N_of_ascii c in
  (((97 <=? n) && (n <=? 122)) || ((48 <=? n) && (n <=? 57)) ||
   (n =? 95) || (n =? 45))%N.

Lemma skip_drop (k : nat) (s : pos) : rest (skip k s) = drop k (rest s).
Proof.
  revert s. induction k as [|k IH]; intros [p l]; simpl.
  - by destruct l.
  - destruct l as [|ch l]; [done|]. by rewrite IH.
Qed.

(** A match ends at a later position of the same text. *)
Lemma run_suffix (r : re) (s s' : pos) (c c' : caps) :
  In (s', c') (run r s c) → ∃ k, rest s' = drop k (rest s).
Proof.
  revert s s' c c'.
  induction r as [p| |a IHa b IHb|a IHa b IHb|a IHa|g min p|n a IHa| | | |a IHa];
    intros s s' c c' Hin; simpl in Hin.
  - destruct s as [q [|ch t]]; simpl in *; [done|].
    destruct (p ch); [|done]. destruct Hin as [[= <- <-]|[]]. by exists 1%nat.
  - destruct Hin as [[= <- <-]|[]]. by exists 0%nat.
  - apply in_flat_map in Hin as ([s1 c1] & H1 & H2).
    apply IHa in H1 as [k1 H1]. apply IHb in H2 as [k2 H2]. simpl in *.
    exists (k1 + k2)%nat. by rewrite H2, H1, drop_drop.
  - apply in_app_or in Hin as [H | H]; eauto.
  - apply in_app_or in Hin as [H | [[= <- <-]|[]]]; eauto. by exists 0%nat.
  - apply in_map_iff in Hin as (k & [= <- <-] & _). exists k. apply skip_drop.
  - apply in_map_iff in Hin as ([s1 c1] & [= <- <-] & H). eauto.
  - destruct (prev s); [done|]. destruct Hin as [[= <- <-]|[]]. by exists 0%nat.
  - destruct (rest s) eqn:E; [|done]. destruct Hin as [[= <- <-]|[]].
    exists 0%nat. by rewrite E.
  - destruct (xorb _ _); [|done]. destruct Hin as [[= <- <-]|[]]. by exists 0%nat.
  - destruct (run a s c); [|done]. destruct Hin as [[= <- <-]|[]]. by exists 0%nat.
Qed.

Lemma match_at_suffix (r : re) (s s' : pos) (c' : caps) :
  match_at r s = Some (s', c') → ∃ k, rest s' = drop k (rest s).
Proof.
  unfold match_at. destruct (run r s []) as [|x l] eqn:Hrun; [done|].
  intros [= ->]. apply (run_suffix r s s' [] c'). rewrite Hrun. by left.
Qed.

(** A single replacement only takes characters away or puts the
    replacement text in. *)
Lemma replace_first_Forall (P : ascii → Prop) (r : re) (by_ : list ascii)
    (l : list ascii) :
  Forall P by_ → Forall P l → ∀ p, Forall P (replace_first_from r by_ p l).
Proof.
  intros Hby Hl.
  assert (Hmatch : ∀ p l, Forall P l →
            ∀ s' c', match_at r {| prev := p; rest := l |} = Some (s', c') →
                     Forall P (by_ ++ rest s')).
  { intros p l0 Hl0 s' c' Hm. apply Forall_app. split; [done|].
    apply match_at_suffix in Hm as [k ->]. by apply Forall_drop. }
  induction Hl as [|ch t Hch Ht IH]; intros p.
  - simpl. destruct (match_at r _) as [[s' c']|] eqn:Hm; [|constructor].
    by apply (Hmatch p [] ltac:(constructor) s' c').
  - cbn [replace_first_from].
    destruct (match_at r _) as [[s' c']|] eqn:Hm.
    + apply (Hmatch p (ch :: t) ltac:(by constructor) s' c' Hm).
    + constructor; [done | apply IH].
Qed.

Lemma slug_char_intro (c : ascii) :
  NameFacts.capital c = false →
  negb (Str.is_word c || is_hyphen c) = false ∨ c ∈ @nil ascii →
  slug_char c = true.
Proof.
  intros Hcap [Hclass|Hin]; [|by apply not_elem_of_nil in Hin].
  revert Hcap Hclass.
  destruct c as [[] [] [] [] [] [] [] []]; vm_compute; congruence.
Qed.

(** Every character of a slug is a small letter, a digit, an underscore
    or a hyphen. *)
Lemma slug_chars (text : list ascii) :
  Forall (λ c, slug_char c = true) (slugify text).
Proof.
  unfold slugify. cbv zeta.
  set (s1 := replace_all spaces1 ["-"%char] (map Str.lower text)).
  assert (Hcap : Forall (λ c, NameFacts.capital c = false) s1).
  { unfold s1. apply NameFacts.replace_all_Forall; [by repeat constructor|].
    clear. induction text as [|c text IH]; simpl; constructor;
      [apply NameFacts.lower_not_capital | exact IH]. }
  set (s2 := replace_all OTHER [] s1).
  assert (Hs2 : Forall (λ c, slug_char c = true) s2).
  { assert (Hcap2 : Forall (λ c, NameFacts.capital c = false) s2).
    { unfold s2. apply NameFacts.replace_all_Forall; [constructor | done]. }
    assert (Hclass : Forall (λ c, negb (Str.is_word c || is_hyphen c) = false ∨
                                  c ∈ @nil ascii) s2).
    { unfold s2, replace_all, OTHER. apply NameFacts.replace_runs. }
    clear -Hcap2 Hclass. induction s2 as [|c l IH]; [constructor|].
    inversion Hcap2; inversion Hclass; subst.
    constructor; [by apply slug_char_intro | by apply IH]. }
  apply replace_first_Forall; [constructor|].
  apply replace_first_Forall; [constructor|].
  apply NameFacts.replace_all_Forall; [|done].
  repeat constructor.
Qed.

(** *** The ends of a slug *)

Definition no_hyphen_first (l : list ascii) : Prop :=
  match l with
  | c :: _ => is_hyphen c = false
  | [] => True
  end.

Definition no_hyphen_last (l : list ascii) : Prop :=
  no_hyphen_first (rev l).

Lemma flat_map_nil {A B} (f : A → list B) (l : list A) :
  (∀ x, In x l → f x = []) → flat_map f l = [].
Proof.
  induction l as [|x l IH]; intros H; [done|]. simpl.
  rewrite (H x) by (by left). apply IH. intros y Hy. apply H. by right.
Qed.

(** [LEADING] matches at the start only, and takes the whole run. *)
Lemma leading_at_start (l : list ascii) :
  match_at LEADING {| prev := None; rest := l |} =
  if (1 <=? span is_hyphen l)%nat
  then Some (skip (span is_hyphen l) {| prev := None; rest := l |}, [])
  else None.
Proof.
  unfold match_at, LEADING. cbn [run prev flat_map fst snd]. rewrite app_nil_r.
  destruct (Nat.leb_spec 1 (span is_hyphen l)) as [Hle|Hlt].
  - pose proof (first_rep_greedy 1 is_hyphen {| prev := None; rest := l |} [] Hle) as H.
    unfold first in H. cbn [run rest] in H. exact H.
  - cbn [rest]. unfold counts.
    destruct (Nat.ltb_spec (span is_hyphen l) 1); [done | lia].
Qed.

Lemma leading_later (ch : ascii) (l : list ascii) :
  match_at LEADING {| prev := Some ch; rest := l |} = None.
Proof. reflexivity. Qed.

Lemma replace_later (by_ : list ascii) (ch : ascii) (l : list ascii) :
  replace_first_from LEADING by_ (Some ch) l = l.
Proof.
  revert ch. induction l as [|x l IH]; intros ch; [done|].
  cbn [replace_first_from]. rewrite leading_later. by rewrite IH.
Qed.

Lemma span_stops (q : ascii → bool) (l : list ascii) :
  match drop (span q l) l with
  | c :: _ => q c = false
  | [] => True
  end.
Proof.
  induction l as [|ch t IH]; simpl; [done|].
  destruct (q ch) eqn:Hq; simpl; [exact IH | exact Hq].
Qed.

(** Without its leading hyphens, the text starts with none. *)
Lemma leading_removed (l : list ascii) :
  no_hyphen_first (replace_first LEADING [] l) ∧
  ∃ k, replace_first LEADING [] l = drop k l.
Proof.
  unfold replace_first. destruct l as [|ch t].
  - simpl. split; [done | by exists 0%nat].
  - cbn [replace_first_from]. rewrite leading_at_start.
    destruct (Nat.leb_spec 1 (span is_hyphen (ch :: t))) as [Hle|Hlt].
    + cbn [app]. rewrite skip_drop. cbn [rest]. split.
      * unfold no_hyphen_first. apply (span_stops is_hyphen (ch :: t)).
      * by exists (span is_hyphen (ch :: t)).
    + rewrite replace_later. split; [|by exists 0%nat].
      simpl in Hlt. simpl. destruct (is_hyphen ch); [lia | done].
Qed.

(** [TRAILING] matches where nothing but hyphens is left. *)
Lemma trailing_match (p : option ascii) (l : list ascii) :
  match_at TRAILING {| prev := p; rest := l |} =
  if (1 <=? length l)%nat && (span is_hyphen l =? length l)%nat
  then Some (skip (length l) {| prev := p; rest := l |}, [])
  else None.
Proof.
  unfold match_at, TRAILING. cbn [run rest].
  rewrite flat_map_concat_map, map_map, <- flat_map_concat_map.
  cbn [fst snd].
  destruct (Nat.leb_spec 1 (length l)) as [Hlen|Hlen]; cbn [andb].
  - destruct (Nat.eqb_spec (span is_hyphen l) (length l)) as [Hall|Hnot].
    + unfold counts. destruct (Nat.ltb_spec (span is_hyphen l) 1); [lia|].
      replace (S (span is_hyphen l) - 1)%nat with (S (span is_hyphen l - 1)) by lia.
      rewrite seq_S, rev_app_distr. cbn [rev app flat_map].
      replace (1 + (span is_hyphen l - 1))%nat with (length l) by lia.
      rewrite skip_drop. cbn [rest]. rewrite drop_all. done.
    + rewrite flat_map_nil; [done|].
      intros k Hk. apply ParserFacts.counts_in in Hk.
      pose proof (NameFacts.span_le is_hyphen l).
      rewrite skip_drop. cbn [rest].
      destruct (drop k l) eqn:Hd; [|done].
      apply (f_equal length) in Hd. rewrite length_drop in Hd. simpl in Hd. lia.
  - destruct l; [|simpl in Hlen; lia]. reflexivity.
Qed.

(** Without its trailing hyphens, the text ends with none, and it is a
    prefix of what it was. *)
Lemma trailing_removed (l : list ascii) :
  ∀ p, no_hyphen_last (replace_first_from TRAILING [] p l) ∧
       ∃ post, l = replace_first_from TRAILING [] p l ++ post.
Proof.
  induction l as [|ch t IH]; intros p.
  - cbn [replace_first_from]. rewrite trailing_match. simpl.
    split; [done | by exists []].
  - cbn [replace_first_from]. rewrite trailing_match.
    destruct ((1 <=? length (ch :: t))%nat &&
              (span is_hyphen (ch :: t) =? length (ch :: t))%nat) eqn:Hall.
    + cbn [app]. rewrite skip_drop. cbn [rest]. rewrite drop_all.
      split; [done | by exists (ch :: t)].
    + destruct (IH (Some ch)) as [Hlast [post Hpost]].
      split; [|exists post; simpl; by f_equal].
      unfold no_hyphen_last in *. cbn [rev].
      destruct (rev (replace_first_from TRAILING [] (Some ch) t)) as [|x r] eqn:Hr;
        [|exact Hlast].
      simpl. destruct (is_hyphen ch) eqn:Hch; [|done]. exfalso.
      (* what is left of [t] is hyphens only, and so is [ch :: t] *)
      assert (Hnil : replace_first_from TRAILING [] (Some ch) t = []).
      { apply (f_equal (@rev ascii)) in Hr. by rewrite rev_involutive in Hr. }
      assert (Ht : span is_hyphen t = length t).
      { clear -Hnil. destruct t as [|x t]; [done|].
        cbn [replace_first_from] in Hnil. rewrite trailing_match in Hnil.
        destruct (Nat.eqb_spec (span is_hyphen (x :: t)) (length (x :: t)));
          [done|].
        rewrite andb_false_r in Hnil. done. }
      apply andb_false_iff in Hall as [Hall|Hall].
      * simpl in Hall. done.
      * apply Nat.eqb_neq in Hall. simpl in Hall. rewrite Hch in Hall. lia.
Qed.

(** *** No two hyphens in a row *)

Fixpoint single (l : list ascii) : Prop :=
  match l with
  | a :: t => (is_hyphen a = true → no_hyphen_first t) ∧ single t
  | [] => True
  end.

(** Characters that are still to be dropped are dropped. *)
Lemma replace_pending (r : re) (by_ : list ascii) (n : nat) (l : list ascii) :
  ∀ p, ∃ p', replace_from r by_ n p l = replace_from r by_ 0 p' (drop n l).
Proof.
  revert l. induction n as [|n IH]; intros l p.
  - exists p. by rewrite drop_0.
  - destruct l as [|ch t]; [by exists p|].
    cbn [replace_from drop]. apply IH.
Qed.

Lemma hyphens_match (p : option ascii) (ch : ascii) (t : list ascii) :
  match_at HYPHENS {| prev := p; rest := ch :: t |} =
  if is_hyphen ch && (1 <=? span is_hyphen t)%nat
  then Some (skip (span is_hyphen t) {| prev := Some ch; rest := t |}, [])
  else None.
Proof.
  unfold match_at, HYPHENS. cbn [run rest].
  destruct (is_hyphen ch); [|done]. cbn [flat_map fst snd andb].
  rewrite app_nil_r.
  destruct (Nat.leb_spec 1 (span is_hyphen t)) as [Hle|Hlt].
  - pose proof (first_rep_greedy 1 is_hyphen {| prev := Some ch; rest := t |} [] Hle) as H.
    unfold first in H. cbn [run rest] in H. exact H.
  - cbn [rest]. unfold counts.
    destruct (Nat.ltb_spec (span is_hyphen t) 1); [done | lia].
Qed.

Lemma span_zero (q : ascii → bool) (l : list ascii) :
  span q l = 0%nat →
  match l with
  | c :: _ => q c = false
  | [] => True
  end.
Proof. destruct l as [|c l]; simpl; [done|]. by destruct (q c). Qed.

(** Where runs of hyphens have been replaced by one hyphen, no two hyphens
    stand in a row; and the text starts with a hyphen only if it did
    before. *)
Lemma hyphens_replaced (m : nat) :
  ∀ l, (length l ≤ m)%nat →
  ∀ p, single (replace_from HYPHENS ["-"%char] 0 p l) ∧
       (no_hyphen_first l → no_hyphen_first (replace_from HYPHENS ["-"%char] 0 p l)).
Proof.
  induction m as [|m IH]; intros l Hlen p.
  { destruct l; [done | simpl in Hlen; lia]. }
  destruct l as [|ch t]; [done|].
  cbn [replace_from]. rewrite hyphens_match.
  destruct (is_hyphen ch) eqn:Hch; cbn [andb].
  - destruct (Nat.leb_spec 1 (span is_hyphen t)) as [Hle|Hlt].
    + rewrite ParserFacts.skip_length. cbn [rest].
      pose proof (NameFacts.span_le is_hyphen t).
      replace (length (ch :: t) - (length t - span is_hyphen t))%nat
        with (S (span is_hyphen t)) by (cbn [length]; lia).
      destruct (replace_pending HYPHENS ["-"%char] (span is_hyphen t) t (Some ch))
        as [p' ->].
      destruct (IH (drop (span is_hyphen t) t)
                   ltac:(rewrite length_drop; simpl in Hlen; lia) p')
        as [Hsingle Hfirst].
      cbn [app]. split.
      * split; [|exact Hsingle]. intros _. apply Hfirst.
        apply (span_stops is_hyphen t).
      * simpl. congruence.
    + destruct (IH t ltac:(simpl in Hlen; lia) (Some ch)) as [Hsingle Hfirst].
      split.
      * split; [|exact Hsingle]. intros _. apply Hfirst.
        apply span_zero. lia.
      * simpl. congruence.
  - destruct (IH t ltac:(simpl in Hlen; lia) (Some ch)) as [Hsingle Hfirst].
    split.
    + split; [|exact Hsingle]. congruence.
    + done.
Qed.

Lemma single_drop (k : nat) (l : list ascii) : single l → single (drop k l).
Proof.
  revert l. induction k as [|k IH]; intros l; [by rewrite drop_0|].
  destruct l as [|a t]; [done|]. intros [_ H]. by apply IH.
Qed.

Lemma single_prefix (a b : list ascii) : single (a ++ b) → single a.
Proof.
  induction a as [|x a IH]; [done|]. simpl. intros [Hx Ha].
  split; [|by apply IH]. intros Hh. specialize (Hx Hh). by destruct a.
Qed.

(** The shape of a slug. *)
Definition slug (s : list ascii) : Prop :=
  Forall (λ c, slug_char c = true) s ∧
  no_hyphen_first s ∧ no_hyphen_last s ∧ single s.

Lemma slugify_slug (text : list ascii) : slug (slugify text).
Proof.
  split; [apply slug_chars|].
  unfold slugify. cbv zeta.
  set (s2 := replace_all OTHER _ _).
  set (s3 := replace_all HYPHENS _ s2).
  assert (Hs3 : single s3).
  { unfold s3, replace_all. by apply (hyphens_replaced (length s2)). }
  destruct (leading_removed s3) as [Hfirst [k Hk]].
  set (s4 := replace_first LEADING [] s3) in *.
  assert (Hs4 : single s4) by (rewrite Hk; by apply single_drop).
  destruct (trailing_removed s4 None) as [Hlast [post Hpost]].
  unfold replace_first. split_and!.
  - destruct (replace_first_from TRAILING [] None s4) as [|c l]; [done|].
    rewrite Hpost in Hfirst. exact Hfirst.
  - exact Hlast.
  - rewrite Hpost in Hs4. by apply single_prefix in Hs4.
Qed.

(** A slug is made of small letters, digits, underscores and hyphens; it
    neither starts nor ends with a hyphen, and no two hyphens stand in a
    row. *)
Theorem slug_shape (text : list ascii) :
  Forall (λ c, slug_char c = true) (slugify text) ∧
  no_hyphen_first (slugify text) ∧
  no_hyphen_last (slugify text) ∧
  single (slugify text).
Proof. apply slugify_slug. Qed.

(** *** A slug is its own slug *)

Lemma runs_absent (q : ascii → bool) (by_ : list ascii) (l : list ascii) :
  Forall (λ c, q c = false) l →
  ∀ p, replace_from (Rep true 1 q) by_ 0 p l = l.
Proof.
  induction 1 as [|ch t Hch _ IH]; intros p; [done|].
  cbn [replace_from]. unfold match_at. cbn [run rest span]. rewrite Hch.
  cbn [counts Nat.ltb Nat.leb map head]. by rewrite IH.
Qed.

Lemma hyphens_absent (l : list ascii) :
  single l → ∀ p, replace_from HYPHENS ["-"%char] 0 p l = l.
Proof.
  induction l as [|ch t IH]; intros Hs p; [done|].
  destruct Hs as [Hch Ht].
  cbn [replace_from]. rewrite hyphens_match.
  destruct (is_hyphen ch) eqn:Hh; cbn [andb]; [|by rewrite IH].
  specialize (Hch eq_refl).
  assert (Hspan : span is_hyphen t = 0%nat).
  { destruct t as [|x t]; [done|]. simpl in *. by rewrite Hch. }
  rewrite Hspan. cbn [Nat.leb]. by rewrite IH.
Qed.

Lemma leading_absent (l : list ascii) :
  no_hyphen_first l → replace_first LEADING [] l = l.
Proof.
  intros Hl. unfold replace_first. destruct l as [|ch t]; [done|].
  cbn [replace_first_from]. rewrite leading_at_start.
  simpl in Hl. cbn [span]. rewrite Hl. cbn [Nat.leb].
  by rewrite replace_later.
Qed.

Lemma all_hyphens_last (l : list ascii) :
  l ≠ [] → span is_hyphen l = length l → ¬ no_hyphen_last l.
Proof.
  unfold no_hyphen_last. induction l as [|ch t IH]; [done|].
  intros _ Hspan Hlast. simpl in Hspan.
  destruct (is_hyphen ch) eqn:Hch; [|done]. injection Hspan as Hspan.
  destruct t as [|x t].
  - simpl in Hlast. congruence.
  - apply IH; [done | done |].
    cbn [rev] in *. destruct (rev t ++ [x]) eqn:E; [by destruct (rev t)|].
    exact Hlast.
Qed.

Lemma no_hyphen_last_tail (ch : ascii) (t : list ascii) :
  no_hyphen_last (ch :: t) → no_hyphen_last t.
Proof.
  unfold no_hyphen_last. cbn [rev]. by destruct (rev t).
Qed.

Lemma trailing_absent (l : list ascii) :
  no_hyphen_last l → ∀ p, replace_first_from TRAILING [] p l = l.
Proof.
  induction l as [|ch t IH]; intros Hl p.
  - cbn [replace_first_from]. by rewrite trailing_match.
  - cbn [replace_first_from]. rewrite trailing_match.
    destruct (Nat.eqb_spec (span is_hyphen (ch :: t)) (length (ch :: t))) as [Hall|_].
    + exfalso. by apply (all_hyphens_last (ch :: t)).
    + rewrite andb_false_r. rewrite IH; [done|]. by apply (no_hyphen_last_tail ch).
Qed.

Lemma slug_char_classes (c : ascii) :
  slug_char c = true →
  Str.lower c = c ∧ Str.is_space c = false ∧
  negb (Str.is_word c || is_hyphen c) = false.
Proof. destruct c as [[] [] [] [] [] [] [] []]; vm_compute; intuition congruence. Qed.

Lemma Forall_slug (P : ascii → Prop) (l : list ascii) :
  (∀ c, slug_char c = true → P c) →
  Forall (λ c, slug_char c = true) l → Forall P l.
Proof. intros HP Hl. by apply (Forall_impl _ _ _ Hl). Qed.

(** [slugify] changes nothing in a slug: applied to its own result, it
    returns it. *)
Theorem slugify_idempotent (text : list ascii) :
  slugify (slugify text) = slugify text.
Proof.
  destruct (slugify_slug text) as (Hchars & Hfirst & Hlast & Hsingle).
  generalize dependent (slugify text). intros s Hchars Hfirst Hlast Hsingle.
  unfold slugify. cbv zeta.
  assert (Hlower : map Str.lower s = s).
  { clear -Hchars. induction Hchars as [|c l Hc _ IH]; [done|]. simpl.
    f_equal; [by apply slug_char_classes | exact IH]. }
  rewrite Hlower. unfold replace_all, spaces1, OTHER.
  rewrite (runs_absent Str.is_space)
    by (apply (Forall_slug _ s); [intros c Hc; by apply slug_char_classes | done]).
  rewrite runs_absent
    by (apply (Forall_slug _ s); [intros c Hc; by apply slug_char_classes | done]).
  rewrite hyphens_absent by done.
  rewrite leading_absent by done.
  unfold replace_first. by rewrite trailing_absent.
Qed.

End SlugFacts.
